(** * lit-agent: the Lit Protocol action provider

    A shallow embedding of the repository's own logic:

    - [lit/schemas.ts]   the zod input schemas,
    - [lit/policies.ts]  the three policy encoders,
    - [lit/constants.ts] the IPFS CID table,
    - [lit-action-provider.ts] (the function-style provider, module [TS]),
      its JavaScript twin (module [JS]) and the class-based
      [LitActionProvider] (module [Cls]).

    Third-party code (zod, ethers v6, the Lit node client, [fs/promises],
    the wallet provider) is not part of the repository.  Its pure parts
    are modelled as far as the handlers depend on them (regular
    expressions, BigInt parsing, [parseUnits], the ABI head/tail layout);
    its effectful parts are oracles of a [World], so that every theorem
    quantifies over every outcome of every SDK call.

    Conventions.  Inputs, configurations and SDK results are untyped
    JavaScript values ([jsval]), as they are at run time; a property access
    on [undefined] or [null] throws.  An [async] function is a computation
    [M] over the state (the shared client, the files, the log of calls) that
    completes with a value or with an exception; [await] is sequencing.
    Strings are byte strings; objects have no prototype chain. *)

From Stdlib Require Import ZArith Lia List String Ascii Bool Floats.
From stdpp Require Import base strings gmap list.

Local Open Scope string_scope.
Local Open Scope Z_scope.

(** ** Characters, digits and numerals *)

Definition code (c : ascii) : Z := Z.of_nat (nat_of_ascii c).

Definition between (lo hi : Z) (c : ascii) : bool :=
  (lo <=? code c) && (code c <=? hi).

(** [\d] of a JavaScript regular expression without the [u] flag. *)
Definition is_digit (c : ascii) : bool := between 48 57 c.

(** [[a-fA-F0-9]]. *)
Definition is_hex (c : ascii) : bool :=
  between 97 102 c || between 65 70 c || between 48 57 c.

Definition is_upper_hex (c : ascii) : bool := between 65 70 c.
Definition is_lower_hex (c : ascii) : bool := between 97 102 c.

(** White space that [BigInt] and [Number] trim (the ASCII part of
    [StrWhiteSpaceChar]). *)
Definition is_space (c : ascii) : bool :=
  between 9 13 c || (code c =? 32).

(** Value of a digit in a radix up to 16; [None] when the character is not
    a digit of that radix. *)
Definition digit_value (radix : Z) (c : ascii) : option Z :=
  let v := if between 48 57 c then code c - 48
           else if between 97 102 c then code c - 87
           else if between 65 70 c then code c - 55
           else 16 in
  if v <? radix then Some v else None.

(** Most significant digit first. *)
Fixpoint digits_value_from (radix acc : Z) (ds : list ascii) : option Z :=
  match ds with
  | [] => Some acc
  | c :: ds' =>
      match digit_value radix c with
      | Some v => digits_value_from radix (radix * acc + v) ds'
      | None => None
      end
  end.

Definition digits_value (radix : Z) (ds : list ascii) : option Z :=
  digits_value_from radix 0 ds.

Definition digit_char (v : Z) : ascii :=
  ascii_of_nat (Z.to_nat (if v <? 10 then 48 + v else 87 + v)).

(** Digits of a non-negative number, most significant first, prepended to
    [acc].  [fuel] bounds the number of digits. *)
Fixpoint digits_of (radix : Z) (fuel : nat) (n : Z) (acc : list ascii) : list ascii :=
  match fuel with
  | O => acc
  | S fuel' =>
      let acc' := digit_char (n mod radix) :: acc in
      if n <? radix then acc' else digits_of radix fuel' (n / radix) acc'
  end.

Definition chars (s : string) : list ascii := list_ascii_of_string s.
Definition str (l : list ascii) : string := string_of_list_ascii l.

(** [bigint.toString()]. *)
Definition BigInt_toString (n : Z) : string :=
  let body := str (digits_of 10 (S (Z.to_nat (Z.log2 (Z.abs n)))) (Z.abs n) []) in
  if n <? 0 then "-" +:+ body else body.

Fixpoint drop_while {A} (p : A -> bool) (l : list A) : list A :=
  match l with
  | x :: l' => if p x then drop_while p l' else l
  | [] => []
  end.

Definition trim_left (l : list ascii) : list ascii := drop_while is_space l.
Definition trim (l : list ascii) : list ascii :=
  rev (trim_left (rev (trim_left l))).

(** The radix and the digits of a [0x], [0o] or [0b] literal. *)
Definition radix_prefix (l : list ascii) : option (Z * list ascii) :=
  match l with
  | z :: p :: ds =>
      if negb (z =? "0")%char then None
      else if (p =? "x")%char || (p =? "X")%char then Some (16, ds)
      else if (p =? "o")%char || (p =? "O")%char then Some (8, ds)
      else if (p =? "b")%char || (p =? "B")%char then Some (2, ds)
      else None
  | _ => None
  end.

(** A non-empty run of digits. *)
Definition numeral (radix : Z) (ds : list ascii) : option Z :=
  match ds with
  | [] => None
  | _ => digits_value radix ds
  end.

(** [BigInt(s)] for a string [s] (ECMAScript [StringToBigInt]): surrounding
    white space is trimmed; the empty string is [0n]; otherwise an optionally
    signed run of decimal digits, or an unsigned [0x]/[0o]/[0b] literal.
    [None] is the [SyntaxError]. *)
Definition StringToBigInt (s : string) : option Z :=
  match trim (chars s) with
  | [] => Some 0
  | c :: rest =>
      if (c =? "+")%char then numeral 10 rest
      else if (c =? "-")%char then Z.opp <$> numeral 10 rest
      else
        match radix_prefix (c :: rest) with
        | Some (radix, ds) => numeral radix ds
        | None => digits_value 10 (c :: rest)
        end
  end.

(** ** JavaScript values *)

Set Warnings "-register-all".

(** The values that cross the boundary between the handlers and the SDKs:
    JSON-like data.  An object is an association list in insertion order,
    looked up at the first binding of a key. *)
Inductive jsval :=
| JUndefined
| JNull
| JBool (b : bool)
| JNum (f : float)
| JStr (s : string)
| JArr (items : list jsval)
| JObj (fields : list (string * jsval)).

(** What a [throw] carries: an [Error] instance with its message, or any
    other value. *)
Inductive thrown :=
| JsError (message : string)
| JsThrown (v : jsval).

(** Completion of an evaluation: a value, or an exception. *)
Inductive completion (A : Type) :=
| Returns (a : A)
| Throws (e : thrown).
Arguments Returns {A} a.
Arguments Throws {A} e.

Definition cbind {A B} (c : completion A) (k : A -> completion B) : completion B :=
  match c with
  | Returns a => k a
  | Throws e => Throws e
  end.

#[global] Instance completion_ret : MRet completion := fun A a => Returns a.
#[global] Instance completion_bind : MBind completion := fun A B k c => cbind c k.

(** [ToBoolean] on numbers: [0], [-0] and [NaN] are falsy. *)
Definition truthy_num (f : float) : bool :=
  negb (PrimFloat.is_zero f || PrimFloat.is_nan f).

Definition truthy_str (s : string) : bool :=
  match s with EmptyString => false | _ => true end.

Definition truthy (v : jsval) : bool :=
  match v with
  | JUndefined | JNull => false
  | JBool b => b
  | JNum f => truthy_num f
  | JStr s => truthy_str s
  | JArr _ | JObj _ => true
  end.

(** [a || b] on values, and on an optional property of a typed input
    ([None] is [undefined]). *)
Definition js_or (a b : jsval) : jsval := if truthy a then a else b.

Definition or_num (a : option float) (b : float) : float :=
  match a with
  | Some f => if truthy_num f then f else b
  | None => b
  end.

Definition or_str (a : option string) (b : string) : string :=
  match a with
  | Some s => if truthy_str s then s else b
  | None => b
  end.

Definition or_bool (a : option bool) (b : bool) : bool :=
  match a with
  | Some true => true
  | _ => b
  end.

Fixpoint assoc (k : string) (fields : list (string * jsval)) : option jsval :=
  match fields with
  | [] => None
  | (k', v) :: rest => if String.eqb k k' then Some v else assoc k rest
  end.

(** [v.k]: a [TypeError] on [undefined] and [null]; [undefined] when the
    property is missing. *)
Definition get_prop (v : jsval) (k : string) : completion jsval :=
  match v with
  | JUndefined =>
      Throws (JsError ("Cannot read properties of undefined (reading '" +:+ k +:+ "')"))
  | JNull =>
      Throws (JsError ("Cannot read properties of null (reading '" +:+ k +:+ "')"))
  | JObj fields => Returns (default JUndefined (assoc k fields))
  | _ => Returns JUndefined
  end.

Definition opt_str (o : option string) : jsval :=
  match o with Some s => JStr s | None => JUndefined end.

(** The pure built-ins of the host that the model does not define itself. *)
Class Host := {
  (** [Number.prototype.toString] on a finite number or [NaN]/[Infinity] *)
  Number_toString : float -> string;
  (** [String.prototype.toLowerCase] *)
  String_toLowerCase : string -> string;
  (** whether [new URL(s)] succeeds (zod's [.url()]) *)
  URL_canParse : string -> bool;
  (** whether ethers' [getChecksumAddress], which hashes with keccak256,
      leaves the address as it is spelled *)
  has_checksum_case : string -> bool;
  (** ethers' [getAddress] on an ICAP (IBAN) address *)
  getIcapAddress : string -> completion string;
  (** [JSON.parse] *)
  JSON_parse : string -> completion jsval;
  (** [new Date(ms).toISOString()] *)
  Date_toISOString : Z -> string;
}.

Definition join (sep : string) (l : list string) : string :=
  match l with
  | [] => EmptyString
  | x :: rest => fold_left (fun acc y => acc +:+ sep +:+ y) rest x
  end.

Definition hex2 (n : Z) : string :=
  str [digit_char (n / 16); digit_char (n mod 16)].

(** [QuoteJSONString]. *)
Definition quote_char (c : ascii) : string :=
  let n := code c in
  if n =? 8 then "\b"
  else if n =? 9 then "\t"
  else if n =? 10 then "\n"
  else if n =? 12 then "\f"
  else if n =? 13 then "\r"
  else if n =? 34 then str ["\"%char; c]
  else if n =? 92 then "\\"
  else if n <? 32 then "\u00" +:+ hex2 n
  else str [c].

Definition quote (s : string) : string :=
  let dq := str [ascii_of_nat 34] in
  dq +:+ String.concat EmptyString (map quote_char (chars s)) +:+ dq.

Definition is_finite (f : float) : bool :=
  negb (PrimFloat.is_nan f || PrimFloat.is_infinity f).

Section Builtins.
Context `{Host}.

(** [SerializeJSONArray] / [SerializeJSONObject] once the members are
    serialized: [gap] is the indent unit, [indent] the current indent. *)
Definition wrap (open close gap indent : string) (members : list string) : string :=
  match members with
  | [] => open +:+ close
  | _ =>
      if truthy_str gap then
        let nl := str [ascii_of_nat 10] in
        let inner := indent +:+ gap in
        open +:+ nl +:+ inner +:+ join ("," +:+ nl +:+ inner) members
             +:+ nl +:+ indent +:+ close
      else open +:+ join "," members +:+ close
  end.

(** [SerializeJSONProperty]: [None] is [undefined]. *)
Fixpoint serialize (gap indent : string) (v : jsval) : option string :=
  match v with
  | JUndefined => None
  | JNull => Some "null"
  | JBool b => Some (if b then "true" else "false")
  | JNum f => Some (if is_finite f then Number_toString f else "null")
  | JStr s => Some (quote s)
  | JArr items =>
      Some (wrap "[" "]" gap indent
              (map (fun x => default "null" (serialize gap (indent +:+ gap) x)) items))
  | JObj fields =>
      Some (wrap "{" "}" gap indent
              (omap (fun kv =>
                       match serialize gap (indent +:+ gap) (snd kv) with
                       | Some s =>
                           Some (quote (fst kv) +:+ (if truthy_str gap then ": " else ":") +:+ s)
                       | None => None
                       end) fields))
  end.

(** [JSON.stringify(v)] and [JSON.stringify(v, null, 2)]. *)
Definition JSON_stringify (v : jsval) : option string := serialize EmptyString EmptyString v.
Definition JSON_stringify_2 (v : jsval) : option string := serialize "  " EmptyString v.

(** [ToString], as a template literal applies it. *)
Fixpoint js_toString (v : jsval) : string :=
  match v with
  | JUndefined => "undefined"
  | JNull => "null"
  | JBool b => if b then "true" else "false"
  | JNum f => Number_toString f
  | JStr s => s
  | JArr items =>
      join "," (map (fun x => match x with
                              | JUndefined | JNull => EmptyString
                              | _ => js_toString x
                              end) items)
  | JObj _ => "[object Object]"
  end.

(** [error instanceof Error ? error.message : "Unknown error"] *)
Definition error_message (error : thrown) : string :=
  match error with
  | JsError message => message
  | JsThrown _ => "Unknown error"
  end.

(** [`${error.message}`] without the [instanceof] test. *)
Definition error_message_unchecked (error : thrown) : completion string :=
  match error with
  | JsError message => Returns message
  | JsThrown v => m ← get_prop v "message"; Returns (js_toString m)
  end.
End Builtins.

(** ** Regular expressions

    The patterns of the schemas are anchored at both ends ([^...$], no
    flags), so [RegExp.prototype.test] is a whole-string match.  Matching is
    by Brzozowski derivatives. *)

Inductive regex :=
| RNone
| REps
| RSet (p : ascii -> bool)
| RSeq (a b : regex)
| RAlt (a b : regex)
| RStar (a : regex).

Definition RChr (c : ascii) : regex := RSet (Ascii.eqb c).
Definition ROpt (r : regex) : regex := RAlt r REps.
Definition RPlus (r : regex) : regex := RSeq r (RStar r).

Fixpoint RRep (n : nat) (r : regex) : regex :=
  match n with
  | O => REps
  | S n' => RSeq r (RRep n' r)
  end.

Fixpoint nullable (r : regex) : bool :=
  match r with
  | RNone => false
  | REps => true
  | RSet _ => false
  | RSeq a b => nullable a && nullable b
  | RAlt a b => nullable a || nullable b
  | RStar _ => true
  end.

Fixpoint deriv (c : ascii) (r : regex) : regex :=
  match r with
  | RNone | REps => RNone
  | RSet p => if p c then REps else RNone
  | RSeq a b =>
      if nullable a then RAlt (RSeq (deriv c a) b) (deriv c b)
      else RSeq (deriv c a) b
  | RAlt a b => RAlt (deriv c a) (deriv c b)
  | RStar a => RSeq (deriv c a) (RStar a)
  end.

Fixpoint rmatch (r : regex) (l : list ascii) : bool :=
  match l with
  | [] => nullable r
  | c :: l' => rmatch (deriv c r) l'
  end.

Definition regex_test (r : regex) (s : string) : bool := rmatch r (chars s).

(** The language of a regular expression. *)
Inductive Lang : regex -> list ascii -> Prop :=
| LEps : Lang REps []
| LSet p c : p c = true -> Lang (RSet p) [c]
| LSeq a b u v : Lang a u -> Lang b v -> Lang (RSeq a b) (u ++ v)
| LAltL a b u : Lang a u -> Lang (RAlt a b) u
| LAltR a b u : Lang b u -> Lang (RAlt a b) u
| LStarNil a : Lang (RStar a) []
| LStarApp a u v : Lang a u -> Lang (RStar a) v -> Lang (RStar a) (u ++ v).

(** [/^0x[a-fA-F0-9]{40}$/] *)
Definition ethAddressRe : regex :=
  RSeq (RChr "0") (RSeq (RChr "x") (RRep 40 (RSet is_hex))).

(** [/^\d*\.?\d+$/] *)
Definition decimalRe : regex :=
  RSeq (RStar (RSet is_digit)) (RSeq (ROpt (RChr ".")) (RPlus (RSet is_digit))).

(** [/^\d+$/] *)
Definition chainIdRe : regex := RPlus (RSet is_digit).

(** ** zod

    A schema is data, as in the source; [zparse] follows zod's parsers.
    An issue is kept as its message. *)

Inductive string_check :=
| CheckRegex (r : regex) (message : string)
| CheckUrl.

Inductive unknown_keys := Strip | Strict.

Inductive zschema :=
| ZString (checks : list string_check)
| ZNumber
| ZLiteral (value : string)
| ZArray (item : zschema)
| ZOptional (inner : zschema)
| ZDefault (inner : zschema) (value : jsval)
| ZObject (shape : list (string * zschema)) (unknown : unknown_keys).

Inductive zresult :=
| ZOk (v : jsval)
| ZErr (issues : list string).

Definition zissues (r : zresult) : list string :=
  match r with ZOk _ => [] | ZErr issues => issues end.

Definition is_ZOk (r : zresult) : bool :=
  match r with ZOk _ => true | ZErr _ => false end.

Definition has_key (k : string) (fields : list (string * jsval)) : bool :=
  match assoc k fields with Some _ => true | None => false end.

Definition has_shape_key (k : string) (shape : list (string * zschema)) : bool :=
  existsb (fun kt => String.eqb k (fst kt)) shape.

Section Zod.
Context `{Host}.

Definition run_check (s : string) (c : string_check) : list string :=
  match c with
  | CheckRegex r message => if regex_test r s then [] else [message]
  | CheckUrl => if URL_canParse s then [] else ["Invalid url"]
  end.

(** [mergeObjectSync]: a key is set when its parsed value is not
    [undefined] or the key was present in the input. *)
Definition merge_pairs (data : list (string * jsval))
    (pairs : list (string * zresult)) : list (string * jsval) :=
  omap (fun kr =>
          match snd kr with
          | ZOk v =>
              match v with
              | JUndefined => if has_key (fst kr) data then Some (fst kr, v) else None
              | _ => Some (fst kr, v)
              end
          | ZErr _ => None
          end) pairs.

Fixpoint zparse (t : zschema) (data : jsval) : zresult :=
  match t with
  | ZString checks =>
      match data with
      | JStr s =>
          match flat_map (run_check s) checks with
          | [] => ZOk data
          | issues => ZErr issues
          end
      | JUndefined => ZErr ["Required"]
      | _ => ZErr ["Expected string"]
      end
  | ZNumber =>
      match data with
      | JNum f => if PrimFloat.is_nan f then ZErr ["Expected number, received nan"] else ZOk data
      | JUndefined => ZErr ["Required"]
      | _ => ZErr ["Expected number"]
      end
  | ZLiteral value =>
      match data with
      | JStr s => if String.eqb s value then ZOk data else ZErr ["Invalid literal value"]
      | _ => ZErr ["Invalid literal value"]
      end
  | ZArray item =>
      match data with
      | JArr items =>
          let results := map (zparse item) items in
          match flat_map zissues results with
          | [] => ZOk (JArr (omap (fun r => match r with ZOk v => Some v | ZErr _ => None end) results))
          | issues => ZErr issues
          end
      | JUndefined => ZErr ["Required"]
      | _ => ZErr ["Expected array"]
      end
  | ZOptional inner =>
      match data with
      | JUndefined => ZOk JUndefined
      | _ => zparse inner data
      end
  | ZDefault inner value =>
      match data with
      | JUndefined => zparse inner value
      | _ => zparse inner data
      end
  | ZObject shape unknown =>
      match data with
      | JObj fields =>
          let pairs :=
            map (fun kt => (fst kt, zparse (snd kt) (default JUndefined (assoc (fst kt) fields))))
                shape in
          let extra := List.filter (fun k => negb (has_shape_key k shape)) (map fst fields) in
          let unrecognized :=
            match unknown, extra with
            | Strict, _ :: _ => ["Unrecognized key(s) in object"]
            | _, _ => []
            end in
          match (flat_map (fun kr => zissues (snd kr)) pairs ++ unrecognized)%list with
          | [] => ZOk (JObj (merge_pairs fields pairs))
          | issues => ZErr issues
          end
      | JUndefined => ZErr ["Required"]
      | _ => ZErr ["Expected object"]
      end
  end.

(** [schema.parse(data)]: the parsed value, or a [ZodError] (an [Error];
    its message lists the issues). *)
Definition parse (t : zschema) (data : jsval) : completion jsval :=
  match zparse t data with
  | ZOk v => Returns v
  | ZErr issues => Throws (JsError (join "; " issues))
  end.
End Zod.

(** *** lit/schemas.ts *)

Definition ethAddressString : zschema :=
  ZString [CheckRegex ethAddressRe "Must be a valid Ethereum address"].

Definition HelloLitSchema : zschema :=
  ZObject [("magicNumber", ZOptional ZNumber)] Strict.

Definition EncryptEnvSchema : zschema :=
  ZObject [("envFilePath", ZDefault (ZOptional (ZString [])) (JStr ".env"));
           ("outputPath", ZDefault (ZOptional (ZString [])) (JStr ".env.encrypted"));
           ("walletAddress", ZOptional (ZString []))] Strict.

Definition DecryptEnvSchema : zschema :=
  ZObject [("encryptedFilePath", ZDefault (ZOptional (ZString [])) (JStr ".env.encrypted"));
           ("outputPath", ZDefault (ZOptional (ZString [])) (JStr ".env"))] Strict.

Definition LitErc20TransferSchema : zschema :=
  ZObject [("pkpEthAddress", ethAddressString);
           ("tokenAddress", ethAddressString);
           ("recipientAddress", ethAddressString);
           ("amount", ZString [CheckRegex decimalRe "Must be a valid decimal number"]);
           ("chainId", ZString [CheckRegex chainIdRe "Must be a valid chain ID"]);
           ("rpcUrl", ZString [CheckUrl])] Strict.

Definition LitEcdsaSignSchema : zschema :=
  ZObject [("pkpEthAddress", ethAddressString);
           ("message", ZString [])] Strict.

Definition LitUniswapSwapSchema : zschema :=
  ZObject [("pkpEthAddress", ethAddressString);
           ("tokenIn", ethAddressString);
           ("tokenOut", ethAddressString);
           ("amountIn", ZString [CheckRegex decimalRe "Must be a valid decimal number"]);
           ("chainId", ZString [CheckRegex chainIdRe "Must be a valid chain ID"]);
           ("rpcUrl", ZString [CheckUrl])] Strict.

(** *** lit/policies.ts: the policy schemas *)

Definition erc20TransferPolicySchema : zschema :=
  ZObject [("type", ZLiteral "ERC20Transfer");
           ("version", ZString []);
           ("erc20Decimals", ZString []);
           ("maxAmount", ZString []);
           ("allowedTokens", ZArray ethAddressString);
           ("allowedRecipients", ZArray ethAddressString)] Strip.

Definition signEcdsaPolicySchema : zschema :=
  ZObject [("type", ZLiteral "SignEcdsa");
           ("version", ZString []);
           ("allowedPrefixes", ZArray (ZString []))] Strip.

Definition uniswapSwapPolicySchema : zschema :=
  ZObject [("type", ZLiteral "UniswapSwap");
           ("version", ZString []);
           ("maxAmount", ZString []);
           ("allowedTokens", ZArray ethAddressString)] Strip.

(** ** ethers v6

    [getBigInt], [getNumber], [parseUnits] ([FixedNumber.fromString]),
    [getAddress] and [AbiCoder.encode] for the types the policies use.
    Error messages are the short messages of ethers' assertions. *)

Definition MAX_SAFE_INTEGER : Z := 2 ^ 53 - 1.

(** The integer a JavaScript number denotes, when [Number.isInteger]. *)
Definition float_integer (f : float) : option Z :=
  match Prim2SF f with
  | S754_zero _ => Some 0
  | S754_finite neg m e =>
      let mag :=
        if 0 <=? e then Some (Z.pos m * 2 ^ e)
        else if Z.pos m mod 2 ^ (- e) =? 0 then Some (Z.pos m / 2 ^ (- e))
        else None in
      (if neg then Z.opp else id) <$> mag
  | _ => None
  end.

Definition is_mixed_case (address : string) : bool :=
  existsb is_upper_hex (chars address) && existsb is_lower_hex (chars address).

(** [/^(0x)?[0-9a-fA-F]{40}$/] and [/^XE[0-9]{2}[0-9A-Za-z]{30,31}$/] *)
Definition plainAddressRe : regex :=
  RSeq (ROpt (RSeq (RChr "0") (RChr "x"))) (RRep 40 (RSet is_hex)).

Definition is_alnum (c : ascii) : bool :=
  between 48 57 c || between 65 90 c || between 97 122 c.

Definition icapAddressRe : regex :=
  RSeq (RChr "X") (RSeq (RChr "E") (RSeq (RRep 2 (RSet is_digit))
    (RSeq (RRep 30 (RSet is_alnum)) (ROpt (RSet is_alnum))))).

Definition starts_with_0x (s : string) : bool :=
  match chars s with
  | z :: x :: _ => (z =? "0")%char && (x =? "x")%char
  | _ => false
  end.

(** The pattern of [FixedNumber.fromString]: an optional minus sign, a run
    of digits, an optional dot and a run of digits, each in a group.  The
    groups are greedy, so the whole part is the longest run of digits. *)
Fixpoint span_digits (l : list ascii) : list ascii * list ascii :=
  match l with
  | c :: l' =>
      if is_digit c then let (ds, rest) := span_digits l' in (c :: ds, rest)
      else ([], l)
  | [] => ([], [])
  end.

Definition fixed_match (s : string) : option (bool * list ascii * list ascii) :=
  let (neg, body) :=
    match chars s with
    | c :: rest => if (c =? "-")%char then (true, rest) else (false, c :: rest)
    | [] => (false, [])
    end in
  let (whole, rest) := span_digits body in
  match rest with
  | [] => Some (neg, whole, [])
  | c :: fraction =>
      if (c =? ".")%char && forallb is_digit fraction then Some (neg, whole, fraction)
      else None
  end.

Definition is_zero_char (c : ascii) : bool := (c =? "0")%char.

(** 32 bytes, big-endian, the last word padded with zero bytes. *)
Definition word_of_bytes (chunk : list ascii) : Z :=
  fold_left (fun acc b => 256 * acc + b)
            (map code chunk ++ repeat 0 (32 - length chunk)%nat)%list 0.

Fixpoint words_of_bytes (fuel : nat) (bs : list ascii) : list Z :=
  match fuel with
  | O => []
  | S fuel' =>
      match bs with
      | [] => []
      | _ => word_of_bytes (take 32 bs) :: words_of_bytes fuel' (drop 32 bs)
      end
  end.

Fixpoint hex_digits (n : nat) (v : Z) (acc : list ascii) : list ascii :=
  match n with
  | O => acc
  | S n' => hex_digits n' (v / 16) (digit_char (v mod 16) :: acc)
  end.

Definition word_hex (w : Z) : string := str (hex_digits 64 w []).

(** [hexlify] of the writer's data. *)
Definition hexlify_words (ws : list Z) : string :=
  "0x" +:+ String.concat EmptyString (map word_hex ws).

Inductive abi_type :=
| TUint (bits : Z)
| TAddress
| TString
| TArray (item : abi_type)
| TTuple (components : list (string * abi_type)).

(** [coder.dynamic] *)
Fixpoint dynamic (t : abi_type) : bool :=
  match t with
  | TUint _ | TAddress => false
  | TString | TArray _ => true
  | TTuple components => existsb (fun nt => dynamic (snd nt)) components
  end.

(** [pack]: the static words and the offsets of the dynamic parts, followed
    by the dynamic parts. *)
Definition head_words (coded : list (bool * list Z)) : Z :=
  fold_right (fun (c : bool * list Z) n =>
                (if fst c then 1 else Z.of_nat (length (snd c))) + n) 0 coded.

Fixpoint pack_from (offset : Z) (coded : list (bool * list Z)) : list Z * list Z :=
  match coded with
  | [] => ([], [])
  | (true, ws) :: rest =>
      let (heads, tails) := pack_from (offset + 32 * Z.of_nat (length ws)) rest in
      (offset :: heads, (ws ++ tails)%list)
  | (false, ws) :: rest =>
      let (heads, tails) := pack_from offset rest in
      ((ws ++ heads)%list, tails)
  end.

Definition pack (coded : list (bool * list Z)) : list Z :=
  let (heads, tails) := pack_from (32 * head_words coded) coded in
  (heads ++ tails)%list.

Fixpoint mapM {A B} (f : A -> completion B) (l : list A) : completion (list B) :=
  match l with
  | [] => Returns []
  | x :: l' => y ← f x; ys ← mapM f l'; Returns (y :: ys)
  end.

Section Ethers.
Context `{Host}.

(** [Number(v)], as an integer when it is one.  On a string it is
    [StringToNumber] restricted to integer literals; a fraction, an
    exponent form, [Infinity] and [NaN] are [None].  ([getNumber] rejects
    a non-integer, and the [uint8] coder rejects the remaining forms.) *)
Definition js_Number (v : jsval) : option Z :=
  match v with
  | JUndefined => None
  | JNull => Some 0
  | JBool b => Some (if b then 1 else 0)
  | JNum f => float_integer f
  | JStr s => StringToBigInt s
  | JArr _ | JObj _ => StringToBigInt (js_toString v)
  end.

Definition getBigInt (value : jsval) : completion Z :=
  match value with
  | JNum f =>
      match float_integer f with
      | None => Throws (JsError "underflow")
      | Some n =>
          if (- MAX_SAFE_INTEGER <=? n) && (n <=? MAX_SAFE_INTEGER) then Returns n
          else Throws (JsError "overflow")
      end
  | JStr s =>
      let parsed :=
        match chars s with
        | [] => None
        | c :: rest =>
            let second_is_minus :=
              match rest with
              | c' :: _ => (c' =? "-")%char
              | [] => false
              end in
            if (c =? "-")%char && negb second_is_minus
            then Z.opp <$> StringToBigInt (str rest)
            else StringToBigInt s
        end in
      match parsed with
      | Some n => Returns n
      | None => Throws (JsError "invalid BigNumberish string")
      end
  | _ => Throws (JsError "invalid BigNumberish value")
  end.

Definition getNumber (value : option Z) : completion Z :=
  match value with
  | None => Throws (JsError "underflow")
  | Some n =>
      if (- MAX_SAFE_INTEGER <=? n) && (n <=? MAX_SAFE_INTEGER) then Returns n
      else Throws (JsError "overflow")
  end.

(** [FixedNumber.fromString(value, { decimals, width }).value].  The source
    pads the fraction with zeros in blocks and cuts it at [decimals]. *)
Definition FixedNumber_fromString (value : string) (decimals width : Z) : completion Z :=
  match fixed_match value with
  | Some (neg, whole, fraction) =>
      if (length whole + length fraction =? 0)%nat
      then Throws (JsError "invalid FixedNumber string value")
      else if negb (width mod 8 =? 0)
      then Throws (JsError "invalid FixedNumber width (not byte aligned)")
      else if 80 <? decimals
      then Throws (JsError "invalid FixedNumber decimals (too large)")
      else
        let d := Z.to_nat decimals in
        let padded := (fraction ++ repeat "0"%char (d - length fraction)%nat)%list in
        if negb (forallb is_zero_char (drop d padded))
        then Throws (JsError "too many decimals for format")
        else
          let whole' := match whole with [] => ["0"%char] | _ => whole end in
          match digits_value 10 (whole' ++ take d padded)%list with
          | Some n =>
              let v := if neg then - n else n in
              let limit := 2 ^ (width - 1) in
              if (- limit <=? v) && (v <? limit) then Returns v
              else Throws (JsError "overflow")
          | None => Throws (JsError "invalid FixedNumber string value")
          end
  | None => Throws (JsError "invalid FixedNumber string value")
  end.

(** [ethers.parseUnits(value, unit)] with a numeric [unit]. *)
Definition parseUnits (value : jsval) (unit : option Z) : completion Z :=
  match value with
  | JStr s =>
      decimals ← getNumber unit;
      FixedNumber_fromString s decimals 512
  | _ => Throws (JsError "value must be a string")
  end.

(** [getAddress].  ethers returns the address in its checksum spelling,
    which differs from the argument only in the case of its letters; the
    model returns the argument with its [0x] prefix, which denotes the same
    number. *)
Definition getAddress (value : jsval) : completion string :=
  match value with
  | JStr address =>
      if regex_test plainAddressRe address then
        let address := if starts_with_0x address then address else "0x" +:+ address in
        if is_mixed_case address && negb (has_checksum_case address)
        then Throws (JsError "bad address checksum")
        else Returns address
      else if regex_test icapAddressRe address then getIcapAddress address
      else Throws (JsError "invalid address")
  | _ => Throws (JsError "invalid address")
  end.

(** [NumberCoder.encode] for [uint<bits>]. *)
Definition encode_uint (bits : Z) (value : jsval) : completion Z :=
  v ← getBigInt value;
  if (v <? 0) || (2 ^ bits - 1 <? v) then Throws (JsError "value out-of-bounds")
  else Returns v.

(** [AddressCoder.encode]: the word written is the number the address
    denotes. *)
Definition encode_address (value : jsval) : completion Z :=
  address ← getAddress value;
  getBigInt (JStr address).

(** The values of a tuple, by position or by component name. *)
Definition tuple_values (components : list (string * abi_type)) (v : jsval)
    : completion (list jsval) :=
  match v with
  | JArr items => Returns items
  | JObj fields =>
      Returns (map (fun nt => default JUndefined (assoc (fst nt) fields)) components)
  | _ => Throws (JsError "invalid tuple value")
  end.

(** [coder.encode]: the words written for a value of a type. *)
Fixpoint abi_encode_value (t : abi_type) (v : jsval) {struct t} : completion (list Z) :=
  match t with
  | TUint bits => n ← encode_uint bits v; Returns [n]
  | TAddress => n ← encode_address v; Returns [n]
  | TString =>
      match v with
      | JStr s =>
          Returns (Z.of_nat (String.length s)
                     :: words_of_bytes (String.length s) (chars s))
      | _ => Throws (JsError "invalid string value")
      end
  | TArray item =>
      match v with
      | JArr items =>
          coded ← mapM (abi_encode_value item) items;
          Returns (Z.of_nat (length items)
                     :: pack (map (fun ws => (dynamic item, ws)) coded))
      | _ => Throws (JsError "expected array value")
      end
  | TTuple components =>
      values ← tuple_values components v;
      if negb (length components =? length values)%nat
      then Throws (JsError "types/value length mismatch")
      else
        coded ← (fix go (cs : list (string * abi_type)) (xs : list jsval)
                   : completion (list (bool * list Z)) :=
                   match cs, xs with
                   | (_, t') :: cs', x :: xs' =>
                       ws ← abi_encode_value t' x;
                       rest ← go cs' xs';
                       Returns ((dynamic t', ws) :: rest)
                   | _, _ => Returns []
                   end) components values;
        Returns (pack coded)
  end.

(** [AbiCoder.defaultAbiCoder().encode(types, values)] *)
Definition abi_encode (types : list abi_type) (values : list jsval) : completion string :=
  if negb (length values =? length types)%nat
  then Throws (JsError "types/values length mismatch")
  else
    ws ← abi_encode_value (TTuple (map (fun t => (EmptyString, t)) types)) (JArr values);
    Returns (hexlify_words ws).
End Ethers.

(** ** lit/policies.ts *)

Section Policies.
Context `{Host}.

Definition POLICY_VERSION : string := "1.0.0".

Definition ERC20TransferPolicy_encode (policy : jsval) : completion string :=
  _ ← parse erc20TransferPolicySchema policy;
  erc20Decimals ← get_prop policy "erc20Decimals";
  maxAmount ← get_prop policy "maxAmount";
  units ← parseUnits maxAmount (js_Number erc20Decimals);
  allowedTokens ← get_prop policy "allowedTokens";
  allowedRecipients ← get_prop policy "allowedRecipients";
  abi_encode
    [TTuple [("erc20Decimals", TUint 8); ("maxAmount", TUint 256);
             ("allowedTokens", TArray TAddress);
             ("allowedRecipients", TArray TAddress)]]
    [JObj [("erc20Decimals", erc20Decimals);
           ("maxAmount", JStr (BigInt_toString units));
           ("allowedTokens", allowedTokens);
           ("allowedRecipients", allowedRecipients)]].

Definition SignEcdsaPolicy_encode (policy : jsval) : completion string :=
  _ ← parse signEcdsaPolicySchema policy;
  allowedPrefixes ← get_prop policy "allowedPrefixes";
  abi_encode
    [TTuple [("allowedPrefixes", TArray TString)]]
    [JObj [("allowedPrefixes", allowedPrefixes)]].

Definition UniswapSwapPolicy_encode (policy : jsval) : completion string :=
  _ ← parse uniswapSwapPolicySchema policy;
  maxAmount ← get_prop policy "maxAmount";
  allowedTokens ← get_prop policy "allowedTokens";
  abi_encode
    [TTuple [("maxAmount", TUint 256); ("allowedTokens", TArray TAddress)]]
    [JObj [("maxAmount", maxAmount); ("allowedTokens", allowedTokens)]].
End Policies.

(** ** A concrete host for closed examples

    ASCII lower-casing, integers printed in decimal, [http] URLs, and
    every mixed-case address taken to carry a correct checksum. *)

Definition ascii_lower (c : ascii) : ascii :=
  if between 65 90 c then ascii_of_nat (nat_of_ascii c + 32) else c.

Definition example_host : Host := {|
  Number_toString f :=
    match float_integer f with
    | Some n => BigInt_toString n
    | None => "NaN"
    end;
  String_toLowerCase s := str (map ascii_lower (chars s));
  URL_canParse s :=
    match chars s with
    | "h"%char :: "t"%char :: "t"%char :: "p"%char :: _ => true
    | _ => false
    end;
  has_checksum_case _ := true;
  getIcapAddress _ := Throws (JsError "bad icap checksum");
  JSON_parse _ := Throws (JsError "Unexpected token");
  Date_toISOString ms := BigInt_toString ms;
|}.

(** ** The world outside the repository

    Every call into an SDK, the wallet provider, the file system or the
    console is logged, and its outcome (a value or an exception) is chosen
    by the world from the calls made so far. *)

Inductive Api :=
| LitNodeClient_new
| client_connect
| client_authNeeded
| client_getSessionSigs
| client_getLatestBlockhash
| client_executeJs
| wallet_getAddress
| wallet_getNetwork
| wallet_signMessage
| wallet_getWalletClient
| walletClient_getAddresses
| walletClient_signMessage
| lit_createSiweMessage
| lit_encryptString
| lit_decryptToString
| fs_readFile
| fs_writeFile
| console_error.

Record Call := { api : Api; args : list jsval }.

Record World := {
  (** the outcome of a call, given the calls before it; for the two file
      operations a [Throws] is an I/O fault and a [Returns] lets the
      operation act on the files *)
  sdk : list Call -> Call -> completion jsval;
  (** [typeof walletProvider.signMessage === "function"] *)
  wallet_has_signMessage : bool;
  (** [Date.now()] *)
  clock : list Call -> Z;
}.

(** A Lit node client: the configuration it was constructed with, and the
    number of constructions before it, which tells handles apart. *)
Record LitNodeClient := {
  client_serial : nat;
  client_config : jsval;
}.

Record State := {
  (** the shared client instance ([let litNodeClient = null]) *)
  litNodeClient : option LitNodeClient;
  (** the files, by path *)
  files : gmap string string;
  (** the calls made so far, oldest first *)
  log : list Call;
}.

Definition initial_state (fs : gmap string string) : State :=
  {| litNodeClient := None; files := fs; log := [] |}.

(** An asynchronous computation, run to completion. *)
Definition M (A : Type) : Type := State -> completion A * State.

#[global] Instance M_ret : MRet M := fun A a st => (Returns a, st).
#[global] Instance M_bind : MBind M := fun A B k m st =>
  match m st with
  | (Returns a, st') => k a st'
  | (Throws e, st') => (Throws e, st')
  end.

Definition throw {A} (e : thrown) : M A := fun st => (Throws e, st).

Definition lift {A} (c : completion A) : M A := fun st => (c, st).

(** [try { body } catch (error) { handler }] *)
Definition try_catch {A} (body : M A) (handler : thrown -> M A) : M A := fun st =>
  match body st with
  | (Returns a, st') => (Returns a, st')
  | (Throws e, st') => handler e st'
  end.

Definition get_litNodeClient : M (option LitNodeClient) :=
  fun st => (Returns (litNodeClient st), st).

Definition set_litNodeClient (c : LitNodeClient) : M unit := fun st =>
  (Returns tt, {| litNodeClient := Some c; files := files st; log := log st |}).

Definition record (c : Call) (st : State) : State :=
  {| litNodeClient := litNodeClient st; files := files st; log := log st ++ [c] |}.

Definition set_file (path content : string) (st : State) : State :=
  {| litNodeClient := litNodeClient st;
     files := <[path := content]> (files st);
     log := log st |}.

Definition is_new (c : Call) : bool :=
  match api c with LitNodeClient_new => true | _ => false end.

Definition thrown_value (e : thrown) : jsval :=
  match e with
  | JsError message => JObj [("message", JStr message)]
  | JsThrown v => v
  end.

(** [xs[i]] *)
Definition get_index (v : jsval) (i : nat) : completion jsval :=
  match v with
  | JUndefined | JNull => Throws (JsError "Cannot read properties of undefined")
  | JArr items => Returns (default JUndefined (items !! i))
  | _ => Returns JUndefined
  end.

(** The own enumerable properties that an object spread copies. *)
Definition own_props (v : jsval) : list (string * jsval) :=
  match v with
  | JObj fields => fields
  | JArr items => imap (fun i x => (BigInt_toString (Z.of_nat i), x)) items
  | JStr s => imap (fun i c => (BigInt_toString (Z.of_nat i), JStr (str [c]))) (chars s)
  | _ => []
  end.

Fixpoint set_field (k : string) (v : jsval) (fields : list (string * jsval))
    : list (string * jsval) :=
  match fields with
  | [] => [(k, v)]
  | (k', v') :: rest =>
      if String.eqb k k' then (k, v) :: rest else (k', v') :: set_field k v rest
  end.

(** [{ ...fields, ...v }] *)
Definition spread (fields : list (string * jsval)) (v : jsval) : list (string * jsval) :=
  fold_left (fun acc kv => set_field (fst kv) (snd kv) acc) (own_props v) fields.

Section Calls.
Context `{Host} (W : World).

(** A call whose outcome the world chooses. *)
Definition call (a : Api) (xs : list jsval) : M jsval := fun st =>
  let c := {| api := a; args := xs |} in
  (sdk W (log st) c, record c st).

(** [new LitJsSdk.LitNodeClient(config)] *)
Definition new_LitNodeClient (config : jsval) : M LitNodeClient := fun st =>
  let c := {| api := LitNodeClient_new; args := [config] |} in
  match sdk W (log st) c with
  | Returns _ =>
      (Returns {| client_serial := length (List.filter is_new (log st));
                  client_config := config |}, record c st)
  | Throws e => (Throws e, record c st)
  end.

Definition now : M Z := fun st => (Returns (clock W (log st)), st).

(** [fs.readFile(path, "utf-8")] *)
Definition readFile (path : jsval) : M jsval := fun st =>
  let c := {| api := fs_readFile; args := [path; JStr "utf-8"] |} in
  let st' := record c st in
  match path with
  | JStr p =>
      match sdk W (log st) c with
      | Throws e => (Throws e, st')
      | Returns _ =>
          match files st !! p with
          | Some content => (Returns (JStr content), st')
          | None =>
              (Throws (JsError ("ENOENT: no such file or directory, open '" +:+ p +:+ "'")),
               st')
          end
      end
  | _ => (Throws (JsError "The 'path' argument must be of type string"), st')
  end.

(** [fs.writeFile(path, data)] *)
Definition writeFile (path data : jsval) : M unit := fun st =>
  let c := {| api := fs_writeFile; args := [path; data] |} in
  let st' := record c st in
  match path, data with
  | JStr p, JStr content =>
      match sdk W (log st) c with
      | Throws e => (Throws e, st')
      | Returns _ => (Returns tt, set_file p content st')
      end
  | JStr _, _ => (Throws (JsError "The 'data' argument must be of type string"), st')
  | _, _ => (Throws (JsError "The 'path' argument must be of type string"), st')
  end.

(** [s.toLowerCase()] *)
Definition toLowerCase (v : jsval) : completion jsval :=
  match v with
  | JStr s => Returns (JStr (String_toLowerCase s))
  | JUndefined | JNull =>
      Throws (JsError "Cannot read properties of undefined (reading 'toLowerCase')")
  | _ => Throws (JsError "toLowerCase is not a function")
  end.

(** [client.getSessionSigs(params)]: when the node client needs a fresh
    authentication signature it calls [authNeededCallback] with its
    request, and an exception of the callback rejects the call. *)
Definition getSessionSigs_with (params : jsval) (authNeededCallback : jsval -> M jsval)
    : M jsval :=
  request ← call client_authNeeded [params];
  if truthy request then
    authSig ← authNeededCallback request;
    call client_getSessionSigs [params; authSig]
  else call client_getSessionSigs [params].
End Calls.

(** ** lit/constants.ts *)

Definition IPFS_CIDS : jsval :=
  JObj [("datil-dev",
         JObj [("erc20Transfer", JStr "QmUPnnuz8E3wKYG7bCxqnjjhV9anE9uMxHXY4fTv7Z5Y6A");
               ("ecdsaSign", JStr "QmZJovPgBBBmuLKRtdVwdV47opNSmLiV2AZCNTtWzeog1Q");
               ("uniswapSwap", JStr "QmQPUjXmFiAe363TYAiv3DPciyTDSFLym2S9FR1d78ZRWs")]);
        ("datil-test",
         JObj [("erc20Transfer", JStr "QmRcwjz5EpUaABPMwhgYwsDsy1noYNYkhr6nC8JqWUPEoy");
               ("ecdsaSign", JStr "QmZbVUwomfUfCa38ia69LrSfH1k8JNK3BHeSUKm5tGMWgv");
               ("uniswapSwap", JStr "QmaLAZCJEk5B4BW962pjENxCDHvwGtPptCamhckk9GJxJe")]);
        ("datil",
         JObj [("erc20Transfer", JStr "QmQ1k3ZzmoPDukAphQ353WJ73XaNFnhmztr1v2hfTprW3V");
               ("ecdsaSign", JStr "QmPjxnXWSPYGYR2gZyiZHpRE7dMAeb7K181R4Cfvkw5KM8");
               ("uniswapSwap", JStr "QmStLtPzAvyUAQXbkUorZUJ7mgst6tU4xhJoFYHMZp9etH")])].

Definition dq : string := str [ascii_of_nat 34].

Definition HELLO_LIT_CODE : string :=
  "(async () => {
  // @ts-ignore
  console.log(magicNumber);
  try {
    // @ts-ignore
    LitActions.setResponse({
      response: JSON.stringify({ message: " +:+ dq +:+ "Hello from Lit Protocol!" +:+ dq +:+ " }),
    });
  } catch (error) {
    // @ts-ignore
    LitActions.setResponse({ response: error.message });
  }
})();".

(** [LIT_ABILITY.LitActionExecution] of [@lit-protocol/constants] *)
Definition LIT_ABILITY_LitActionExecution : string := "lit-action-execution".

(** ** The uniform envelope *)

Definition success_envelope (result : option string) : jsval :=
  JObj [("success", JBool true); ("result", opt_str result)].

Definition failure_envelope (error : string) : jsval :=
  JObj [("success", JBool false); ("error", JStr error)].

(** ** What the three providers share *)

Section Shared.
Context `{Host} (W : World).

(** [IPFS_CIDS[network].<action>] *)
Definition ipfs_cid (network : jsval) (action : string) : completion jsval :=
  entry ← get_prop IPFS_CIDS (js_toString network);
  get_prop entry action.

(** The parameters of [client.getSessionSigs], without the callback. *)
Definition session_params (expiration : string) : jsval :=
  JObj [("chain", JStr "ethereum");
        ("expiration", JStr expiration);
        ("resourceAbilityRequests",
         JArr [JObj [("resource", JStr "*");
                     ("ability", JStr LIT_ABILITY_LitActionExecution)]])].

(** The message to sign, up to the signature. *)
Definition siwe_message (walletAddress request : jsval) : M jsval :=
  uri ← lift (get_prop request "uri");
  expiration ← lift (get_prop request "expiration");
  resourceAbilityRequests ← lift (get_prop request "resourceAbilityRequests");
  nonce ← call W client_getLatestBlockhash [];
  call W lit_createSiweMessage
    [JObj [("uri", uri); ("expiration", expiration);
           ("resources", resourceAbilityRequests);
           ("walletAddress", walletAddress); ("nonce", nonce)]].

Definition auth_sig (signature toSign walletAddress : jsval) : jsval :=
  JObj [("sig", signature);
        ("derivedVia", JStr "web3.eth.personal.sign");
        ("signedMessage", toSign);
        ("address", walletAddress)].

(** Signing through the wallet client (viem). *)
Definition sign_with_walletClient (toSign : jsval) : M jsval :=
  _ ← call W wallet_getWalletClient [];
  accounts ← call W walletClient_getAddresses [];
  account ← lift (get_index accounts 0);
  call W walletClient_signMessage [JObj [("message", toSign); ("account", account)]].

(** [JSON.stringify(res.response || res)] *)
Definition stringify_response (res : jsval) : completion (option string) :=
  response ← get_prop res "response";
  Returns (JSON_stringify (js_or response res)).

Definition access_control_conditions (lowered : jsval) : jsval :=
  JArr [JObj [("contractAddress", JStr EmptyString);
              ("standardContractType", JStr EmptyString);
              ("chain", JStr "ethereum");
              ("method", JStr EmptyString);
              ("parameters", JArr [JStr ":userAddress"]);
              ("returnValueTest",
               JObj [("comparator", JStr "="); ("value", lowered)])]].

Definition encrypted_data (encryptedAt : string)
    (walletAddress conditions ciphertext dataToEncryptHash network : jsval) : jsval :=
  JObj [("version", JStr "1.0.0");
        ("encryptedAt", JStr encryptedAt);
        ("encryptedBy", walletAddress);
        ("accessControlConditions", conditions);
        ("ciphertext", ciphertext);
        ("dataToEncryptHash", dataToEncryptHash);
        ("network", network)].

Definition erc20_policy (amount tokenAddress recipientAddress : jsval) : jsval :=
  JObj [("type", JStr "ERC20Transfer");
        ("version", JStr POLICY_VERSION);
        ("erc20Decimals", JStr "18");
        ("maxAmount", amount);
        ("allowedTokens", JArr [tokenAddress]);
        ("allowedRecipients", JArr [recipientAddress])].

Definition ecdsa_policy (message : jsval) : jsval :=
  JObj [("type", JStr "SignEcdsa");
        ("version", JStr POLICY_VERSION);
        ("allowedPrefixes", JArr [message])].

Definition uniswap_policy (amountIn tokenIn tokenOut : jsval) : jsval :=
  JObj [("type", JStr "UniswapSwap");
        ("version", JStr POLICY_VERSION);
        ("maxAmount", amountIn);
        ("allowedTokens", JArr [tokenIn; tokenOut])].

(** The body common to the three PKP actions, from the validated fields
    on: look up the CID, encode the policy, execute the Lit Action. *)
Definition erc20_execute (sessionSigs network args : jsval) : M jsval :=
  ipfsCid ← lift (ipfs_cid network "erc20Transfer");
  amount ← lift (get_prop args "amount");
  tokenAddress ← lift (get_prop args "tokenAddress");
  recipientAddress ← lift (get_prop args "recipientAddress");
  encodedPolicy ← lift (ERC20TransferPolicy_encode
                          (erc20_policy amount tokenAddress recipientAddress));
  pkpEthAddress ← lift (get_prop args "pkpEthAddress");
  chainId ← lift (get_prop args "chainId");
  rpcUrl ← lift (get_prop args "rpcUrl");
  call W client_executeJs
    [JObj [("sessionSigs", sessionSigs);
           ("ipfsId", ipfsCid);
           ("jsParams",
            JObj [("params",
                   JObj [("pkpEthAddress", pkpEthAddress);
                         ("tokenIn", tokenAddress);
                         ("recipientAddress", recipientAddress);
                         ("amountIn", amount);
                         ("chainId", chainId);
                         ("rpcUrl", rpcUrl);
                         ("encodedPolicy", JStr encodedPolicy)])])]].

Definition ecdsa_execute (sessionSigs network args : jsval) : M jsval :=
  ipfsCid ← lift (ipfs_cid network "ecdsaSign");
  message ← lift (get_prop args "message");
  encodedPolicy ← lift (SignEcdsaPolicy_encode (ecdsa_policy message));
  pkpEthAddress ← lift (get_prop args "pkpEthAddress");
  call W client_executeJs
    [JObj [("sessionSigs", sessionSigs);
           ("ipfsId", ipfsCid);
           ("jsParams",
            JObj [("params",
                   JObj [("pkpEthAddress", pkpEthAddress);
                         ("message", message);
                         ("encodedPolicy", JStr encodedPolicy)])])]].

Definition uniswap_execute (sessionSigs network args : jsval) : M jsval :=
  ipfsCid ← lift (ipfs_cid network "uniswapSwap");
  amountIn ← lift (get_prop args "amountIn");
  tokenIn ← lift (get_prop args "tokenIn");
  tokenOut ← lift (get_prop args "tokenOut");
  encodedPolicy ← lift (UniswapSwapPolicy_encode (uniswap_policy amountIn tokenIn tokenOut));
  pkpEthAddress ← lift (get_prop args "pkpEthAddress");
  chainId ← lift (get_prop args "chainId");
  rpcUrl ← lift (get_prop args "rpcUrl");
  call W client_executeJs
    [JObj [("sessionSigs", sessionSigs);
           ("ipfsId", ipfsCid);
           ("jsParams",
            JObj [("params",
                   JObj [("pkpEthAddress", pkpEthAddress);
                         ("tokenIn", tokenIn);
                         ("tokenOut", tokenOut);
                         ("amountIn", amountIn);
                         ("chainId", chainId);
                         ("rpcUrl", rpcUrl);
                         ("encodedPolicy", JStr encodedPolicy)])])]].
End Shared.

(** ** lit-action-provider.ts: the function-style provider *)

Module TS.
Section Provider.
Context `{Host} (W : World).

Definition getLitClient (config : jsval) : M LitNodeClient :=
  current ← get_litNodeClient;
  match current with
  | Some client => mret client
  | None =>
      litNetwork ← lift (get_prop config "litNetwork");
      debug ← lift (get_prop config "debug");
      client ← new_LitNodeClient W
                 (JObj [("litNetwork", js_or litNetwork (JStr "datil-dev"));
                        ("debug", js_or debug (JBool false))]);
      _ ← set_litNodeClient client;
      _ ← call W client_connect [];
      mret client
  end.

Definition authNeededCallback (walletAddress request : jsval) : M jsval :=
  toSign ← siwe_message W walletAddress request;
  signature ← sign_with_walletClient W toSign;
  mret (auth_sig signature toSign walletAddress).

Definition getSessionSigs (config : jsval) : M jsval :=
  _ ← getLitClient config;
  walletAddress ← call W wallet_getAddress [];
  _ ← call W wallet_getNetwork [];
  t ← now W;
  getSessionSigs_with W (session_params (Date_toISOString (t + 1000 * 60 * 10)))
                      (authNeededCallback walletAddress).

(** [{ litNetwork: "datil-dev", debug: false, ...config }], with
    [config = {}] when the argument is [undefined]. *)
Definition finalConfig (config : jsval) : jsval :=
  let config := match config with JUndefined => JObj [] | _ => config end in
  JObj (spread [("litNetwork", JStr "datil-dev"); ("debug", JBool false)] config).

(** The [try] block of [lit-hello]. *)
Definition lit_hello_try (config input : jsval) : M jsval :=
  _ ← getLitClient (finalConfig config);
  sessionSigs ← getSessionSigs (finalConfig config);
  magicNumber ← lift (get_prop input "magicNumber");
  res ← call W client_executeJs
          [JObj [("sessionSigs", sessionSigs);
                 ("code", JStr HELLO_LIT_CODE);
                 ("jsParams",
                  JObj [("magicNumber", js_or magicNumber (JNum 42))])]];
  result ← lift (stringify_response res);
  mret (success_envelope result).

Definition lit_hello (config input : jsval) : M jsval :=
  try_catch (lit_hello_try config input)
    (fun error =>
       mret (failure_envelope ("Lit Protocol hello failed: " +:+ error_message error))).

(** The [try] block of [lit-encrypt-env]. *)
Definition lit_encrypt_env_try (config input : jsval) : M jsval :=
  envFilePath ← lift (get_prop input "envFilePath");
  envContent ← readFile W (js_or envFilePath (JStr ".env"));
  if negb (truthy envContent) then
    mret (failure_envelope
            ("File " +:+ js_toString (js_or envFilePath (JStr ".env"))
                     +:+ " is empty or missing"))
  else
    _ ← getLitClient (finalConfig config);
    walletAddress ← call W wallet_getAddress [];
    inputWallet ← lift (get_prop input "walletAddress");
    let authorizedWallet := js_or inputWallet walletAddress in
    lowered ← lift (toLowerCase authorizedWallet);
    let conditions := access_control_conditions lowered in
    encrypted ← call W lit_encryptString
                  [JObj [("accessControlConditions", conditions);
                         ("dataToEncrypt", envContent)]];
    ciphertext ← lift (get_prop encrypted "ciphertext");
    dataToEncryptHash ← lift (get_prop encrypted "dataToEncryptHash");
    t ← now W;
    network ← lift (get_prop (finalConfig config) "litNetwork");
    let encryptedData :=
      encrypted_data (Date_toISOString t) walletAddress conditions
                     ciphertext dataToEncryptHash network in
    outputPath ← lift (get_prop input "outputPath");
    _ ← writeFile W (js_or outputPath (JStr ".env.encrypted"))
          (opt_str (JSON_stringify_2 encryptedData));
    mret (success_envelope
            (Some ("Encrypted " +:+ js_toString (js_or envFilePath (JStr ".env"))
                     +:+ " to " +:+ js_toString (js_or outputPath (JStr ".env.encrypted"))
                     +:+ ". Access control set for " +:+ js_toString authorizedWallet))).

Definition lit_encrypt_env (config input : jsval) : M jsval :=
  try_catch (lit_encrypt_env_try config input)
    (fun error =>
       mret (failure_envelope ("Encryption failed: " +:+ error_message error))).

(** The [try] block of [lit-decrypt-env]. *)
Definition lit_decrypt_env_try (config input : jsval) : M jsval :=
  encryptedFilePath ← lift (get_prop input "encryptedFilePath");
  encryptedContent ← readFile W (js_or encryptedFilePath (JStr ".env.encrypted"));
  encryptedData ← lift (match encryptedContent with
                        | JStr s => JSON_parse s
                        | _ => Throws (JsError "Unexpected token")
                        end);
  _ ← getLitClient (finalConfig config);
  sessionSigs ← getSessionSigs (finalConfig config);
  conditions ← lift (get_prop encryptedData "accessControlConditions");
  ciphertext ← lift (get_prop encryptedData "ciphertext");
  dataToEncryptHash ← lift (get_prop encryptedData "dataToEncryptHash");
  decryptedString ← call W lit_decryptToString
                      [JObj [("accessControlConditions", conditions);
                             ("ciphertext", ciphertext);
                             ("dataToEncryptHash", dataToEncryptHash);
                             ("sessionSigs", sessionSigs);
                             ("chain", JStr "ethereum")]];
  outputPath ← lift (get_prop input "outputPath");
  _ ← writeFile W (js_or outputPath (JStr ".env")) decryptedString;
  mret (success_envelope
          (Some ("Decrypted "
                   +:+ js_toString (js_or encryptedFilePath (JStr ".env.encrypted"))
                   +:+ " to " +:+ js_toString (js_or outputPath (JStr ".env"))))).

Definition lit_decrypt_env (config input : jsval) : M jsval :=
  try_catch (lit_decrypt_env_try config input)
    (fun error =>
       mret (failure_envelope
               ("Decryption failed: " +:+ error_message error +:+ ". "
                  +:+ "Make sure you have permission to decrypt this file."))).

(** [finalConfig.litNetwork || "datil-dev"] *)
Definition network_of (config : jsval) : completion jsval :=
  litNetwork ← get_prop (finalConfig config) "litNetwork";
  Returns (js_or litNetwork (JStr "datil-dev")).

(** The [try] block of [lit-erc20-transfer]. *)
Definition lit_erc20_transfer_try (config input : jsval) : M jsval :=
  _ ← getLitClient (finalConfig config);
  sessionSigs ← getSessionSigs (finalConfig config);
  network ← lift (network_of config);
  res ← erc20_execute W sessionSigs network input;
  result ← lift (stringify_response res);
  mret (success_envelope result).

Definition lit_erc20_transfer (config input : jsval) : M jsval :=
  try_catch (lit_erc20_transfer_try config input)
    (fun error =>
       mret (failure_envelope ("ERC20 transfer failed: " +:+ error_message error))).

(** The [try] block of [lit-ecdsa-sign]. *)
Definition lit_ecdsa_sign_try (config input : jsval) : M jsval :=
  _ ← getLitClient (finalConfig config);
  sessionSigs ← getSessionSigs (finalConfig config);
  network ← lift (network_of config);
  res ← ecdsa_execute W sessionSigs network input;
  result ← lift (stringify_response res);
  mret (success_envelope result).

Definition lit_ecdsa_sign (config input : jsval) : M jsval :=
  try_catch (lit_ecdsa_sign_try config input)
    (fun error =>
       mret (failure_envelope ("ECDSA sign failed: " +:+ error_message error))).

(** The [try] block of [lit-uniswap-swap]. *)
Definition lit_uniswap_swap_try (config input : jsval) : M jsval :=
  _ ← getLitClient (finalConfig config);
  sessionSigs ← getSessionSigs (finalConfig config);
  network ← lift (network_of config);
  res ← uniswap_execute W sessionSigs network input;
  result ← lift (stringify_response res);
  mret (success_envelope result).

Definition lit_uniswap_swap (config input : jsval) : M jsval :=
  try_catch (lit_uniswap_swap_try config input)
    (fun error =>
       mret (failure_envelope ("Uniswap swap failed: " +:+ error_message error))).

(** The [actions] of the provider, by [id]. *)
Definition litActionProvider (config : jsval) : list (string * (jsval -> M jsval)) :=
  [("lit-hello", lit_hello config);
   ("lit-encrypt-env", lit_encrypt_env config);
   ("lit-decrypt-env", lit_decrypt_env config);
   ("lit-erc20-transfer", lit_erc20_transfer config);
   ("lit-ecdsa-sign", lit_ecdsa_sign config);
   ("lit-uniswap-swap", lit_uniswap_swap config)].
End Provider.
End TS.

(** ** The JavaScript twin of the function-style provider

    It wraps the client initialization in its own [try]/[catch], signs with
    [walletProvider.signMessage] when there is one, and parses the input
    again inside the handlers. *)

Module JS.
Section Provider.
Context `{Host} (W : World).

Definition getLitClient (config : jsval) : M LitNodeClient :=
  current ← get_litNodeClient;
  match current with
  | Some client => mret client
  | None =>
      try_catch
        (litNetwork ← lift (get_prop config "litNetwork");
         debug ← lift (get_prop config "debug");
         client ← new_LitNodeClient W
                    (JObj [("litNetwork", js_or litNetwork (JStr "datil-dev"));
                           ("debug", js_or debug (JBool false))]);
         _ ← set_litNodeClient client;
         _ ← call W client_connect [];
         mret client)
        (fun error =>
           _ ← call W console_error
                 [JStr "Failed to initialize Lit Node Client:"; thrown_value error];
           message ← lift (error_message_unchecked error);
           throw (JsError ("Lit Protocol connection failed: " +:+ message)))
  end.

Definition authNeededCallback (walletAddress request : jsval) : M jsval :=
  toSign ← siwe_message W walletAddress request;
  signature ← (if wallet_has_signMessage W then call W wallet_signMessage [toSign]
               else sign_with_walletClient W toSign);
  mret (auth_sig signature toSign walletAddress).

Definition getSessionSigs (config : jsval) : M jsval :=
  _ ← getLitClient config;
  walletAddress ← call W wallet_getAddress [];
  t ← now W;
  getSessionSigs_with W (session_params (Date_toISOString (t + 1000 * 60 * 10)))
                      (authNeededCallback walletAddress).

(** [{ litNetwork: "datil-dev", debug: false, ...config }], with
    [config = {}] when the argument is [undefined]. *)
Definition finalConfig (config : jsval) : jsval :=
  let config := match config with JUndefined => JObj [] | _ => config end in
  JObj (spread [("litNetwork", JStr "datil-dev"); ("debug", JBool false)] config).

(** The [try] block of [lit-hello]. *)
Definition lit_hello_try (config input : jsval) : M jsval :=
  _ ← getLitClient (finalConfig config);
  sessionSigs ← getSessionSigs (finalConfig config);
  magicNumber ← lift (get_prop input "magicNumber");
  res ← call W client_executeJs
          [JObj [("sessionSigs", sessionSigs);
                 ("code", JStr HELLO_LIT_CODE);
                 ("jsParams",
                  JObj [("magicNumber", js_or magicNumber (JNum 42))])]];
  result ← lift (stringify_response res);
  mret (success_envelope result).

Definition lit_hello (config input : jsval) : M jsval :=
  try_catch (lit_hello_try config input)
    (fun error =>
       mret (failure_envelope ("Lit Protocol hello failed: " +:+ error_message error))).

(** The [try] block of [lit-encrypt-env]. *)
Definition lit_encrypt_env_try (config input : jsval) : M jsval :=
  parsed ← lift (parse EncryptEnvSchema (js_or input (JObj [])));
  envFilePath ← lift (get_prop parsed "envFilePath");
  envContent ← readFile W envFilePath;
  if negb (truthy envContent) then
    mret (failure_envelope
            ("File " +:+ js_toString envFilePath +:+ " is empty or missing"))
  else
    _ ← getLitClient (finalConfig config);
    walletAddress ← call W wallet_getAddress [];
    inputWallet ← lift (get_prop parsed "walletAddress");
    let authorizedWallet := js_or inputWallet walletAddress in
    lowered ← lift (toLowerCase authorizedWallet);
    let conditions := access_control_conditions lowered in
    encrypted ← call W lit_encryptString
                  [JObj [("accessControlConditions", conditions);
                         ("dataToEncrypt", envContent)]];
    ciphertext ← lift (get_prop encrypted "ciphertext");
    dataToEncryptHash ← lift (get_prop encrypted "dataToEncryptHash");
    t ← now W;
    network ← lift (get_prop (finalConfig config) "litNetwork");
    let encryptedData :=
      encrypted_data (Date_toISOString t) walletAddress conditions
                     ciphertext dataToEncryptHash network in
    outputPath ← lift (get_prop parsed "outputPath");
    _ ← writeFile W outputPath (opt_str (JSON_stringify_2 encryptedData));
    mret (success_envelope
            (Some ("Encrypted " +:+ js_toString envFilePath
                     +:+ " to " +:+ js_toString outputPath
                     +:+ ". Access control set for " +:+ js_toString authorizedWallet))).

Definition lit_encrypt_env (config input : jsval) : M jsval :=
  try_catch (lit_encrypt_env_try config input)
    (fun error =>
       mret (failure_envelope ("Encryption failed: " +:+ error_message error))).

(** The [try] block of [lit-decrypt-env]. *)
Definition lit_decrypt_env_try (config input : jsval) : M jsval :=
  parsed ← lift (parse DecryptEnvSchema (js_or input (JObj [])));
  encryptedFilePath ← lift (get_prop parsed "encryptedFilePath");
  encryptedContent ← readFile W encryptedFilePath;
  encryptedData ← lift (match encryptedContent with
                        | JStr s => JSON_parse s
                        | _ => Throws (JsError "Unexpected token")
                        end);
  _ ← getLitClient (finalConfig config);
  sessionSigs ← getSessionSigs (finalConfig config);
  conditions ← lift (get_prop encryptedData "accessControlConditions");
  ciphertext ← lift (get_prop encryptedData "ciphertext");
  dataToEncryptHash ← lift (get_prop encryptedData "dataToEncryptHash");
  decryptedString ← call W lit_decryptToString
                      [JObj [("accessControlConditions", conditions);
                             ("ciphertext", ciphertext);
                             ("dataToEncryptHash", dataToEncryptHash);
                             ("sessionSigs", sessionSigs);
                             ("chain", JStr "ethereum")]];
  outputPath ← lift (get_prop parsed "outputPath");
  _ ← writeFile W outputPath decryptedString;
  mret (success_envelope
          (Some ("Decrypted " +:+ js_toString encryptedFilePath
                   +:+ " to " +:+ js_toString outputPath))).

Definition lit_decrypt_env (config input : jsval) : M jsval :=
  try_catch (lit_decrypt_env_try config input)
    (fun error =>
       mret (failure_envelope
               ("Decryption failed: " +:+ error_message error +:+ ". "
                  +:+ "Make sure you have permission to decrypt this file."))).

(** [finalConfig.litNetwork || "datil-dev"] *)
Definition network_of (config : jsval) : completion jsval :=
  litNetwork ← get_prop (finalConfig config) "litNetwork";
  Returns (js_or litNetwork (JStr "datil-dev")).

(** The [try] block of [lit-erc20-transfer]. *)
Definition lit_erc20_transfer_try (config input : jsval) : M jsval :=
  parsed ← lift (parse LitErc20TransferSchema input);
  _ ← getLitClient (finalConfig config);
  sessionSigs ← getSessionSigs (finalConfig config);
  network ← lift (network_of config);
  res ← erc20_execute W sessionSigs network parsed;
  result ← lift (stringify_response res);
  mret (success_envelope result).

Definition lit_erc20_transfer (config input : jsval) : M jsval :=
  try_catch (lit_erc20_transfer_try config input)
    (fun error =>
       mret (failure_envelope ("ERC20 transfer failed: " +:+ error_message error))).

(** The [try] block of [lit-ecdsa-sign]. *)
Definition lit_ecdsa_sign_try (config input : jsval) : M jsval :=
  parsed ← lift (parse LitEcdsaSignSchema input);
  _ ← getLitClient (finalConfig config);
  sessionSigs ← getSessionSigs (finalConfig config);
  network ← lift (network_of config);
  res ← ecdsa_execute W sessionSigs network parsed;
  result ← lift (stringify_response res);
  mret (success_envelope result).

Definition lit_ecdsa_sign (config input : jsval) : M jsval :=
  try_catch (lit_ecdsa_sign_try config input)
    (fun error =>
       mret (failure_envelope ("ECDSA sign failed: " +:+ error_message error))).

(** The [try] block of [lit-uniswap-swap]. *)
Definition lit_uniswap_swap_try (config input : jsval) : M jsval :=
  parsed ← lift (parse LitUniswapSwapSchema input);
  _ ← getLitClient (finalConfig config);
  sessionSigs ← getSessionSigs (finalConfig config);
  network ← lift (network_of config);
  res ← uniswap_execute W sessionSigs network parsed;
  result ← lift (stringify_response res);
  mret (success_envelope result).

Definition lit_uniswap_swap (config input : jsval) : M jsval :=
  try_catch (lit_uniswap_swap_try config input)
    (fun error =>
       mret (failure_envelope ("Uniswap swap failed: " +:+ error_message error))).

(** The [actions] of the provider, by [id]. *)
Definition litActionProvider (config : jsval) : list (string * (jsval -> M jsval)) :=
  [("lit-hello", lit_hello config);
   ("lit-encrypt-env", lit_encrypt_env config);
   ("lit-decrypt-env", lit_decrypt_env config);
   ("lit-erc20-transfer", lit_erc20_transfer config);
   ("lit-ecdsa-sign", lit_ecdsa_sign config);
   ("lit-uniswap-swap", lit_uniswap_swap config)].
End Provider.
End JS.

(** ** lit/litActionProvider.ts: the class-based provider

    [litNodeClient] is the field of the one instance; [config] is the
    argument of the constructor.  The actions return a string and have no
    [try]/[catch]. *)

Module Cls.
Section Provider.
Context `{Host} (W : World).

(** [this.config] *)
Definition this_config (config : jsval) : jsval :=
  let config := match config with JUndefined => JObj [] | _ => config end in
  JObj (spread [("litNetwork", JStr "datil-dev"); ("debug", JBool false)] config).

Definition getLitClient (config : jsval) : M LitNodeClient :=
  current ← get_litNodeClient;
  match current with
  | Some client => mret client
  | None =>
      litNetwork ← lift (get_prop (this_config config) "litNetwork");
      debug ← lift (get_prop (this_config config) "debug");
      client ← new_LitNodeClient W
                 (JObj [("litNetwork", js_or litNetwork (JStr "datil-dev"));
                        ("debug", js_or debug (JBool false))]);
      _ ← set_litNodeClient client;
      _ ← call W client_connect [];
      mret client
  end.

Definition authNeededCallback (walletAddress request : jsval) : M jsval :=
  toSign ← siwe_message W walletAddress request;
  signature ← call W wallet_signMessage [toSign];
  mret (auth_sig signature toSign walletAddress).

Definition getSessionSigs (config : jsval) : M jsval :=
  _ ← getLitClient config;
  walletAddress ← call W wallet_getAddress [];
  network ← call W wallet_getNetwork [];
  _ ← lift (get_prop network "chainId");
  t ← now W;
  getSessionSigs_with W (session_params (Date_toISOString (t + 1000 * 60 * 10)))
                      (authNeededCallback walletAddress).

Definition network_of (config : jsval) : completion jsval :=
  litNetwork ← get_prop (this_config config) "litNetwork";
  Returns (js_or litNetwork (JStr "datil-dev")).

Definition hello (config args : jsval) : M jsval :=
  _ ← getLitClient config;
  sessionSigs ← getSessionSigs config;
  magicNumber ← lift (get_prop args "magicNumber");
  res ← call W client_executeJs
          [JObj [("sessionSigs", sessionSigs);
                 ("code", JStr HELLO_LIT_CODE);
                 ("jsParams",
                  JObj [("magicNumber", js_or magicNumber (JNum 42))])]];
  result ← lift (stringify_response res);
  mret (opt_str result).

Definition encryptEnv (config args : jsval) : M jsval :=
  envFilePath ← lift (get_prop args "envFilePath");
  envContent ← readFile W envFilePath;
  if negb (truthy envContent) then
    throw (JsError ("File " +:+ js_toString envFilePath +:+ " is empty or missing"))
  else
    _ ← getLitClient config;
    walletAddress ← call W wallet_getAddress [];
    inputWallet ← lift (get_prop args "walletAddress");
    let authorizedWallet := js_or inputWallet walletAddress in
    lowered ← lift (toLowerCase authorizedWallet);
    let conditions := access_control_conditions lowered in
    encrypted ← call W lit_encryptString
                  [JObj [("accessControlConditions", conditions);
                         ("dataToEncrypt", envContent)]];
    ciphertext ← lift (get_prop encrypted "ciphertext");
    dataToEncryptHash ← lift (get_prop encrypted "dataToEncryptHash");
    t ← now W;
    network ← lift (get_prop (this_config config) "litNetwork");
    let encryptedData :=
      encrypted_data (Date_toISOString t) walletAddress conditions
                     ciphertext dataToEncryptHash network in
    outputPath ← lift (get_prop args "outputPath");
    _ ← writeFile W outputPath (opt_str (JSON_stringify_2 encryptedData));
    mret (JStr ("Encrypted " +:+ js_toString envFilePath
                  +:+ " to " +:+ js_toString outputPath
                  +:+ ". Access control set for " +:+ js_toString authorizedWallet)).

Definition decryptEnv (config args : jsval) : M jsval :=
  encryptedFilePath ← lift (get_prop args "encryptedFilePath");
  encryptedContent ← readFile W encryptedFilePath;
  encryptedData ← lift (match encryptedContent with
                        | JStr s => JSON_parse s
                        | _ => Throws (JsError "Unexpected token")
                        end);
  _ ← getLitClient config;
  sessionSigs ← getSessionSigs config;
  conditions ← lift (get_prop encryptedData "accessControlConditions");
  ciphertext ← lift (get_prop encryptedData "ciphertext");
  dataToEncryptHash ← lift (get_prop encryptedData "dataToEncryptHash");
  decryptedString ← call W lit_decryptToString
                      [JObj [("accessControlConditions", conditions);
                             ("ciphertext", ciphertext);
                             ("dataToEncryptHash", dataToEncryptHash);
                             ("sessionSigs", sessionSigs);
                             ("chain", JStr "ethereum")]];
  outputPath ← lift (get_prop args "outputPath");
  _ ← writeFile W outputPath decryptedString;
  mret (JStr ("Decrypted " +:+ js_toString encryptedFilePath
                +:+ " to " +:+ js_toString outputPath)).

Definition erc20Transfer (config args : jsval) : M jsval :=
  _ ← getLitClient config;
  sessionSigs ← getSessionSigs config;
  network ← lift (network_of config);
  res ← erc20_execute W sessionSigs network args;
  result ← lift (stringify_response res);
  mret (opt_str result).

Definition ecdsaSign (config args : jsval) : M jsval :=
  _ ← getLitClient config;
  sessionSigs ← getSessionSigs config;
  network ← lift (network_of config);
  res ← ecdsa_execute W sessionSigs network args;
  result ← lift (stringify_response res);
  mret (opt_str result).

Definition uniswapSwap (config args : jsval) : M jsval :=
  _ ← getLitClient config;
  sessionSigs ← getSessionSigs config;
  network ← lift (network_of config);
  res ← uniswap_execute W sessionSigs network args;
  result ← lift (stringify_response res);
  mret (opt_str result).
End Provider.
End Cls.

(** ** Vocabulary of the properties *)

#[global] Instance Api_eq_dec : EqDecision Api.
Proof. solve_decision. Defined.

(** The calls to one entry point among some calls. *)
Definition calls_to (a : Api) (cs : list Call) : list Call :=
  List.filter (fun c => bool_decide (api c = a)) cs.

(** The uniform envelope: [{ success: true, result: <string> }] or
    [{ success: false, error: <string> }], and nothing else. *)
Definition is_success_envelope (v : jsval) : Prop :=
  exists result, v = JObj [("success", JBool true); ("result", JStr result)].

Definition is_failure_envelope (v : jsval) : Prop :=
  exists error, v = JObj [("success", JBool false); ("error", JStr error)].

Definition is_envelope (v : jsval) : Prop :=
  is_success_envelope v \/ is_failure_envelope v.

(** No call among [new], made after [history], was answered by an
    exception. *)
Definition no_fault (W : World) (history new : list Call) : Prop :=
  forall pre c post, new = (pre ++ c :: post)%list ->
    exists v, sdk W (history ++ pre)%list c = Returns v.

(** A computation never completes with an exception. *)
Definition never_throws {A} (m : M A) : Prop :=
  forall st, exists a st', m st = (Returns a, st').

(** Whenever a computation returns, its value satisfies [Q]. *)
Definition returns_only {A} (Q : A -> Prop) (m : M A) : Prop :=
  forall st a st', m st = (Returns a, st') -> Q a.

(** A computation only appends to the log, and only calls satisfying [P]. *)
Definition calls_only {A} (P : Call -> Prop) (m : M A) : Prop :=
  forall st, exists new, log (m st).2 = (log st ++ new)%list /\ Forall P new.

(** Whenever a computation returns, none of the calls it made was answered
    by an exception. *)
Definition faults_surface (W : World) {A} (m : M A) : Prop :=
  forall st a st', m st = (Returns a, st') ->
    exists new, log st' = (log st ++ new)%list /\ no_fault W (log st) new.

(** With the client [c] stored, a computation keeps it stored and neither
    constructs a client nor connects. *)
Definition reuses_client {A} (c : LitNodeClient) (m : M A) : Prop :=
  forall st, litNodeClient st = Some c ->
    litNodeClient (m st).2 = Some c
    /\ exists new, log (m st).2 = (log st ++ new)%list
                   /\ Forall (fun call => api call <> LitNodeClient_new
                                          /\ api call <> client_connect) new.

(** The strings of the schemas, without regular expressions. *)
Definition is_eth_address (s : string) : Prop :=
  exists body, chars s = "0"%char :: "x"%char :: body
               /\ length body = 40%nat /\ Forall (fun c => is_hex c = true) body.

Definition all_digits (l : list ascii) : Prop := Forall (fun c => is_digit c = true) l.

Definition is_decimal_number (s : string) : Prop :=
  exists whole fraction,
    all_digits whole /\ all_digits fraction /\ fraction <> [] /\
    (chars s = (whole ++ fraction)%list \/ chars s = (whole ++ "."%char :: fraction)%list).

Definition is_chain_id (s : string) : Prop :=
  chars s <> [] /\ all_digits (chars s).

(** The number a run of decimal digits denotes. *)
Definition decimal_value (ds : list ascii) : Z :=
  fold_left (fun acc c => 10 * acc + (code c - 48)) ds 0.

(** The number the forty hex digits of an address denote. *)
Definition hex_digit_value (c : ascii) : Z :=
  if between 48 57 c then code c - 48
  else if between 97 102 c then code c - 87
  else code c - 55.

Definition address_value (s : string) : Z :=
  fold_left (fun acc c => 16 * acc + hex_digit_value c) (drop 2 (chars s)) 0.



(** The words of the ABI encoding of an ERC20 transfer policy. *)
Definition erc20_policy_words (decimals amount : Z) (tokens recipients : list Z) : list Z :=
  ([32; decimals; amount; 128; 128 + 32 * (1 + Z.of_nat (length tokens));
    Z.of_nat (length tokens)]
     ++ tokens ++ [Z.of_nat (length recipients)] ++ recipients)%list.

(** The configuration object a client is constructed with. *)
Definition client_config_of (config : jsval) : jsval :=
  match config with
  | JObj fields =>
      JObj [("litNetwork", js_or (default JUndefined (assoc "litNetwork" fields))
                                 (JStr "datil-dev"));
            ("debug", js_or (default JUndefined (assoc "debug" fields)) (JBool false))]
  | _ => JObj [("litNetwork", JStr "datil-dev"); ("debug", JBool false)]
  end.

(** A world in which every call succeeds with [undefined], and one in which
    connecting fails. *)
Definition quiet_world : World := {|
  sdk _ _ := Returns JUndefined;
  wallet_has_signMessage := true;
  clock _ := 0;
|}.

Definition offline_world : World := {|
  sdk _ c := match api c with
             | client_connect => Throws (JsError "network down")
             | _ => Returns JUndefined
             end;
  wallet_has_signMessage := true;
  clock _ := 0;
|}.

(** A world in which the Lit Action answers with a [response]. *)
Definition answering_world : World := {|
  sdk _ c := match api c with
             | client_executeJs => Returns (JObj [("response", JStr "ok")])
             | wallet_getAddress => Returns (JStr "0xABCDEF0123456789abcdef0123456789abcdef01")
             | lit_encryptString =>
                 Returns (JObj [("ciphertext", JStr "c"); ("dataToEncryptHash", JStr "h")])
             | _ => Returns (JObj [])
             end;
  wallet_has_signMessage := true;
  clock _ := 0;
|}.

(** The first client of a fresh state, as [getLitClient] builds it from a
    configuration object. *)
Definition first_client (config : jsval) : LitNodeClient :=
  {| client_serial := 0; client_config := client_config_of config |}.

(** The handlers of the two function-style providers, each with its [try]
    block. *)
Definition function_style_handlers `{Host} (W : World) (config : jsval)
    : list ((jsval -> M jsval) * (jsval -> M jsval)) :=
  [(TS.lit_hello_try W config, TS.lit_hello W config);
   (TS.lit_encrypt_env_try W config, TS.lit_encrypt_env W config);
   (TS.lit_decrypt_env_try W config, TS.lit_decrypt_env W config);
   (TS.lit_erc20_transfer_try W config, TS.lit_erc20_transfer W config);
   (TS.lit_ecdsa_sign_try W config, TS.lit_ecdsa_sign W config);
   (TS.lit_uniswap_swap_try W config, TS.lit_uniswap_swap W config);
   (JS.lit_hello_try W config, JS.lit_hello W config);
   (JS.lit_encrypt_env_try W config, JS.lit_encrypt_env W config);
   (JS.lit_decrypt_env_try W config, JS.lit_decrypt_env W config);
   (JS.lit_erc20_transfer_try W config, JS.lit_erc20_transfer W config);
   (JS.lit_ecdsa_sign_try W config, JS.lit_ecdsa_sign W config);
   (JS.lit_uniswap_swap_try W config, JS.lit_uniswap_swap W config)].

(** The actions of the class-based provider. *)
Definition class_actions `{Host} (W : World) (config : jsval) : list (jsval -> M jsval) :=
  [Cls.hello W config; Cls.encryptEnv W config; Cls.decryptEnv W config;
   Cls.erc20Transfer W config; Cls.ecdsaSign W config; Cls.uniswapSwap W config].

(** The loop of [abi_encode_value] over the components of a tuple. *)
Fixpoint encode_components `{Host} (cs : list (string * abi_type)) (xs : list jsval)
    : completion (list (bool * list Z)) :=
  match cs, xs with
  | (_, t) :: cs', x :: xs' =>
      ws ← abi_encode_value t x;
      rest ← encode_components cs' xs';
      Returns ((dynamic t, ws) :: rest)
  | _, _ => Returns []
  end.



(** [fields[k]] *)
Definition lookup_field (fields : list (string * jsval)) (k : string) : jsval :=
  default JUndefined (assoc k fields).



(** A swap request that the schema accepts, with a decimal amount. *)
Definition decimal_swap_request : jsval :=
  JObj [("pkpEthAddress", JStr "0x3333333333333333333333333333333333333333");
        ("tokenIn", JStr "0x1111111111111111111111111111111111111111");
        ("tokenOut", JStr "0x2222222222222222222222222222222222222222");
        ("amountIn", JStr "1.5");
        ("chainId", JStr "8453");
        ("rpcUrl", JStr "https://mainnet.base.org")].

(** ** Vocabulary of the policy encodings and of the PKP requests *)

(** The words of the ABI encoding of a Uniswap swap policy. *)
Definition uniswap_policy_words (amount : Z) (tokens : list Z) : list Z :=
  ([32; amount; 64; Z.of_nat (length tokens)] ++ tokens)%list.

(** The words of a [string]: its length in bytes, and its bytes in words
    of 32, the last one padded with zero bytes. *)
Definition string_words (s : string) : list Z :=
  Z.of_nat (String.length s) :: words_of_bytes (String.length s) (chars s).

(** The offsets of the strings of a [string[]], the first one at
    [offset]. *)
Fixpoint string_offsets (offset : Z) (l : list string) : list Z :=
  match l with
  | [] => []
  | s :: l' =>
      offset :: string_offsets (offset + 32 * Z.of_nat (length (string_words s))) l'
  end.

(** The words of the ABI encoding of an ECDSA sign policy: the offset of
    the tuple, the offset of its array, the number of prefixes, the offset
    of each prefix and the prefixes. *)
Definition ecdsa_policy_words (prefixes : list string) : list Z :=
  ([32; 32; Z.of_nat (length prefixes)]
     ++ string_offsets (32 * Z.of_nat (length prefixes)) prefixes
     ++ concat (map string_words prefixes))%list.

(** A Uniswap swap policy as an object. *)
Definition uniswap_policy_object (amount : string) (tokens : list string) : jsval :=
  JObj [("type", JStr "UniswapSwap");
        ("version", JStr "1.0.0");
        ("maxAmount", JStr amount);
        ("allowedTokens", JArr (map JStr tokens))].

(** [c.args[0].jsParams.params[k]] of a [client.executeJs] call. *)
Definition call_param (c : Call) (k : string) : jsval :=
  match args c with
  | [JObj request] =>
      match assoc "jsParams" request with
      | Some (JObj jsParams) =>
          match assoc "params" jsParams with
          | Some (JObj params) => default JUndefined (assoc k params)
          | _ => JUndefined
          end
      | _ => JUndefined
      end
  | _ => JUndefined
  end.

(** A [client.executeJs] call whose parameters and encoded policy are built
    from the signing request [input] and from nothing else: the message is
    a string, and the only allowed prefix is that message. *)
Definition signs_exactly (input : jsval) (c : Call) : Prop :=
  exists sessionSigs ipfsCid pkpEthAddress m,
    get_prop input "message" = Returns (JStr m)
    /\ get_prop input "pkpEthAddress" = Returns pkpEthAddress
    /\ args c = [JObj [("sessionSigs", sessionSigs);
                       ("ipfsId", ipfsCid);
                       ("jsParams",
                        JObj [("params",
                               JObj [("pkpEthAddress", pkpEthAddress);
                                     ("message", JStr m);
                                     ("encodedPolicy",
                                      JStr (hexlify_words (ecdsa_policy_words [m])))])])]].


(** A [client.executeJs] call of a transfer whose token and recipient are
    well-formed addresses of the request and whose amount is a string of
    the request that [parseUnits] scales by eighteen decimals. *)
Definition transfers_checked (input : jsval) (c : Call) : Prop :=
  exists token recipient a units,
    get_prop input "tokenAddress" = Returns (JStr token)
    /\ get_prop input "recipientAddress" = Returns (JStr recipient)
    /\ get_prop input "amount" = Returns (JStr a)
    /\ is_eth_address token /\ is_eth_address recipient
    /\ parseUnits (JStr a) (Some 18) = Returns units
    /\ call_param c "tokenIn" = JStr token
    /\ call_param c "recipientAddress" = JStr recipient
    /\ call_param c "amountIn" = JStr a.

(** The three ERC20 transfer actions, the three signing actions and the
    three swap actions. *)
Definition transfer_actions `{Host} (W : World) (config : jsval) : list (jsval -> M jsval) :=
  [TS.lit_erc20_transfer W config; JS.lit_erc20_transfer W config;
   Cls.erc20Transfer W config].

Definition sign_actions `{Host} (W : World) (config : jsval) : list (jsval -> M jsval) :=
  [TS.lit_ecdsa_sign W config; JS.lit_ecdsa_sign W config; Cls.ecdsaSign W config].





(** ** Vocabulary of the optional fields *)

(** An optional string field: absent, [undefined], or a string. *)
Definition optional_string (supplied : option jsval) : Prop :=
  supplied = None \/ supplied = Some JUndefined \/ exists s, supplied = Some (JStr s).

(** An optional number field: absent, [undefined], or a number other than
    [NaN]. *)
Definition optional_number (supplied : option jsval) : Prop :=
  supplied = None \/ supplied = Some JUndefined
  \/ exists f, supplied = Some (JNum f) /\ PrimFloat.is_nan f = false.

(** What [z.string().optional().default(d)] returns for a field it
    accepts: the string supplied, whatever it is, and [d] otherwise. *)
Definition string_or_default (supplied : option jsval) (d : string) : jsval :=
  match supplied with
  | Some (JStr s) => JStr s
  | _ => JStr d
  end.

(** ** Vocabulary of the effects on the files *)

(** A computation changes no file whose path fails [P]. *)
Definition writes_only {A} (P : string -> Prop) (m : M A) : Prop :=
  forall st p, ~ P p -> files (m st).2 !! p = files st !! p.

(** The actions that have no business with the file system: [lit-hello]
    and the three PKP actions, in the three providers. *)
Definition file_free_actions `{Host} (W : World) (config : jsval) : list (jsval -> M jsval) :=
  [TS.lit_hello W config; TS.lit_erc20_transfer W config;
   TS.lit_ecdsa_sign W config; TS.lit_uniswap_swap W config;
   JS.lit_hello W config; JS.lit_erc20_transfer W config;
   JS.lit_ecdsa_sign W config; JS.lit_uniswap_swap W config;
   Cls.hello W config; Cls.erc20Transfer W config;
   Cls.ecdsaSign W config; Cls.uniswapSwap W config].

(** An input that the JavaScript handlers reject: not even an object. *)
Definition not_an_object : jsval := JStr "transfer everything".

(** ** Vocabulary of the runs *)

(** The weakest precondition of a computation: [Q] holds of the value and
    of the state when it returns from [st], [E] of the exception and of the
    state when it throws. *)
Definition wp {A} (m : M A) (Q : A -> State -> Prop) (E : thrown -> State -> Prop)
    (st : State) : Prop :=
  match m st with
  | (Returns a, st') => Q a st'
  | (Throws e, st') => E e st'
  end.


(** Among [new], a run of calls made after [history], there is the call
    [c], and it was answered with [v]. *)
Fixpoint answered (W : World) (history new : list Call) (c : Call) (v : jsval) : Prop :=
  match new with
  | [] => False
  | d :: rest =>
      (d = c /\ sdk W history d = Returns v)
      \/ answered W (history ++ [d])%list rest c v
  end.



(** The run from [st] to [st'] executed a Lit Action and [result] is the
    JSON of its answer: of [res.response], or of [res] when that is falsy. *)
Definition executed `{Host} (W : World) (st st' : State) (result : string) : Prop :=
  exists request res new,
    log st' = (log st ++ new)%list
    /\ answered W (log st) new {| api := client_executeJs; args := [request] |} res
    /\ stringify_response res = Returns (Some result).



(** The value a run returned ([undefined] when it threw). *)
Definition returned (r : completion jsval * State) : jsval :=
  match r.1 with
  | Returns v => v
  | Throws _ => JUndefined
  end.



(** Every action of every provider. *)
Definition all_actions `{Host} (W : World) (config : jsval) : list (jsval -> M jsval) :=
  (map snd (function_style_handlers W config) ++ class_actions W config)%list.

(** [console.error("Failed to initialize Lit Node Client:", error)] *)
Definition console_error_call (e : thrown) : Call :=
  {| api := console_error;
     args := [JStr "Failed to initialize Lit Node Client:"; thrown_value e] |}.

(** A world in which the constructor of the node client throws, and one
    whose node cannot be reached. *)
Definition broken_world : World := {|
  sdk _ c := match api c with
             | LitNodeClient_new => Throws (JsError "unknown network")
             | _ => Returns JUndefined
             end;
  wallet_has_signMessage := true;
  clock _ := 0;
|}.

(** ** example-custom-provider.ts

    The second action provider of the repository reads an ERC-20 balance
    through the wallet provider's public client (viem).  What the chain
    answers is a [bigint] or any other value; [formatEther] and the
    floating-point arithmetic of the display are the host's. *)

Module Example.

(** The answer of a contract read: viem decodes a [uint256] to a
    [bigint]. *)
Inductive answer :=
| ABig (n : Z)
| AVal (v : jsval).

Inductive ViemApi :=
| wallet_getPublicClient
| publicClient_readContract.

Record ViemCall := { viem_api : ViemApi; viem_args : list jsval }.

(** The outcome of a call, given the calls before it. *)
Definition ViemWorld : Type := list ViemCall -> ViemCall -> completion answer.

(** The pure functions of viem and of the host that the handler uses. *)
Class Viem := {
  (** [formatEther(balance)] *)
  formatEther : answer -> completion string;
  (** [(Number(formatted) / Math.pow(10, 18 - decimals)).toFixed(6)] *)
  adjust : string -> answer -> completion string;
}.

(** A computation over the log of calls. *)
Definition Run (A : Type) : Type := list ViemCall -> completion A * list ViemCall.

Definition ret {A} (a : A) : Run A := fun log => (Returns a, log).

Definition bind {A B} (m : Run A) (k : A -> Run B) : Run B := fun log =>
  match m log with
  | (Returns a, log') => k a log'
  | (Throws e, log') => (Throws e, log')
  end.

Definition pure {A} (c : completion A) : Run A := fun log => (c, log).

(** [try { body } catch (error) { handler }] *)
Definition attempt {A} (body : Run A) (handler : thrown -> Run A) : Run A := fun log =>
  match body log with
  | (Returns a, log') => (Returns a, log')
  | (Throws e, log') => handler e log'
  end.

Definition viem_call (W : ViemWorld) (a : ViemApi) (xs : list jsval) : Run answer :=
  fun log =>
    let c := {| viem_api := a; viem_args := xs |} in
    (W log c, (log ++ [c])%list).

(** [const { k } = input] *)
Definition destructure (input : jsval) (k : string) : completion jsval :=
  match input with
  | JUndefined =>
      Throws (JsError ("Cannot destructure property '" +:+ k
                         +:+ "' of 'input' as it is undefined."))
  | JNull =>
      Throws (JsError ("Cannot destructure property '" +:+ k
                         +:+ "' of 'input' as it is null."))
  | JObj fields => Returns (default JUndefined (assoc k fields))
  | _ => Returns JUndefined
  end.

(** [v.startsWith(prefix)], [name] being the expression [v] *)
Definition startsWith (name : string) (v : jsval) (prefix : string) : completion bool :=
  match v with
  | JStr s => Returns (String.prefix prefix s)
  | JUndefined =>
      Throws (JsError "Cannot read properties of undefined (reading 'startsWith')")
  | JNull => Throws (JsError "Cannot read properties of null (reading 'startsWith')")
  | _ => Throws (JsError (name +:+ ".startsWith is not a function"))
  end.

(** The number of UTF-16 code units of the string that the bytes encode in
    UTF-8, which is what [s.length] counts: one for every character, two
    for a character of four bytes; continuation bytes count for nothing. *)
Definition units_of_byte (c : ascii) : nat :=
  if between 128 191 c then 0%nat
  else if between 240 255 c then 2%nat
  else 1%nat.

Definition utf16_length (s : string) : nat :=
  fold_right (fun c n => (units_of_byte c + n)%nat) 0%nat (chars s).

(** [!v.startsWith("0x") || v.length !== 42] *)
Definition invalid_address (name : string) (v : jsval) : completion bool :=
  starts ← startsWith name v "0x";
  if negb starts then Returns true
  else
    match v with
    | JStr s => Returns (negb (utf16_length s =? 42)%nat)
    | _ => Returns true
    end.

Definition balanceOfAbi : jsval :=
  JArr [JObj [("constant", JBool true);
              ("inputs", JArr [JObj [("name", JStr "_owner"); ("type", JStr "address")]]);
              ("name", JStr "balanceOf");
              ("outputs", JArr [JObj [("name", JStr "balance"); ("type", JStr "uint256")]]);
              ("type", JStr "function")];
        JObj [("constant", JBool true);
              ("inputs", JArr []);
              ("name", JStr "decimals");
              ("outputs", JArr [JObj [("name", JStr EmptyString); ("type", JStr "uint8")]]);
              ("type", JStr "function")];
        JObj [("constant", JBool true);
              ("inputs", JArr []);
              ("name", JStr "symbol");
              ("outputs", JArr [JObj [("name", JStr EmptyString); ("type", JStr "string")]]);
              ("type", JStr "function")]].

(** The three reads of the handler. *)
Definition balanceOf_request (tokenAddress address : jsval) : jsval :=
  JObj [("address", tokenAddress); ("abi", balanceOfAbi);
        ("functionName", JStr "balanceOf"); ("args", JArr [address])].

Definition read_request (tokenAddress : jsval) (functionName : string) : jsval :=
  JObj [("address", tokenAddress); ("abi", balanceOfAbi);
        ("functionName", JStr functionName)].

Section Provider.
Context `{Host} `{Viem} (W : ViemWorld).

(** [`${a}`] *)
Definition answer_toString (a : answer) : string :=
  match a with
  | ABig n => BigInt_toString n
  | AVal v => js_toString v
  end.

(** [a.toString()] *)
Definition toString_method (a : answer) : completion string :=
  match a with
  | AVal JUndefined =>
      Throws (JsError "Cannot read properties of undefined (reading 'toString')")
  | AVal JNull => Throws (JsError "Cannot read properties of null (reading 'toString')")
  | _ => Returns (answer_toString a)
  end.

(** The [try] block of [get-token-balance]. *)
Definition get_token_balance_try (tokenAddress address : jsval) : Run jsval :=
  bind (pure (invalid_address "tokenAddress" tokenAddress)) (fun invalidToken =>
  if (invalidToken : bool) then
    ret (failure_envelope ("Invalid token address: " +:+ js_toString tokenAddress
                             +:+ ". Must be a valid Ethereum address."))
  else
  bind (pure (invalid_address "address" address)) (fun invalidAddress =>
  if (invalidAddress : bool) then
    ret (failure_envelope ("Invalid address: " +:+ js_toString address
                             +:+ ". Must be a valid Ethereum address."))
  else
  bind (viem_call W wallet_getPublicClient []) (fun _ =>
  bind (viem_call W publicClient_readContract [balanceOf_request tokenAddress address])
       (fun balance =>
  bind (attempt (viem_call W publicClient_readContract [read_request tokenAddress "decimals"])
                (fun _ => ret (AVal (JNum 18)))) (fun decimals =>
  bind (attempt (viem_call W publicClient_readContract [read_request tokenAddress "symbol"])
                (fun _ => ret (AVal (JStr "TOKEN")))) (fun symbol =>
  bind (pure (formatEther balance)) (fun formattedBalance =>
  bind (pure (adjust formattedBalance decimals)) (fun adjustedBalance =>
  bind (pure (toString_method balance)) (fun raw =>
  ret (success_envelope
         (Some ("Token Balance: " +:+ adjustedBalance +:+ " " +:+ answer_toString symbol
                  +:+ " (" +:+ raw +:+ " raw units) for address "
                  +:+ js_toString address)))))))))))).

Definition get_token_balance (input : jsval) : Run jsval :=
  bind (pure (destructure input "tokenAddress")) (fun tokenAddress =>
  bind (pure (destructure input "address")) (fun address =>
  attempt (get_token_balance_try tokenAddress address)
    (fun error =>
       ret (failure_envelope
              ("Failed to get token balance: " +:+ error_message error +:+ ". "
                 +:+ "Make sure the token address is valid and the contract supports "
                 +:+ "the ERC-20 standard."))))).

Definition get_eth_price_estimate (input : jsval) : Run jsval :=
  attempt
    (ret (success_envelope
            (Some ("Estimated ETH Price: " +:+ "~$3,000" +:+ " USD. "
                     +:+ "Note: This is a placeholder. In production, integrate with a "
                     +:+ "real price oracle like Chainlink, "
                     +:+ "CoinGecko API, or Coinbase API for accurate pricing."))))
    (fun error =>
       ret (failure_envelope ("Failed to get ETH price: " +:+ error_message error))).

(** The [actions] of the provider, by [id]. *)
Definition exampleCustomActionProvider : list (string * (jsval -> Run jsval)) :=
  [("get-token-balance", get_token_balance);
   ("get-eth-price-estimate", get_eth_price_estimate)].
End Provider.

(** The calls of a run. *)
Definition getPublicClient_call : ViemCall :=
  {| viem_api := wallet_getPublicClient; viem_args := [] |}.

Definition balanceOf_call (tokenAddress address : jsval) : ViemCall :=
  {| viem_api := publicClient_readContract;
     viem_args := [balanceOf_request tokenAddress address] |}.

Definition read_call (tokenAddress : jsval) (functionName : string) : ViemCall :=
  {| viem_api := publicClient_readContract;
     viem_args := [read_request tokenAddress functionName] |}.

(** The value of a read that may fail: the answer, or the default. *)
Definition answer_or (c : completion answer) (d : answer) : answer :=
  match c with
  | Returns a => a
  | Throws _ => d
  end.

(** What the address check asks of a string. *)
Definition passes_check (s : string) : Prop :=
  String.prefix "0x" s = true /\ utf16_length s = 42%nat.

(** A host, a chain and a token for the closed examples: the token has no
    [decimals()] and no [symbol()]. *)
Definition example_viem : Viem := {|
  formatEther a := match a with
                   | ABig n => Returns (BigInt_toString n)
                   | AVal _ => Throws (JsError "Cannot convert to BigInt")
                   end;
  adjust formatted _ := Returns formatted;
|}.

Definition bare_token_world : ViemWorld := fun _ c =>
  match viem_api c, viem_args c with
  | wallet_getPublicClient, _ => Returns (AVal (JObj []))
  | publicClient_readContract, [JObj fields] =>
      match assoc "functionName" fields with
      | Some (JStr "balanceOf") => Returns (ABig 7)
      | _ => Throws (JsError "execution reverted")
      end
  | _, _ => Throws (JsError "bad request")
  end.

Definition token_request : jsval :=
  JObj [("tokenAddress", JStr "0x1111111111111111111111111111111111111111");
        ("address", JStr "0x2222222222222222222222222222222222222222")].
End Example.
(** * Properties *)

(** ** Numerals, on examples *)

Example StringToBigInt_decimal : StringToBigInt "1500000000000000000" = Some 1500000000000000000.
Proof. reflexivity. Qed.

Example StringToBigInt_fraction : StringToBigInt "1.5" = None.
Proof. reflexivity. Qed.

Example StringToBigInt_hex : map StringToBigInt [" 0x1F "; "-12"; "+7"; "0b101"; "-0x10"; "1e3"; "12 3"] = [Some 31; Some (-12); Some 7; Some 5; None; None; None].
Proof. reflexivity. Qed.

Example BigInt_toString_ex : BigInt_toString 1500000000000000000 = "1500000000000000000".
Proof. vm_compute. reflexivity. Qed.

(** ** The computation monad *)

Lemma bind_run {A B} (m : M A) (k : A -> M B) (st : State) :
  (m ≫= k) st = match m st with
                | (Returns a, st') => k a st'
                | (Throws e, st') => (Throws e, st')
                end.
Proof. reflexivity. Qed.

Lemma bind_lift_returns {A B} (c : completion A) (a : A) (k : A -> M B) (st : State) :
  c = Returns a -> (lift c ≫= k) st = k a st.
Proof. intros ->. reflexivity. Qed.

Lemma bind_lift_throws {A B} (c : completion A) (e : thrown) (k : A -> M B) (st : State) :
  c = Throws e -> (lift c ≫= k) st = (Throws e, st).
Proof. intros ->. reflexivity. Qed.

Lemma try_catch_never_throws {A} (body : M A) (handler : thrown -> M A) :
  (forall e, never_throws (handler e)) -> never_throws (try_catch body handler).
Proof.
  intros Hh st. unfold try_catch.
  destruct (body st) as [[a|e] st']; [eauto | apply Hh].
Qed.

Lemma mret_never_throws {A} (a : A) : never_throws (mret a : M A).
Proof. intros st. exists a, st. reflexivity. Qed.

(** ** Rules for the judgements on computations *)

Section Rules.
Context `{Host} (W : World).

(** *** [returns_only] *)

Lemma returns_only_ret {A} (Q : A -> Prop) (a : A) :
  Q a -> returns_only Q (mret a : M A).
Proof. intros HQ st a' st' Heq. inversion Heq. subst. exact HQ. Qed.

Lemma returns_only_throw {A} (Q : A -> Prop) (e : thrown) :
  returns_only Q (throw e : M A).
Proof. intros st a st' Heq. inversion Heq. Qed.

Lemma returns_only_bind {A B} (Q : B -> Prop) (m : M A) (k : A -> M B) :
  (forall a, returns_only Q (k a)) -> returns_only Q (m ≫= k).
Proof.
  intros Hk st b st' Heq. rewrite bind_run in Heq.
  destruct (m st) as [[a|e] st1]; [eapply Hk; eauto | inversion Heq].
Qed.

Lemma returns_only_bind_lift {A B} (Q : B -> Prop) (c : completion A) (k : A -> M B) :
  (forall a, c = Returns a -> returns_only Q (k a)) -> returns_only Q (lift c ≫= k).
Proof.
  intros Hk st b st' Heq. rewrite bind_run in Heq. unfold lift in Heq.
  destruct c as [a|e]; [eapply Hk; eauto | inversion Heq].
Qed.

Lemma returns_only_try_catch {A} (Q : A -> Prop) (body : M A) (handler : thrown -> M A) :
  returns_only Q body -> (forall e, returns_only Q (handler e)) ->
  returns_only Q (try_catch body handler).
Proof.
  intros Hb Hh st a st' Heq. unfold try_catch in Heq.
  destruct (body st) as [[a0|e] st1] eqn:Hbody.
  - inversion Heq; subst. eapply Hb; eauto.
  - eapply Hh; eauto.
Qed.

(** *** [calls_only] *)

Lemma calls_only_same {A} (P : Call -> Prop) (m : M A) :
  (forall st, log (m st).2 = log st) -> calls_only P m.
Proof. intros Hm st. exists []. rewrite app_nil_r. auto. Qed.

Lemma calls_only_ret {A} (P : Call -> Prop) (a : A) : calls_only P (mret a : M A).
Proof. apply calls_only_same. reflexivity. Qed.

Lemma calls_only_throw {A} (P : Call -> Prop) (e : thrown) : calls_only P (throw e : M A).
Proof. apply calls_only_same. reflexivity. Qed.

Lemma calls_only_lift {A} (P : Call -> Prop) (c : completion A) : calls_only P (lift c).
Proof. apply calls_only_same. reflexivity. Qed.

Lemma calls_only_now (P : Call -> Prop) : calls_only P (now W).
Proof. apply calls_only_same. reflexivity. Qed.

Lemma calls_only_get_client (P : Call -> Prop) : calls_only P get_litNodeClient.
Proof. apply calls_only_same. reflexivity. Qed.

Lemma calls_only_set_client (P : Call -> Prop) c : calls_only P (set_litNodeClient c).
Proof. apply calls_only_same. reflexivity. Qed.

Lemma calls_only_call (P : Call -> Prop) (a : Api) (xs : list jsval) :
  P {| api := a; args := xs |} -> calls_only P (call W a xs).
Proof. intros HP st. eexists [_]. split; [reflexivity | auto]. Qed.

Lemma calls_only_new (P : Call -> Prop) (config : jsval) :
  P {| api := LitNodeClient_new; args := [config] |} ->
  calls_only P (new_LitNodeClient W config).
Proof.
  intros HP st. exists [{| api := LitNodeClient_new; args := [config] |}].
  unfold new_LitNodeClient.
  destruct (sdk W _ _); (split; [reflexivity | auto]).
Qed.

Lemma calls_only_readFile (P : Call -> Prop) (path : jsval) :
  P {| api := fs_readFile; args := [path; JStr "utf-8"] |} ->
  calls_only P (readFile W path).
Proof.
  intros HP st. exists [{| api := fs_readFile; args := [path; JStr "utf-8"] |}].
  unfold readFile.
  destruct path; try (split; [reflexivity | auto]).
  destruct (sdk W _ _); [destruct (files st !! s)|]; (split; [reflexivity | auto]).
Qed.

Lemma calls_only_writeFile (P : Call -> Prop) (path data : jsval) :
  P {| api := fs_writeFile; args := [path; data] |} ->
  calls_only P (writeFile W path data).
Proof.
  intros HP st. exists [{| api := fs_writeFile; args := [path; data] |}].
  unfold writeFile.
  destruct path; try (split; [reflexivity | auto]).
  destruct data; try (split; [reflexivity | auto]).
  destruct (sdk W _ _); (split; [reflexivity | auto]).
Qed.

Lemma calls_only_bind {A B} (P : Call -> Prop) (m : M A) (k : A -> M B) :
  calls_only P m -> (forall a, calls_only P (k a)) -> calls_only P (m ≫= k).
Proof.
  intros Hm Hk st. rewrite bind_run.
  destruct (Hm st) as (new1 & Hlog1 & HP1).
  destruct (m st) as [[a|e] st1]; simpl in Hlog1.
  - destruct (Hk a st1) as (new2 & Hlog2 & HP2).
    exists (new1 ++ new2)%list. rewrite Hlog2, Hlog1, app_assoc.
    split; [reflexivity | apply Forall_app; auto].
  - exists new1. auto.
Qed.

Lemma calls_only_bind_lift {A B} (P : Call -> Prop) (c : completion A) (k : A -> M B) :
  (forall a, c = Returns a -> calls_only P (k a)) -> calls_only P (lift c ≫= k).
Proof.
  intros Hk st. rewrite bind_run. unfold lift.
  destruct c as [a|e]; [apply Hk; reflexivity |].
  exists []. rewrite app_nil_r. auto.
Qed.

Lemma calls_only_try_catch {A} (P : Call -> Prop) (body : M A) (handler : thrown -> M A) :
  calls_only P body -> (forall e, calls_only P (handler e)) ->
  calls_only P (try_catch body handler).
Proof.
  intros Hb Hh st. unfold try_catch.
  destruct (Hb st) as (new1 & Hlog1 & HP1).
  destruct (body st) as [[a|e] st1]; simpl in Hlog1.
  - exists new1. auto.
  - destruct (Hh e st1) as (new2 & Hlog2 & HP2).
    exists (new1 ++ new2)%list. rewrite Hlog2, Hlog1, app_assoc.
    split; [reflexivity | apply Forall_app; auto].
Qed.

(** *** [faults_surface] *)

Lemma no_fault_nil history : no_fault W history [].
Proof. intros pre c post Heq. destruct pre; discriminate. Qed.

Lemma no_fault_one history c v :
  sdk W history c = Returns v -> no_fault W history [c].
Proof.
  intros Hc pre c' post Heq.
  destruct pre as [|x [|y pre]]; try discriminate.
  inversion Heq; subst. rewrite app_nil_r. eauto.
Qed.

Lemma no_fault_app history new1 new2 :
  no_fault W history new1 -> no_fault W (history ++ new1)%list new2 ->
  no_fault W history (new1 ++ new2)%list.
Proof.
  intros H1 H2 pre c post Heq.
  apply app_eq_app in Heq. destruct Heq as [l [[Hn Hp] | [Hp Hn]]].
  - destruct l as [|x l'].
    + simpl in Hp. rewrite app_nil_r in Hn. subst new1.
      destruct (H2 [] c post (eq_sym Hp)) as [v Hv].
      rewrite app_nil_r in Hv. eauto.
    + inversion Hp; subst. eapply H1; eauto.
  - subst pre. rewrite app_assoc. eapply H2; eauto.
Qed.

Lemma faults_surface_quiet {A} (m : M A) :
  (forall st, log (m st).2 = log st) -> faults_surface W m.
Proof.
  intros Hm st a st' Heq. exists []. rewrite app_nil_r.
  specialize (Hm st). rewrite Heq in Hm. split; [exact Hm | apply no_fault_nil].
Qed.

Lemma faults_surface_ret {A} (a : A) : faults_surface W (mret a : M A).
Proof. apply faults_surface_quiet. reflexivity. Qed.

Lemma faults_surface_throw {A} (e : thrown) : faults_surface W (throw e : M A).
Proof. apply faults_surface_quiet. reflexivity. Qed.

Lemma faults_surface_lift {A} (c : completion A) : faults_surface W (lift c).
Proof. apply faults_surface_quiet. reflexivity. Qed.

Lemma faults_surface_now : faults_surface W (now W).
Proof. apply faults_surface_quiet. reflexivity. Qed.

Lemma faults_surface_get_client : faults_surface W get_litNodeClient.
Proof. apply faults_surface_quiet. reflexivity. Qed.

Lemma faults_surface_set_client c : faults_surface W (set_litNodeClient c).
Proof. apply faults_surface_quiet. reflexivity. Qed.

Lemma faults_surface_call (a : Api) (xs : list jsval) : faults_surface W (call W a xs).
Proof.
  intros st v st' Heq. unfold call in Heq. inversion Heq as [[Hv Hst]].
  eexists [_]. split; [reflexivity | eapply no_fault_one; eauto].
Qed.

Lemma faults_surface_new (config : jsval) : faults_surface W (new_LitNodeClient W config).
Proof.
  intros st v st' Heq. unfold new_LitNodeClient in Heq.
  destruct (sdk W _ _) eqn:Hsdk; inversion Heq; subst.
  eexists [_]. split; [reflexivity | eapply no_fault_one; eauto].
Qed.

Lemma faults_surface_readFile (path : jsval) : faults_surface W (readFile W path).
Proof.
  intros st v st' Heq. unfold readFile in Heq.
  destruct path; try (inversion Heq; fail).
  destruct (sdk W _ _) eqn:Hsdk; [|inversion Heq].
  destruct (files st !! s); inversion Heq; subst.
  eexists [_]. split; [reflexivity | eapply no_fault_one; eauto].
Qed.

Lemma faults_surface_writeFile (path data : jsval) :
  faults_surface W (writeFile W path data).
Proof.
  intros st v st' Heq. unfold writeFile in Heq.
  destruct path; try (inversion Heq; fail).
  destruct data; try (inversion Heq; fail).
  destruct (sdk W _ _) eqn:Hsdk; inversion Heq; subst.
  eexists [_]. split; [reflexivity | eapply no_fault_one; eauto].
Qed.

Lemma faults_surface_bind {A B} (m : M A) (k : A -> M B) :
  faults_surface W m -> (forall a, faults_surface W (k a)) ->
  faults_surface W (m ≫= k).
Proof.
  intros Hm Hk st b st' Heq. rewrite bind_run in Heq.
  destruct (m st) as [[a|e] st1] eqn:Hrun; [|inversion Heq].
  destruct (Hm st a st1 Hrun) as (new1 & Hlog1 & Hf1).
  destruct (Hk a st1 b st' Heq) as (new2 & Hlog2 & Hf2).
  exists (new1 ++ new2)%list. rewrite Hlog2, Hlog1, app_assoc.
  split; [reflexivity|]. apply no_fault_app; [assumption|].
  rewrite <- Hlog1. assumption.
Qed.

(** A [catch] that always throws again. *)
Lemma faults_surface_rethrow {A} (body : M A) (handler : thrown -> M A) :
  faults_surface W body -> (forall e, returns_only (fun _ => False) (handler e)) ->
  faults_surface W (try_catch body handler).
Proof.
  intros Hb Hh st a st' Heq. unfold try_catch in Heq.
  destruct (body st) as [[a0|e] st1] eqn:Hrun.
  - inversion Heq; subst. eapply Hb; eauto.
  - destruct (Hh e st1 a st' Heq).
Qed.
End Rules.

Ltac unfold_provider :=
  unfold TS.lit_hello_try, TS.lit_encrypt_env_try, TS.lit_decrypt_env_try,
    TS.lit_erc20_transfer_try, TS.lit_ecdsa_sign_try, TS.lit_uniswap_swap_try,
    JS.lit_hello_try, JS.lit_encrypt_env_try, JS.lit_decrypt_env_try,
    JS.lit_erc20_transfer_try, JS.lit_ecdsa_sign_try, JS.lit_uniswap_swap_try,
    Cls.hello, Cls.encryptEnv, Cls.decryptEnv, Cls.erc20Transfer, Cls.ecdsaSign,
    Cls.uniswapSwap,
    TS.getSessionSigs, JS.getSessionSigs, Cls.getSessionSigs,
    TS.getLitClient, JS.getLitClient, Cls.getLitClient,
    TS.authNeededCallback, JS.authNeededCallback, Cls.authNeededCallback,
    getSessionSigs_with, siwe_message, sign_with_walletClient,
    erc20_execute, ecdsa_execute, uniswap_execute.

Ltac returns_step :=
  match goal with
  | |- returns_only _ (mret _) => apply returns_only_ret
  | |- returns_only _ (throw _) => apply returns_only_throw
  | |- returns_only _ (lift _ ≫= _) => apply returns_only_bind_lift; intros ? ?
  | |- returns_only _ (_ ≫= _) => apply returns_only_bind; intros ?
  | |- returns_only _ (try_catch _ _) => apply returns_only_try_catch; [| intros ?]
  | |- returns_only _ (match ?x with _ => _ end) => destruct x
  end.

Ltac faults_step :=
  match goal with
  | |- faults_surface _ (mret _) => apply faults_surface_ret
  | |- faults_surface _ (throw _) => apply faults_surface_throw
  | |- faults_surface _ (lift _) => apply faults_surface_lift
  | |- faults_surface _ (now _) => apply faults_surface_now
  | |- faults_surface _ get_litNodeClient => apply faults_surface_get_client
  | |- faults_surface _ (set_litNodeClient _) => apply faults_surface_set_client
  | |- faults_surface _ (call _ _ _) => apply faults_surface_call
  | |- faults_surface _ (new_LitNodeClient _ _) => apply faults_surface_new
  | |- faults_surface _ (readFile _ _) => apply faults_surface_readFile
  | |- faults_surface _ (writeFile _ _ _) => apply faults_surface_writeFile
  | |- faults_surface _ (_ ≫= _) => apply faults_surface_bind; [| intros ?]
  | |- faults_surface _ (try_catch _ _) =>
      apply faults_surface_rethrow; [| intros ?; repeat returns_step]
  | |- faults_surface _ (match ?x with _ => _ end) => destruct x
  end.

Ltac calls_step :=
  match goal with
  | |- calls_only _ (mret _) => apply calls_only_ret
  | |- calls_only _ (throw _) => apply calls_only_throw
  | |- calls_only _ (lift _ ≫= _) => apply calls_only_bind_lift; intros ? ?
  | |- calls_only _ (lift _) => apply calls_only_lift
  | |- calls_only _ (now _) => apply calls_only_now
  | |- calls_only _ get_litNodeClient => apply calls_only_get_client
  | |- calls_only _ (set_litNodeClient _) => apply calls_only_set_client
  | |- calls_only _ (call _ _ _) => apply calls_only_call
  | |- calls_only _ (new_LitNodeClient _ _) => apply calls_only_new
  | |- calls_only _ (readFile _ _) => apply calls_only_readFile
  | |- calls_only _ (writeFile _ _ _) => apply calls_only_writeFile
  | |- calls_only _ (_ ≫= _) => apply calls_only_bind; [| intros ?]
  | |- calls_only _ (try_catch _ _) => apply calls_only_try_catch; [| intros ?]
  | |- calls_only _ (match ?x with _ => _ end) => destruct x
  end.

(** ** Errors and the envelope *)

Lemma serialize_defined `{Host} (gap indent : string) (v : jsval) :
  v <> JUndefined -> exists s, serialize gap indent v = Some s.
Proof. destruct v; simpl; intros Hv; [congruence | eauto ..]. Qed.

Lemma js_or_defined (a b : jsval) : b <> JUndefined -> js_or a b <> JUndefined.
Proof. unfold js_or. destruct a; simpl; try congruence; try (destruct_all bool; congruence).
  - destruct (truthy_num f); congruence.
  - destruct (truthy_str s); congruence.
Qed.

(** [JSON.stringify(res.response || res)] is a string whenever it is
    evaluated without an exception: [undefined] never reaches it. *)
Lemma stringify_response_string `{Host} (res : jsval) (result : option string) :
  stringify_response res = Returns result -> exists s, result = Some s.
Proof.
  unfold stringify_response. intros Heq.
  destruct res; simpl in Heq; try discriminate; inversion Heq; subst;
    apply serialize_defined, js_or_defined; congruence.
Qed.

Lemma failure_is_envelope (error : string) : is_envelope (failure_envelope error).
Proof. right. exists error. reflexivity. Qed.

Lemma success_is_envelope (result : string) : is_envelope (success_envelope (Some result)).
Proof. left. exists result. reflexivity. Qed.

Lemma success_not_failure (error : string) : ~ is_success_envelope (failure_envelope error).
Proof. intros [result Heq]. discriminate. Qed.

Ltac envelope_tac :=
  unfold_provider; repeat returns_step;
  try apply failure_is_envelope;
  try (match goal with
       | Hs : stringify_response _ = Returns _ |- _ =>
           destruct (stringify_response_string _ _ Hs) as [? ->]
       end);
  try apply success_is_envelope.

Ltac faults_tac := unfold_provider; repeat faults_step.

Ltac each_handler :=
  unfold function_style_handlers, class_actions;
  repeat match goal with
         | |- Forall _ (_ :: _) => apply List.Forall_cons; [cbn [fst snd] |]
         | |- Forall _ [] => apply List.Forall_nil
         end.

(** What a [try]/[catch] that turns the exception into a failure envelope
    guarantees. *)
Lemma caught_handler `{Host} (W : World) (body : M jsval) (message : thrown -> string) :
  returns_only is_envelope body ->
  faults_surface W body ->
  let handler := try_catch body (fun error => mret (failure_envelope (message error))) in
  forall st,
    exists v st',
      handler st = (Returns v, st')
      /\ is_envelope v
      /\ (forall e, (body st).1 = Throws e -> v = failure_envelope (message e))
      /\ (is_success_envelope v ->
          exists new, log st' = (log st ++ new)%list /\ no_fault W (log st) new).
Proof.
  intros Hret Hfaults handler st. subst handler. unfold try_catch.
  destruct (body st) as [[v|e] st'] eqn:Hrun.
  - exists v, st'. split; [reflexivity|]. split; [eapply Hret; eauto|].
    split; [intros e He; discriminate|]. intros _. eapply Hfaults; eauto.
  - exists (failure_envelope (message e)), st'. split; [reflexivity|].
    split; [apply failure_is_envelope|].
    split; [intros e' He; simpl in He; congruence|].
    intros Hs. destruct (success_not_failure _ Hs).
Qed.

Lemma caught_handler_sound `{Host} (W : World) (body : M jsval) (message : thrown -> string) :
  returns_only is_envelope body ->
  faults_surface W body ->
  forall st, exists v st',
    try_catch body (fun error => mret (failure_envelope (message error))) st = (Returns v, st')
    /\ is_envelope v
    /\ (forall e, (body st).1 = Throws e -> is_failure_envelope v)
    /\ (is_success_envelope v ->
        exists new, log st' = (log st ++ new)%list /\ no_fault W (log st) new).
Proof.
  intros Hret Hfaults st.
  destruct (caught_handler W body message Hret Hfaults st)
    as (v & st' & Hrun & Henv & Hcaught & Hclean).
  exists v, st'. split; [exact Hrun|]. split; [exact Henv|]. split; [|exact Hclean].
  intros e He. rewrite (Hcaught e He). eexists. reflexivity.
Qed.

Ltac unfold_handlers :=
  unfold TS.lit_hello, TS.lit_encrypt_env, TS.lit_decrypt_env, TS.lit_erc20_transfer,
    TS.lit_ecdsa_sign, TS.lit_uniswap_swap,
    JS.lit_hello, JS.lit_encrypt_env, JS.lit_decrypt_env, JS.lit_erc20_transfer,
    JS.lit_ecdsa_sign, JS.lit_uniswap_swap.

Lemma function_style_handlers_sound `{Host} (W : World) (config input : jsval) :
  Forall (fun bh =>
            forall st, exists v st',
              bh.2 input st = (Returns v, st')
              /\ is_envelope v
              /\ (forall e, (bh.1 input st).1 = Throws e -> is_failure_envelope v)
              /\ (is_success_envelope v ->
                  exists new, log st' = (log st ++ new)%list /\ no_fault W (log st) new))
         (function_style_handlers W config).
Proof.
  each_handler; unfold_handlers;
    (apply caught_handler_sound; [envelope_tac | faults_tac]).
Qed.

(** C1, amended.  In the two function-style providers no handler ever
    propagates an exception: it returns a value; when its [try] block throws,
    that value is a failure envelope ([success = false] and a string
    [error]); and a success envelope is returned only when no call to an SDK,
    the wallet or the file system was answered by an exception. *)
Theorem function_style_handlers_catch `{Host} (W : World) (config input : jsval) (st : State) :
  Forall (fun bh =>
            exists v st',
              bh.2 input st = (Returns v, st')
              /\ (forall e, (bh.1 input st).1 = Throws e -> is_failure_envelope v)
              /\ (is_success_envelope v ->
                  exists new, log st' = (log st ++ new)%list /\ no_fault W (log st) new))
         (function_style_handlers W config).
Proof.
  eapply Forall_impl; [apply (function_style_handlers_sound W config input)|].
  intros bh Hbh. destruct (Hbh st) as (v & st' & Hrun & _ & Hcaught & Hclean).
  exists v, st'. auto.
Qed.

(** C3, amended.  In the two function-style providers every handler, on
    every input, in every state and whatever the SDK calls answer, returns
    [{ success: true, result: <string> }] or
    [{ success: false, error: <string> }]. *)
Theorem function_style_handlers_envelope `{Host} (W : World) (config input : jsval) (st : State) :
  Forall (fun bh => exists v st', bh.2 input st = (Returns v, st') /\ is_envelope v)
         (function_style_handlers W config).
Proof.
  eapply Forall_impl; [apply (function_style_handlers_sound W config input)|].
  intros bh Hbh. destruct (Hbh st) as (v & st' & Hrun & Henv & _).
  exists v, st'. auto.
Qed.

(** The handlers of the list are the [actions] of the two providers. *)
Lemma function_style_handlers_actions `{Host} (W : World) (config : jsval) :
  map snd (function_style_handlers W config)
  = (map snd (TS.litActionProvider W config) ++ map snd (JS.litActionProvider W config))%list.
Proof. reflexivity. Qed.

(** C1 as stated fails: the class-based [hello] has no [try]/[catch], and
    an exception of [connect] leaves it. *)
Lemma class_hello_propagates :
  ~ never_throws (@Cls.hello example_host offline_world JUndefined (JObj [])).
Proof.
  intros Hn. destruct (Hn (initial_state ∅)) as (v & st' & Hrun).
  vm_compute in Hrun. discriminate.
Qed.

(** C3 as stated fails: the class-based [hello] returns the bare string. *)
Lemma class_hello_returns_string :
  ~ returns_only is_envelope (@Cls.hello example_host answering_world JUndefined (JObj [])).
Proof.
  intros Hr.
  assert (Hrun : exists s st',
             @Cls.hello example_host answering_world JUndefined (JObj []) (initial_state ∅)
             = (Returns (JStr s), st')) by (vm_compute; eauto).
  destruct Hrun as (s & st' & Hrun). specialize (Hr _ _ _ Hrun).
  destruct Hr as [[r Hs] | [r Hs]]; discriminate.
Qed.

(** ** The shared client *)

Ltac run_M :=
  cbv [mbind mret M_bind M_ret get_litNodeClient set_litNodeClient lift throw
       try_catch call new_LitNodeClient now record get_prop].

Lemma getLitClient_reuses `{Host} (W : World) (c : LitNodeClient) (config : jsval) (st : State) :
  litNodeClient st = Some c ->
  TS.getLitClient W config st = (Returns c, st)
  /\ JS.getLitClient W config st = (Returns c, st)
  /\ Cls.getLitClient W config st = (Returns c, st).
Proof.
  intros Hc. unfold TS.getLitClient, JS.getLitClient, Cls.getLitClient.
  rewrite !bind_run. unfold get_litNodeClient. rewrite Hc. auto.
Qed.

(** *** Rules for [reuses_client] *)

Section ReuseRules.
Context `{Host} (W : World) (c : LitNodeClient).

Lemma reuses_quiet {A} (m : M A) :
  (forall st, litNodeClient (m st).2 = litNodeClient st /\ log (m st).2 = log st) ->
  reuses_client c m.
Proof.
  intros Hm st Hc. destruct (Hm st) as [Hclient Hlog]. split; [congruence|].
  exists []. rewrite app_nil_r. auto.
Qed.

Lemma reuses_ret {A} (a : A) : reuses_client c (mret a : M A).
Proof. apply reuses_quiet. auto. Qed.

Lemma reuses_throw {A} (e : thrown) : reuses_client c (throw e : M A).
Proof. apply reuses_quiet. auto. Qed.

Lemma reuses_lift {A} (x : completion A) : reuses_client c (lift x).
Proof. apply reuses_quiet. auto. Qed.

Lemma reuses_now : reuses_client c (now W).
Proof. apply reuses_quiet. auto. Qed.

Lemma reuses_one {A} (m : M A) (call : Call) :
  api call <> LitNodeClient_new -> api call <> client_connect ->
  (forall st, litNodeClient (m st).2 = litNodeClient st
              /\ log (m st).2 = (log st ++ [call])%list) ->
  reuses_client c m.
Proof.
  intros Hnew Hconnect Hm st Hc. destruct (Hm st) as [Hclient Hlog].
  split; [congruence|]. exists [call]. auto.
Qed.

Lemma reuses_call (a : Api) (xs : list jsval) :
  a <> LitNodeClient_new -> a <> client_connect -> reuses_client c (call W a xs).
Proof.
  intros Hn Hc.
  apply (reuses_one _ {| api := a; args := xs |});
    [assumption | assumption | intros st; split; reflexivity].
Qed.

Lemma reuses_readFile (path : jsval) : reuses_client c (readFile W path).
Proof.
  eapply (reuses_one _ {| api := fs_readFile; args := [path; JStr "utf-8"] |});
    [discriminate | discriminate |].
  intros st. unfold readFile. destruct path; try (split; reflexivity).
  destruct (sdk W _ _); [destruct (files st !! s)|]; split; reflexivity.
Qed.

Lemma reuses_writeFile (path data : jsval) : reuses_client c (writeFile W path data).
Proof.
  eapply (reuses_one _ {| api := fs_writeFile; args := [path; data] |});
    [discriminate | discriminate |].
  intros st. unfold writeFile. destruct path; try (split; reflexivity).
  destruct data; try (split; reflexivity).
  destruct (sdk W _ _); split; reflexivity.
Qed.

Lemma reuses_bind {A B} (m : M A) (k : A -> M B) :
  reuses_client c m -> (forall a, reuses_client c (k a)) -> reuses_client c (m ≫= k).
Proof.
  intros Hm Hk st Hc. rewrite bind_run.
  destruct (Hm st Hc) as (Hc1 & new1 & Hlog1 & HP1).
  destruct (m st) as [[a|e] st1]; simpl in Hc1, Hlog1.
  - destruct (Hk a st1 Hc1) as (Hc2 & new2 & Hlog2 & HP2).
    split; [exact Hc2|]. exists (new1 ++ new2)%list.
    rewrite Hlog2, Hlog1, app_assoc. split; [reflexivity | apply Forall_app; auto].
  - split; [exact Hc1|]. exists new1. auto.
Qed.

Lemma reuses_try_catch {A} (body : M A) (handler : thrown -> M A) :
  reuses_client c body -> (forall e, reuses_client c (handler e)) ->
  reuses_client c (try_catch body handler).
Proof.
  intros Hb Hh st Hc. unfold try_catch.
  destruct (Hb st Hc) as (Hc1 & new1 & Hlog1 & HP1).
  destruct (body st) as [[a|e] st1]; simpl in Hc1, Hlog1.
  - split; [exact Hc1|]. exists new1. auto.
  - destruct (Hh e st1 Hc1) as (Hc2 & new2 & Hlog2 & HP2).
    split; [exact Hc2|]. exists (new1 ++ new2)%list.
    rewrite Hlog2, Hlog1, app_assoc. split; [reflexivity | apply Forall_app; auto].
Qed.

(** Reading the stored client yields [c]. *)
Lemma reuses_get {B} (k : option LitNodeClient -> M B) :
  reuses_client c (k (Some c)) -> reuses_client c (get_litNodeClient ≫= k).
Proof.
  intros Hk st Hc. rewrite bind_run. unfold get_litNodeClient. rewrite Hc.
  apply Hk. exact Hc.
Qed.
End ReuseRules.

Ltac reuses_step :=
  match goal with
  | |- reuses_client _ (mret _) => apply reuses_ret
  | |- reuses_client _ (throw _) => apply reuses_throw
  | |- reuses_client _ (lift _) => apply reuses_lift
  | |- reuses_client _ (now _) => apply reuses_now
  | |- reuses_client _ (call _ _ _) => apply reuses_call; discriminate
  | |- reuses_client _ (readFile _ _) => apply reuses_readFile
  | |- reuses_client _ (writeFile _ _ _) => apply reuses_writeFile
  | |- reuses_client _ (get_litNodeClient ≫= _) => apply reuses_get
  | |- reuses_client _ (_ ≫= _) => apply reuses_bind; [| intros ?]
  | |- reuses_client _ (try_catch _ _) => apply reuses_try_catch; [| intros ?]
  | |- reuses_client _ (match ?x with _ => _ end) => destruct x
  end.

(** Once the client is stored, no action of any provider constructs or
    connects again. *)
Lemma handlers_reuse_client `{Host} (W : World) (c : LitNodeClient) (config input : jsval) :
  Forall (fun h : jsval -> M jsval => reuses_client c (h input))
         (map snd (function_style_handlers W config) ++ class_actions W config).
Proof.
  unfold function_style_handlers, class_actions. cbn [map snd app].
  repeat match goal with
         | |- Forall _ (_ :: _) => apply List.Forall_cons
         | |- Forall _ [] => apply List.Forall_nil
         end; unfold_handlers; unfold_provider; repeat reuses_step.
Qed.

(** C4.  The first [getLitClient] call constructs the client from that
    call's configuration ([litNetwork || "datil-dev"], [debug || false]),
    stores the handle and connects once; as long as the handle is stored,
    every later call, with whatever configuration, returns that same handle
    and leaves the state and the log untouched; and every action of every
    provider keeps the handle stored and neither constructs nor connects
    again. *)
Theorem getLitClient_created_once `{Host} (W : World)
    (fields : list (string * jsval)) (st : State) (v : jsval) :
  litNodeClient st = None ->
  sdk W (log st) {| api := LitNodeClient_new; args := [client_config_of (JObj fields)] |}
    = Returns v ->
  forall getLitClient,
    getLitClient = TS.getLitClient W \/ getLitClient = JS.getLitClient W ->
    let c := {| client_serial := length (List.filter is_new (log st));
                client_config := client_config_of (JObj fields) |} in
    let construct := {| api := LitNodeClient_new; args := [client_config_of (JObj fields)] |} in
    let connect := {| api := client_connect; args := [] |} in
    let st1 := (getLitClient (JObj fields) st).2 in
    litNodeClient st1 = Some c
    /\ files st1 = files st
    /\ (exists new, log st1 = (log st ++ new)%list
                    /\ calls_to LitNodeClient_new new = [construct]
                    /\ calls_to client_connect new = [connect])
    /\ ((exists u, sdk W (log st ++ [construct])%list connect = Returns u) ->
        (getLitClient (JObj fields) st).1 = Returns c)
    /\ (forall later st2, litNodeClient st2 = Some c ->
          getLitClient later st2 = (Returns c, st2))
    /\ (forall config input,
          Forall (fun h : jsval -> M jsval => reuses_client c (h input))
                 (map snd (function_style_handlers W config) ++ class_actions W config)).
Proof.
  intros Hnone Hnew getLitClient Hget c construct connect st1.
  pose proof (handlers_reuse_client W c) as Hreuse.
  assert (Hlater : forall later st2, litNodeClient st2 = Some c ->
                     getLitClient later st2 = (Returns c, st2)).
  { intros later st2 Hc.
    destruct (getLitClient_reuses W c later st2 Hc) as (Hts & Hjs & _).
    destruct Hget as [-> | ->]; assumption. }
  destruct st as [cl fs lg]. simpl in Hnone, Hnew. subst cl.
  destruct Hget as [-> | ->]; subst st1.
  - unfold TS.getLitClient. run_M. simpl. rewrite Hnew. simpl.
    destruct (sdk W (_ ++ _)%list _) as [u|e] eqn:Hconnect; simpl;
      (split; [reflexivity|]); (split; [reflexivity|]);
      (split; [exists [construct; connect]; rewrite <- app_assoc; auto|]);
      (split; [|exact (conj Hlater Hreuse)]).
    + reflexivity.
    + intros [u Hu]. subst construct connect. simpl in Hu. congruence.
  - unfold JS.getLitClient. run_M. simpl. rewrite Hnew. simpl.
    destruct (sdk W (_ ++ _)%list _) as [u|e] eqn:Hconnect; simpl.
    + (split; [reflexivity|]); (split; [reflexivity|]);
      (split; [exists [construct; connect]; rewrite <- app_assoc; auto|]);
      (split; [reflexivity|exact (conj Hlater Hreuse)]).
    + destruct (sdk W (_ ++ _)%list {| api := console_error; args := _ |}) as [u|e'] eqn:Hconsole; simpl.
      * destruct (error_message_unchecked e) as [msg|e''] eqn:Hmsg; simpl;
          (split; [reflexivity|]); (split; [reflexivity|]);
          (split; [eexists [construct; connect; _]; rewrite <- !app_assoc; split;
                   [reflexivity | auto]|]);
          (split; [|exact (conj Hlater Hreuse)]);
          intros [u' Hu]; subst construct connect; simpl in Hu; congruence.
      * (split; [reflexivity|]); (split; [reflexivity|]);
          (split; [eexists [construct; connect; _]; rewrite <- !app_assoc; split;
                   [reflexivity | auto]|]);
          (split; [|exact (conj Hlater Hreuse)]);
          intros [u' Hu]; subst construct connect; simpl in Hu; congruence.
Qed.

Lemma getLitClient_created_once_witness :
  litNodeClient (initial_state ∅) = None
  /\ sdk quiet_world (log (initial_state ∅))
         {| api := LitNodeClient_new;
            args := [client_config_of (JObj [("litNetwork", JStr "datil")])] |}
     = Returns JUndefined
  /\ litNodeClient
       (TS.getLitClient quiet_world
          (JObj [("litNetwork", JStr "datil")]) (initial_state ∅)).2
     = Some (first_client (JObj [("litNetwork", JStr "datil")])).
Proof.
  split; [reflexivity|]. split; [reflexivity|].
  exact (proj1 (@getLitClient_created_once example_host quiet_world
                  [("litNetwork", JStr "datil")] (initial_state ∅) JUndefined
                  eq_refl eq_refl _ (or_introl eq_refl))).
Defined.

(** ** The magic number of [lit-hello] *)


Lemma js_or_truthy (a b : jsval) : truthy a = true -> js_or a b = a.
Proof. unfold js_or. intros ->. reflexivity. Qed.



Ltac other_api := intros Hapi; simpl in Hapi; discriminate.

Ltac calls_tac := unfold_handlers; unfold_provider; repeat calls_step; try other_api.




(** In a world that answers, the call is made, and with 42. *)
Example hello_zero_run :
  calls_to client_executeJs
    (log (@TS.lit_hello example_host answering_world JUndefined
            (JObj [("magicNumber", JNum 0)]) (initial_state ∅)).2)
  = [{| api := client_executeJs;
        args := [JObj [("sessionSigs", JObj []);
                       ("code", JStr HELLO_LIT_CODE);
                       ("jsParams", JObj [("magicNumber", JNum 42)])]] |}].
Proof. vm_compute. reflexivity. Qed.

(** ** [lit-encrypt-env] on an empty file *)

(** C8.  When the file that [lit-encrypt-env] reads is empty, the handler
    returns the failure envelope whose error says the file "is empty or
    missing"; the only call it makes is that [fs.readFile], so there is no
    Lit SDK call and no [fs.writeFile]; the files and the shared client are
    as before. *)
Theorem encrypt_env_empty_file `{Host} (W : World) (config input : jsval) (st : State)
    (path : string) (u : jsval) :
  files st !! path = Some EmptyString ->
  sdk W (log st) {| api := fs_readFile; args := [JStr path; JStr "utf-8"] |} = Returns u ->
  let outcome :=
    (Returns (failure_envelope ("File " +:+ path +:+ " is empty or missing")),
     {| litNodeClient := litNodeClient st;
        files := files st;
        log := (log st ++ [{| api := fs_readFile; args := [JStr path; JStr "utf-8"] |}])%list |}) in
  (forall envFilePath,
      get_prop input "envFilePath" = Returns envFilePath ->
      js_or envFilePath (JStr ".env") = JStr path ->
      TS.lit_encrypt_env W config input st = outcome)
  /\ (forall parsed,
         parse EncryptEnvSchema (js_or input (JObj [])) = Returns parsed ->
         get_prop parsed "envFilePath" = Returns (JStr path) ->
         JS.lit_encrypt_env W config input st = outcome).
Proof.
  intros Hfile Hread outcome. subst outcome. split.
  - intros envFilePath Hget Hpath.
    unfold TS.lit_encrypt_env, TS.lit_encrypt_env_try, try_catch.
    rewrite (bind_lift_returns _ _ _ _ Hget). rewrite Hpath.
    rewrite bind_run. unfold readFile at 1. rewrite Hread, Hfile. reflexivity.
  - intros parsed Hparse Hget.
    unfold JS.lit_encrypt_env, JS.lit_encrypt_env_try, try_catch.
    rewrite (bind_lift_returns _ _ _ _ Hparse).
    rewrite (bind_lift_returns _ _ _ _ Hget).
    rewrite bind_run. unfold readFile at 1. rewrite Hread, Hfile. reflexivity.
Qed.

Lemma encrypt_env_empty_file_witness :
  files (initial_state {[ ".env" := EmptyString ]}) !! ".env" = Some EmptyString
  /\ sdk quiet_world (log (initial_state {[ ".env" := EmptyString ]}))
         {| api := fs_readFile; args := [JStr ".env"; JStr "utf-8"] |}
     = Returns JUndefined
  /\ get_prop (JObj []) "envFilePath" = Returns JUndefined
  /\ js_or JUndefined (JStr ".env") = JStr ".env"
  /\ @TS.lit_encrypt_env example_host quiet_world JUndefined (JObj [])
       (initial_state {[ ".env" := EmptyString ]})
     = (Returns (failure_envelope "File .env is empty or missing"),
        {| litNodeClient := None;
           files := {[ ".env" := EmptyString ]};
           log := [{| api := fs_readFile; args := [JStr ".env"; JStr "utf-8"] |}] |}).
Proof.
  split; [reflexivity|]. split; [reflexivity|].
  split; [reflexivity|]. split; [reflexivity|].
  exact (proj1 (@encrypt_env_empty_file example_host quiet_world JUndefined (JObj [])
                  (initial_state {[ ".env" := EmptyString ]})
                  ".env" JUndefined eq_refl eq_refl)
               JUndefined eq_refl eq_refl).
Defined.

(** ** Regular expressions: the matcher decides the language *)

Lemma Lang_seq (a b : regex) (l : list ascii) :
  Lang (RSeq a b) l <-> exists u v, l = (u ++ v)%list /\ Lang a u /\ Lang b v.
Proof.
  split.
  - intros HL. inversion HL; subst. eauto.
  - intros (u & v & -> & Hu & Hv). constructor; assumption.
Qed.

Lemma Lang_alt (a b : regex) (l : list ascii) :
  Lang (RAlt a b) l <-> Lang a l \/ Lang b l.
Proof.
  split.
  - intros HL. inversion HL; subst; auto.
  - intros [Ha | Hb]; [apply LAltL | apply LAltR]; assumption.
Qed.

Lemma nullable_Lang (r : regex) : nullable r = true <-> Lang r [].
Proof.
  induction r as [| |p|a IHa b IHb|a IHa b IHb|a IHa]; simpl.
  - split; [discriminate | intros HL; inversion HL].
  - split; [constructor | reflexivity].
  - split; [discriminate | intros HL; inversion HL].
  - rewrite andb_true_iff, IHa, IHb. split.
    + intros [Ha Hb]. apply (LSeq a b [] []); assumption.
    + intros HL. apply Lang_seq in HL. destruct HL as (u & v & Heq & Hu & Hv).
      symmetry in Heq. apply app_eq_nil in Heq. destruct Heq; subst. auto.
  - rewrite orb_true_iff, IHa, IHb, Lang_alt. reflexivity.
  - split; [constructor | reflexivity].
Qed.

Lemma Lang_star_cons (a : regex) (c : ascii) (l : list ascii) :
  Lang (RStar a) (c :: l) ->
  exists u v, l = (u ++ v)%list /\ Lang a (c :: u) /\ Lang (RStar a) v.
Proof.
  intros HL. remember (RStar a) as r eqn:Hr. remember (c :: l) as w eqn:Hw.
  revert l Hw.
  induction HL as [| | | | | |a0 u v Hu _ Hv IHv]; intros l Hw; try discriminate.
  inversion Hr; subst a0. destruct u as [|c' u'].
  - simpl in Hw. apply IHv; auto.
  - simpl in Hw. inversion Hw; subst. exists u', v. auto.
Qed.

Lemma deriv_Lang (c : ascii) (r : regex) (l : list ascii) :
  Lang (deriv c r) l <-> Lang r (c :: l).
Proof.
  revert l.
  induction r as [| |p|a IHa b IHb|a IHa b IHb|a IHa]; intros l; simpl.
  - split; intros HL; inversion HL.
  - split; intros HL; inversion HL.
  - destruct (p c) eqn:Hp; split; intros HL; inversion HL; subst.
    + constructor. assumption.
    + constructor.
    + congruence.
  - assert (Hseq : Lang (RSeq (deriv c a) b) l -> Lang (RSeq a b) (c :: l)).
    { intros HL. apply Lang_seq in HL. destruct HL as (u & v & -> & Hu & Hv).
      apply IHa in Hu. apply (LSeq a b (c :: u) v); assumption. }
    assert (Hsplit : Lang (RSeq a b) (c :: l) ->
                     Lang (RSeq (deriv c a) b) l \/ (Lang a [] /\ Lang b (c :: l))).
    { intros HL. apply Lang_seq in HL. destruct HL as (u & v & Heq & Hu & Hv).
      destruct u as [|c' u'].
      - simpl in Heq. subst v. right. auto.
      - simpl in Heq. inversion Heq; subst. left.
        apply LSeq; [apply IHa|]; assumption. }
    destruct (nullable a) eqn:Hn.
    + split.
      * intros HL. apply Lang_alt in HL. destruct HL as [HL | HL]; [auto|].
        apply nullable_Lang in Hn. apply (LSeq a b [] (c :: l)); [assumption|].
        apply IHb. assumption.
      * intros HL. destruct (Hsplit HL) as [Hd | [_ Hb]].
        -- apply LAltL. assumption.
        -- apply LAltR. apply IHb. assumption.
    + split; [exact Hseq|].
      intros HL. destruct (Hsplit HL) as [Hd | [Ha _]]; [assumption|].
      apply nullable_Lang in Ha. congruence.
  - rewrite !Lang_alt, IHa, IHb. reflexivity.
  - split.
    + intros HL. apply Lang_seq in HL. destruct HL as (u & v & -> & Hu & Hv).
      apply IHa in Hu. apply (LStarApp a (c :: u) v); assumption.
    + intros HL. destruct (Lang_star_cons _ _ _ HL) as (u & v & -> & Hu & Hv).
      apply LSeq; [apply IHa|]; assumption.
Qed.

Lemma rmatch_Lang (r : regex) (l : list ascii) : rmatch r l = true <-> Lang r l.
Proof.
  revert r. induction l as [|c l IH]; intros r; simpl.
  - apply nullable_Lang.
  - rewrite IH. apply deriv_Lang.
Qed.

(** *** The three patterns, read as plain conditions *)

Lemma Lang_set (p : ascii -> bool) (l : list ascii) :
  Lang (RSet p) l <-> exists c, l = [c] /\ p c = true.
Proof.
  split.
  - intros HL. inversion HL; subst. eauto.
  - intros (c & -> & Hp). constructor. assumption.
Qed.

Lemma Lang_chr (c : ascii) (l : list ascii) : Lang (RChr c) l <-> l = [c].
Proof.
  unfold RChr. rewrite Lang_set. split.
  - intros (c' & -> & Heq). apply Ascii.eqb_eq in Heq. subst. reflexivity.
  - intros ->. exists c. split; [reflexivity | apply Ascii.eqb_refl].
Qed.

Lemma Lang_rep_set (p : ascii -> bool) (n : nat) (l : list ascii) :
  Lang (RRep n (RSet p)) l <-> length l = n /\ Forall (fun c => p c = true) l.
Proof.
  revert l. induction n as [|n IH]; intros l; simpl.
  - split.
    + intros HL. inversion HL. auto.
    + intros [Hlen _]. destruct l; [constructor | discriminate].
  - rewrite Lang_seq. split.
    + intros (u & v & -> & Hu & Hv). apply Lang_set in Hu. destruct Hu as (c & -> & Hp).
      apply IH in Hv. destruct Hv as [Hlen Hall]. simpl. split; [lia|].
      constructor; assumption.
    + intros [Hlen Hall]. destruct l as [|c l]; [discriminate|].
      inversion Hall; subst. exists [c], l. split; [reflexivity|].
      split; [apply Lang_set; eauto|]. apply IH. split; [simpl in Hlen; lia | assumption].
Qed.

Lemma Lang_star_set (p : ascii -> bool) (l : list ascii) :
  Lang (RStar (RSet p)) l <-> Forall (fun c => p c = true) l.
Proof.
  split.
  - intros HL. remember (RStar (RSet p)) as r eqn:Hr.
    induction HL as [| | | | | |a u v Hu _ Hv IHv]; try discriminate.
    + constructor.
    + inversion Hr; subst a. apply Lang_set in Hu. destruct Hu as (c & -> & Hp).
      simpl. constructor; auto.
  - induction l as [|c l IH]; intros Hall.
    + constructor.
    + inversion Hall; subst. apply (LStarApp _ [c] l); [constructor; assumption | auto].
Qed.

Lemma Lang_plus_set (p : ascii -> bool) (l : list ascii) :
  Lang (RPlus (RSet p)) l <-> l <> [] /\ Forall (fun c => p c = true) l.
Proof.
  unfold RPlus. rewrite Lang_seq. split.
  - intros (u & v & -> & Hu & Hv). apply Lang_set in Hu. destruct Hu as (c & -> & Hp).
    apply Lang_star_set in Hv. split; [discriminate | constructor; assumption].
  - intros [Hne Hall]. destruct l as [|c l]; [congruence|]. inversion Hall; subst.
    exists [c], l. split; [reflexivity|].
    split; [apply Lang_set; eauto | apply Lang_star_set; assumption].
Qed.

Lemma Lang_opt (r : regex) (l : list ascii) : Lang (ROpt r) l <-> Lang r l \/ l = [].
Proof.
  unfold ROpt. rewrite Lang_alt. split.
  - intros [Hr | He]; [auto | inversion He; auto].
  - intros [Hr | ->]; [auto | right; constructor].
Qed.

Lemma ethAddressRe_spec (s : string) :
  regex_test ethAddressRe s = true <-> is_eth_address s.
Proof.
  unfold regex_test, ethAddressRe, is_eth_address. rewrite rmatch_Lang, Lang_seq. split.
  - intros (u & v & Heq & Hu & Hv). apply Lang_chr in Hu. subst u.
    apply Lang_seq in Hv. destruct Hv as (u' & body & -> & Hu' & Hbody).
    apply Lang_chr in Hu'. subst u'. apply Lang_rep_set in Hbody.
    exists body. rewrite Heq. auto.
  - intros (body & Heq & Hlen & Hall).
    exists ["0"%char], ("x"%char :: body). split; [exact Heq|].
    split; [apply Lang_chr; reflexivity|]. apply Lang_seq.
    exists ["x"%char], body. split; [reflexivity|].
    split; [apply Lang_chr; reflexivity|]. apply Lang_rep_set. auto.
Qed.

Lemma decimalRe_spec (s : string) :
  regex_test decimalRe s = true <-> is_decimal_number s.
Proof.
  unfold regex_test, decimalRe, is_decimal_number, all_digits.
  rewrite rmatch_Lang, Lang_seq. split.
  - intros (whole & v & Heq & Hwhole & Hv). apply Lang_star_set in Hwhole.
    apply Lang_seq in Hv. destruct Hv as (dot & fraction & -> & Hdot & Hfraction).
    apply Lang_plus_set in Hfraction. destruct Hfraction as [Hne Hall].
    apply Lang_opt in Hdot. exists whole, fraction.
    split; [assumption|]. split; [assumption|]. split; [assumption|].
    destruct Hdot as [Hdot | ->].
    + apply Lang_chr in Hdot. subst dot. right. exact Heq.
    + left. exact Heq.
  - intros (whole & fraction & Hwhole & Hfraction & Hne & Heq).
    exists whole. destruct Heq as [Heq | Heq].
    + exists fraction. split; [exact Heq|]. split; [apply Lang_star_set; assumption|].
      apply Lang_seq. exists [], fraction. split; [reflexivity|].
      split; [apply Lang_opt; auto | apply Lang_plus_set; auto].
    + exists ("."%char :: fraction). split; [exact Heq|].
      split; [apply Lang_star_set; assumption|].
      apply Lang_seq. exists ["."%char], fraction. split; [reflexivity|].
      split; [apply Lang_opt; left; apply Lang_chr; reflexivity
             | apply Lang_plus_set; auto].
Qed.

Lemma chainIdRe_spec (s : string) :
  regex_test chainIdRe s = true <-> is_chain_id s.
Proof.
  unfold regex_test, chainIdRe, is_chain_id, all_digits.
  rewrite rmatch_Lang. apply Lang_plus_set.
Qed.

Example ethAddressRe_accepts :
  regex_test ethAddressRe "0x1234567890abcdefABCDEF1234567890abcdef12" = true.
Proof. reflexivity. Qed.

Example ethAddressRe_rejects_short :
  regex_test ethAddressRe "0x1234567890abcdefABCDEF1234567890abcdef1" = false.
Proof. reflexivity. Qed.

Example decimalRe_examples :
  map (regex_test decimalRe) ["1.5"; ".5"; "15"; "1."; "1.5.0"; "-1"; "1e3"]
  = [true; true; true; false; false; false; false].
Proof. reflexivity. Qed.

(** ** The ERC20 transfer schema *)

Section SchemaFacts.
Context `{Host}.

Lemma zissues_string (checks : list string_check) (v : jsval) :
  zissues (zparse (ZString checks) v) = []
  <-> exists s, v = JStr s /\ flat_map (run_check s) checks = [].
Proof.
  destruct v; simpl; try (split; [discriminate | intros (s' & Hs & _); discriminate]).
  destruct (flat_map (run_check s) checks) eqn:Hchecks; simpl; split.
  - eauto.
  - reflexivity.
  - discriminate.
  - intros (s' & Hs & Hnone). inversion Hs; subst. congruence.
Qed.

Lemma zissues_regex_string (r : regex) (message : string) (v : jsval) :
  zissues (zparse (ZString [CheckRegex r message]) v) = []
  <-> exists s, v = JStr s /\ regex_test r s = true.
Proof.
  rewrite zissues_string. simpl. split; intros (s & -> & Hs); exists s;
    (split; [reflexivity|]); destruct (regex_test r s); simpl in *; congruence.
Qed.

Lemma zissues_url_string (v : jsval) :
  zissues (zparse (ZString [CheckUrl]) v) = []
  <-> exists s, v = JStr s /\ URL_canParse s = true.
Proof.
  rewrite zissues_string. simpl. split; intros (s & -> & Hs); exists s;
    (split; [reflexivity|]); destruct (URL_canParse s); simpl in *; congruence.
Qed.

Lemma flat_map_nil {A B} (f : A -> list B) (l : list A) :
  flat_map f l = [] <-> Forall (fun x => f x = []) l.
Proof.
  induction l as [|x l IH]; simpl.
  - split; [constructor | reflexivity].
  - split.
    + intros Heq. apply app_eq_nil in Heq. destruct Heq as [Hx Hl].
      constructor; [assumption | apply IH; assumption].
    + intros Hall. inversion Hall; subst. apply app_nil; split; [assumption | apply IH; assumption].
Qed.

Lemma filter_nil {A} (p : A -> bool) (l : list A) :
  List.filter p l = [] <-> Forall (fun x => p x = false) l.
Proof.
  induction l as [|x l IH]; simpl.
  - split; [constructor | reflexivity].
  - destruct (p x) eqn:Hp; split.
    + discriminate.
    + intros Hall. inversion Hall; subst. congruence.
    + intros Heq. constructor; [assumption | apply IH; assumption].
    + intros Hall. inversion Hall; subst. apply IH. assumption.
Qed.

(** A strict object schema accepts an object exactly when every field of
    the shape parses without an issue and no key lies outside the shape. *)
Lemma strict_object_accepts (shape : list (string * zschema)) (fields : list (string * jsval)) :
  is_ZOk (zparse (ZObject shape Strict) (JObj fields)) = true
  <-> Forall (fun kt => zissues (zparse kt.2 (default JUndefined (assoc kt.1 fields))) = [])
             shape
      /\ Forall (fun k => has_shape_key k shape = true) (map fst fields).
Proof.
  simpl.
  set (pairs := map (fun kt : string * zschema => _) shape).
  set (extra := List.filter _ (map fst fields)).
  assert (Hpairs : flat_map (fun kr : string * zresult => zissues kr.2) pairs = []
                   <-> Forall (fun kt : string * zschema =>
                                 zissues (zparse kt.2 (default JUndefined (assoc kt.1 fields)))
                                 = []) shape).
  { subst pairs. rewrite flat_map_nil, Forall_map. reflexivity. }
  assert (Hextra : extra = [] <-> Forall (fun k => has_shape_key k shape = true) (map fst fields)).
  { subst extra. rewrite filter_nil. apply Forall_iff. intros k.
    destruct (has_shape_key k shape); simpl; split; congruence. }
  destruct (flat_map _ pairs) as [|i issues] eqn:Hflat.
  - destruct extra as [|k extra'] eqn:Hex; simpl.
    + split; [intros _; split; [apply Hpairs | apply Hextra]; reflexivity | reflexivity].
    + split; [discriminate|]. intros [_ Hkeys]. apply Hextra in Hkeys. discriminate.
  - simpl. split; [discriminate|]. intros [Hall _]. apply Hpairs in Hall. discriminate.
Qed.

Lemma filter_nil_keys (shape : list (string * zschema)) (keys : list string) :
  Forall (fun k => has_shape_key k shape = true) keys ->
  List.filter (fun k => negb (has_shape_key k shape)) keys = [].
Proof.
  intros Hall. apply filter_nil. eapply Forall_impl; [exact Hall|].
  intros k Hk. rewrite Hk. reflexivity.
Qed.

Lemma parse_returns_iff (t : zschema) (data : jsval) :
  (exists v, parse t data = Returns v) <-> is_ZOk (zparse t data) = true.
Proof.
  unfold parse. destruct (zparse t data); simpl; split; eauto; try discriminate.
  intros [v Hv]. discriminate.
Qed.

Lemma default_assoc_string (k : string) (fields : list (string * jsval)) (s : string) :
  default JUndefined (assoc k fields) = JStr s <-> assoc k fields = Some (JStr s).
Proof.
  destruct (assoc k fields) as [v|]; simpl; split; congruence.
Qed.

(** C6.  [LitErc20TransferSchema.parse] accepts an input exactly when it is
    an object whose [pkpEthAddress], [tokenAddress] and [recipientAddress]
    are strings of the form [0x] followed by forty hex digits, whose
    [amount] is a string of digits with an optional dot before a non-empty
    run of final digits, whose [chainId] is a non-empty string of digits,
    whose [rpcUrl] is a string that parses as a URL, and which has no key
    besides these six; on every other input it throws. *)
Theorem LitErc20TransferSchema_accepts (input : jsval) :
  (exists v, parse LitErc20TransferSchema input = Returns v)
  <-> exists fields,
        input = JObj fields
        /\ (exists s, assoc "pkpEthAddress" fields = Some (JStr s) /\ is_eth_address s)
        /\ (exists s, assoc "tokenAddress" fields = Some (JStr s) /\ is_eth_address s)
        /\ (exists s, assoc "recipientAddress" fields = Some (JStr s) /\ is_eth_address s)
        /\ (exists s, assoc "amount" fields = Some (JStr s) /\ is_decimal_number s)
        /\ (exists s, assoc "chainId" fields = Some (JStr s) /\ is_chain_id s)
        /\ (exists s, assoc "rpcUrl" fields = Some (JStr s) /\ URL_canParse s = true)
        /\ (forall k, In k (map fst fields) ->
                      In k ["pkpEthAddress"; "tokenAddress"; "recipientAddress";
                            "amount"; "chainId"; "rpcUrl"]).
Proof.
  rewrite parse_returns_iff.
  destruct input as [| | | | |items|fields];
    try (split; [discriminate | intros (fields' & Heq & _); discriminate]).
  unfold LitErc20TransferSchema. rewrite strict_object_accepts.
  unfold ethAddressString.
  rewrite !Forall_cons, Forall_nil. cbn [fst snd].
  rewrite !zissues_regex_string, zissues_url_string.
  setoid_rewrite default_assoc_string.
  setoid_rewrite ethAddressRe_spec. setoid_rewrite decimalRe_spec.
  setoid_rewrite chainIdRe_spec.
  assert (Hkeys : Forall (fun k => has_shape_key k
                     [("pkpEthAddress", ZString [CheckRegex ethAddressRe "Must be a valid Ethereum address"]);
                      ("tokenAddress", ZString [CheckRegex ethAddressRe "Must be a valid Ethereum address"]);
                      ("recipientAddress", ZString [CheckRegex ethAddressRe "Must be a valid Ethereum address"]);
                      ("amount", ZString [CheckRegex decimalRe "Must be a valid decimal number"]);
                      ("chainId", ZString [CheckRegex chainIdRe "Must be a valid chain ID"]);
                      ("rpcUrl", ZString [CheckUrl])] = true) (map fst fields)
                  <-> forall k, In k (map fst fields) ->
                                In k ["pkpEthAddress"; "tokenAddress"; "recipientAddress";
                                      "amount"; "chainId"; "rpcUrl"]).
  { rewrite List.Forall_forall. apply forall_proper. intros k.
    unfold has_shape_key. simpl.
    rewrite !orb_true_iff, !String.eqb_eq. intuition congruence. }
  rewrite Hkeys. split.
  - intros [(H1 & H2 & H3 & H4 & H5 & H6 & _) Hk]. exists fields. tauto.
  - intros (fields' & Heq & H1 & H2 & H3 & H4 & H5 & H6 & Hk).
    inversion Heq; subst fields'. tauto.
Qed.
End SchemaFacts.

Example LitErc20TransferSchema_example :
  @parse example_host LitErc20TransferSchema
    (JObj [("pkpEthAddress", JStr "0x1111111111111111111111111111111111111111");
           ("tokenAddress", JStr "0x2222222222222222222222222222222222222222");
           ("recipientAddress", JStr "0x3333333333333333333333333333333333333333");
           ("amount", JStr "1.5"); ("chainId", JStr "8453");
           ("rpcUrl", JStr "https://mainnet.base.org")])
  = Returns
      (JObj [("pkpEthAddress", JStr "0x1111111111111111111111111111111111111111");
             ("tokenAddress", JStr "0x2222222222222222222222222222222222222222");
             ("recipientAddress", JStr "0x3333333333333333333333333333333333333333");
             ("amount", JStr "1.5"); ("chainId", JStr "8453");
             ("rpcUrl", JStr "https://mainnet.base.org")]).
Proof. vm_compute. reflexivity. Qed.

Example LitErc20TransferSchema_strict :
  @parse example_host LitErc20TransferSchema
    (JObj [("pkpEthAddress", JStr "0x1111111111111111111111111111111111111111");
           ("tokenAddress", JStr "0x2222222222222222222222222222222222222222");
           ("recipientAddress", JStr "0x3333333333333333333333333333333333333333");
           ("amount", JStr "1.5"); ("chainId", JStr "8453");
           ("rpcUrl", JStr "https://mainnet.base.org");
           ("memo", JStr "x")])
  = Throws (JsError "Unrecognized key(s) in object").
Proof. vm_compute. reflexivity. Qed.

(** ** Numerals *)

Ltac char_class :=
  unfold is_digit, is_hex, is_space, is_upper_hex, is_lower_hex, between in *;
  repeat match goal with
         | Hb : _ = true |- _ =>
             first [apply andb_true_iff in Hb; destruct Hb
                   | apply orb_true_iff in Hb; destruct Hb
                   | apply Z.leb_le in Hb | apply Z.eqb_eq in Hb | apply Z.ltb_lt in Hb]
         end;
  repeat match goal with
         | |- context [(?a <=? ?b)] => destruct (Z.leb_spec a b); simpl
         | |- context [(?a <? ?b)] => destruct (Z.ltb_spec a b); simpl
         | |- context [(?a =? ?b)] => destruct (Z.eqb_spec a b); simpl
         end;
  try reflexivity; try discriminate; try lia.

Lemma digit_not_space (c : ascii) : is_digit c = true -> is_space c = false.
Proof. intros Hc. char_class. Qed.

Lemma hex_not_space (c : ascii) : is_hex c = true -> is_space c = false.
Proof. intros Hc. char_class. Qed.

Lemma eqb_by_code (c k : ascii) : code c <> code k -> (c =? k)%char = false.
Proof. intros Hne. destruct (Ascii.eqb_spec c k); [subst; congruence | reflexivity]. Qed.

Lemma digit_value_digit (c : ascii) :
  is_digit c = true -> digit_value 10 c = Some (code c - 48).
Proof.
  intros Hc. unfold digit_value. unfold is_digit in Hc. rewrite Hc.
  unfold between in Hc. apply andb_true_iff in Hc. destruct Hc as [Hlo Hhi].
  apply Z.leb_le in Hlo, Hhi.
  destruct (Z.ltb_spec (code c - 48) 10); [reflexivity | lia].
Qed.

Lemma digit_value_hex (c : ascii) :
  is_hex c = true -> digit_value 16 c = Some (hex_digit_value c).
Proof.
  intros Hc. unfold digit_value, hex_digit_value, is_hex in *.
  destruct (between 48 57 c) eqn:Hd.
  - unfold between in Hd. apply andb_true_iff in Hd. destruct Hd as [Hlo Hhi].
    apply Z.leb_le in Hlo, Hhi.
    destruct (Z.ltb_spec (code c - 48) 16); [reflexivity | lia].
  - destruct (between 97 102 c) eqn:Hl.
    + unfold between in Hl. apply andb_true_iff in Hl. destruct Hl as [Hlo Hhi].
      apply Z.leb_le in Hlo, Hhi.
      destruct (Z.ltb_spec (code c - 87) 16); [reflexivity | lia].
    + simpl in Hc. rewrite orb_false_r in Hc. rewrite Hc.
      unfold between in Hc. apply andb_true_iff in Hc. destruct Hc as [Hlo Hhi].
      apply Z.leb_le in Hlo, Hhi.
      destruct (Z.ltb_spec (code c - 55) 16); [reflexivity | lia].
Qed.

Lemma digits_value_from_decimal (ds : list ascii) (acc : Z) :
  all_digits ds ->
  digits_value_from 10 acc ds
  = Some (fold_left (fun a c => 10 * a + (code c - 48)) ds acc).
Proof.
  revert acc. induction ds as [|c ds IH]; intros acc Hall; simpl; [reflexivity|].
  inversion Hall; subst. rewrite digit_value_digit by assumption. apply IH. assumption.
Qed.

Lemma digits_value_decimal (ds : list ascii) :
  all_digits ds -> digits_value 10 ds = Some (decimal_value ds).
Proof. apply digits_value_from_decimal. Qed.

Lemma digits_value_from_hex (ds : list ascii) (acc : Z) :
  Forall (fun c => is_hex c = true) ds ->
  digits_value_from 16 acc ds
  = Some (fold_left (fun a c => 16 * a + hex_digit_value c) ds acc).
Proof.
  revert acc. induction ds as [|c ds IH]; intros acc Hall; simpl; [reflexivity|].
  inversion Hall; subst. rewrite digit_value_hex by assumption. apply IH. assumption.
Qed.

Lemma decimal_value_snoc (ds : list ascii) (c : ascii) :
  decimal_value (ds ++ [c]) = 10 * decimal_value ds + (code c - 48).
Proof. unfold decimal_value. rewrite fold_left_app. reflexivity. Qed.




Lemma decimal_value_nonneg (ds : list ascii) : all_digits ds -> 0 <= decimal_value ds.
Proof.
  induction ds as [|c ds IH] using rev_ind; intros Hall; [reflexivity|].
  apply Forall_app in Hall. destruct Hall as [Hds Hc]. inversion Hc; subst.
  rewrite decimal_value_snoc. specialize (IH Hds).
  assert (48 <= code c) by (unfold is_digit, between in *;
    match goal with Hb : _ && _ = true |- _ =>
      apply andb_true_iff in Hb; destruct Hb as [Hlo _]; apply Z.leb_le in Hlo; lia end).
  lia.
Qed.


(** *** White space *)

Lemma drop_while_keep {A} (p : A -> bool) (l : list A) :
  Forall (fun x => p x = false) l -> drop_while p l = l.
Proof. intros Hall. destruct Hall as [|x l Hx Hl]; simpl; [reflexivity | rewrite Hx; reflexivity]. Qed.

Lemma trim_keep (l : list ascii) :
  Forall (fun c => is_space c = false) l -> trim l = l.
Proof.
  intros Hall. unfold trim, trim_left.
  rewrite (drop_while_keep _ l Hall).
  rewrite drop_while_keep by (apply List.Forall_rev; assumption).
  apply rev_involutive.
Qed.

(** *** [BigInt] of a string *)

Lemma StringToBigInt_digits (s : string) :
  chars s <> [] -> all_digits (chars s) -> StringToBigInt s = Some (decimal_value (chars s)).
Proof.
  intros Hne Hall. unfold StringToBigInt. rewrite trim_keep.
  2:{ eapply Forall_impl; [exact Hall|]. intros c Hc. apply digit_not_space. exact Hc. }
  destruct (chars s) as [|c rest] eqn:Hs; [congruence|].
  pose proof Hall as Hall'. inversion Hall as [|c' rest' Hc Hrest]; subst.
  assert (Hcode : 48 <= code c <= 57) by (clear - Hc; char_class).
  rewrite (eqb_by_code c "+") by (change (code "+") with 43; lia).
  rewrite (eqb_by_code c "-") by (change (code "-") with 45; lia).
  assert (Hprefix : radix_prefix (c :: rest) = None).
  { unfold radix_prefix. destruct rest as [|p ds]; [reflexivity|].
    destruct (negb (c =? "0")%char); [reflexivity|].
    inversion Hrest as [|p' ds' Hp _]; subst.
    assert (Hpcode : 48 <= code p <= 57) by (clear - Hp; char_class).
    rewrite (eqb_by_code p "x") by (change (code "x") with 120; lia).
    rewrite (eqb_by_code p "X") by (change (code "X") with 88; lia).
    rewrite (eqb_by_code p "o") by (change (code "o") with 111; lia).
    rewrite (eqb_by_code p "O") by (change (code "O") with 79; lia).
    rewrite (eqb_by_code p "b") by (change (code "b") with 98; lia).
    rewrite (eqb_by_code p "B") by (change (code "B") with 66; lia).
    reflexivity. }
  rewrite Hprefix. apply digits_value_decimal. exact Hall'.
Qed.

Lemma StringToBigInt_address (s : string) :
  is_eth_address s -> StringToBigInt s = Some (address_value s).
Proof.
  intros (body & Hs & Hlen & Hall). unfold StringToBigInt, address_value.
  rewrite Hs. rewrite trim_keep.
  2:{ constructor; [reflexivity|]. constructor; [reflexivity|].
      eapply Forall_impl; [exact Hall|]. intros c Hc. apply hex_not_space. exact Hc. }
  cbn [Ascii.eqb radix_prefix negb orb]. simpl drop.
  change (("0" =? "+")%char) with false. change (("0" =? "-")%char) with false.
  cbv iota. change (("0" =? "0")%char) with true. change (("x" =? "x")%char) with true.
  cbn [negb orb]. unfold numeral.
  destruct body as [|c body']; [discriminate|].
  apply digits_value_from_hex. exact Hall.
Qed.

(** *** [bigint.toString()] and back *)






Section EthersFacts.
Context `{Host}.

Lemma getBigInt_digits (s : string) :
  chars s <> [] -> all_digits (chars s) ->
  getBigInt (JStr s) = Returns (decimal_value (chars s)).
Proof.
  intros Hne Hall. unfold getBigInt.
  rewrite StringToBigInt_digits by assumption.
  destruct (chars s) as [|c rest] eqn:Hs; [congruence|].
  inversion Hall as [|c' rest' Hc _]; subst.
  assert (Hcode : 48 <= code c <= 57) by (clear - Hc; char_class).
  rewrite (eqb_by_code c "-") by (change (code "-") with 45; lia).
  reflexivity.
Qed.


Lemma getBigInt_address (s : string) :
  is_eth_address s -> getBigInt (JStr s) = Returns (address_value s).
Proof.
  intros Haddr. unfold getBigInt. rewrite StringToBigInt_address by assumption.
  destruct Haddr as (body & -> & _). reflexivity.
Qed.

Lemma encode_uint_digits (bits : Z) (s : string) :
  chars s <> [] -> all_digits (chars s) ->
  decimal_value (chars s) < 2 ^ bits ->
  encode_uint bits (JStr s) = Returns (decimal_value (chars s)).
Proof.
  intros Hne Hall Hlt. unfold encode_uint. rewrite getBigInt_digits by assumption.
  simpl. pose proof (decimal_value_nonneg _ Hall).
  destruct (Z.ltb_spec (decimal_value (chars s)) 0); [lia|].
  destruct (Z.ltb_spec (2 ^ bits - 1) (decimal_value (chars s))); [lia|]. reflexivity.
Qed.



(** *** [parseUnits] *)






End EthersFacts.

Example parseUnits_example :
  parseUnits (JStr "1.5") (Some 18) = Returns 1500000000000000000.
Proof. vm_compute. reflexivity. Qed.

(** ** The ABI encoding of the policies *)

Section AbiFacts.
Context `{Host}.

Lemma plainAddressRe_eth (s : string) :
  is_eth_address s -> regex_test plainAddressRe s = true.
Proof.
  intros (body & Hs & Hlen & Hall). unfold regex_test, plainAddressRe.
  apply rmatch_Lang. rewrite Hs. apply Lang_seq.
  exists ["0"%char; "x"%char], body. split; [reflexivity|]. split.
  - apply Lang_opt. left. apply Lang_seq. exists ["0"%char], ["x"%char].
    split; [reflexivity|]. split; apply Lang_chr; reflexivity.
  - apply Lang_rep_set. auto.
Qed.

(** An address that [getAddress] accepts: well-formed, and either in one
    case or spelled with its checksum. *)
Lemma encode_address_eth (s : string) :
  is_eth_address s ->
  is_mixed_case s = false \/ has_checksum_case s = true ->
  encode_address (JStr s) = Returns (address_value s).
Proof.
  intros Haddr Hcase. unfold encode_address, getAddress.
  rewrite plainAddressRe_eth by assumption.
  assert (Hprefix : starts_with_0x s = true).
  { destruct Haddr as (body & Hs & _). unfold starts_with_0x. rewrite Hs. reflexivity. }
  rewrite Hprefix.
  assert (Hok : is_mixed_case s && negb (has_checksum_case s) = false).
  { destruct Hcase as [-> | ->]; [reflexivity | apply andb_false_r]. }
  rewrite Hok. change (Returns s ≫= ?k) with (k s). cbv beta.
  apply getBigInt_address. assumption.
Qed.

Lemma abi_encode_value_address (v : jsval) :
  abi_encode_value TAddress v = (n ← encode_address v; Returns [n]).
Proof. reflexivity. Qed.

Lemma abi_encode_value_uint (bits : Z) (v : jsval) :
  abi_encode_value (TUint bits) v = (n ← encode_uint bits v; Returns [n]).
Proof. reflexivity. Qed.

Lemma abi_encode_value_array (item : abi_type) (items : list jsval) :
  abi_encode_value (TArray item) (JArr items)
  = (coded ← mapM (abi_encode_value item) items;
     Returns (Z.of_nat (length items) :: pack (map (fun ws => (dynamic item, ws)) coded))).
Proof. reflexivity. Qed.

Lemma abi_encode_value_tuple (components : list (string * abi_type)) (v : jsval) :
  abi_encode_value (TTuple components) v
  = (values ← tuple_values components v;
     if negb (length components =? length values)%nat
     then Throws (JsError "types/value length mismatch")
     else coded ← encode_components components values; Returns (pack coded)).
Proof.
  simpl. destruct (tuple_values components v) as [values|e]; [|reflexivity].
  change (Returns values ≫= ?k) with (k values). cbv beta.
  destruct (negb (length components =? length values)%nat); [reflexivity|].
  f_equal. clear v. revert values.
  induction components as [|[name t] cs IH]; intros values; [reflexivity|].
  destruct values as [|x xs]; [reflexivity|].
  cbn [encode_components]. rewrite <- IH. reflexivity.
Qed.

Lemma returns_bind {A B} (a : A) (k : A -> completion B) : (Returns a ≫= k) = k a.
Proof. reflexivity. Qed.

Lemma mapM_addresses (addresses : list string) :
  Forall (fun s => is_eth_address s
                   /\ (is_mixed_case s = false \/ has_checksum_case s = true)) addresses ->
  mapM (abi_encode_value TAddress) (map JStr addresses)
  = Returns (map (fun s => [address_value s]) addresses).
Proof.
  induction 1 as [|s addresses [Haddr Hcase] _ IH]; [reflexivity|].
  simpl map. cbn [mapM]. rewrite abi_encode_value_address.
  rewrite (encode_address_eth s Haddr Hcase), IH. reflexivity.
Qed.

Lemma pack_from_static (offset : Z) (l : list (list Z)) :
  pack_from offset (map (fun ws => (false, ws)) l) = (concat l, []).
Proof.
  induction l as [|ws l IH]; [reflexivity|]. simpl. rewrite IH. reflexivity.
Qed.

Lemma pack_static (l : list (list Z)) : pack (map (fun ws => (false, ws)) l) = concat l.
Proof. unfold pack. rewrite pack_from_static. apply app_nil_r. Qed.

Lemma concat_singletons {A B} (f : A -> B) (l : list A) :
  concat (map (fun x => [f x]) l) = map f l.
Proof. induction l as [|x l IH]; [reflexivity|]. simpl. rewrite IH. reflexivity. Qed.

Lemma abi_encode_addresses (addresses : list string) :
  Forall (fun s => is_eth_address s
                   /\ (is_mixed_case s = false \/ has_checksum_case s = true)) addresses ->
  abi_encode_value (TArray TAddress) (JArr (map JStr addresses))
  = Returns (Z.of_nat (length addresses) :: map address_value addresses).
Proof.
  intros Hall. rewrite abi_encode_value_array, (mapM_addresses _ Hall), returns_bind.
  change (dynamic TAddress) with false.
  rewrite pack_static, concat_singletons, length_map. reflexivity.
Qed.


Lemma zissues_array (item : zschema) (v : jsval) :
  zissues (zparse (ZArray item) v) = []
  -> exists items, v = JArr items /\ Forall (fun x => zissues (zparse item x) = []) items.
Proof.
  destruct v; simpl; try discriminate. intros Hnone. exists items. split; [reflexivity|].
  destruct (flat_map zissues (map (zparse item) items)) eqn:Hflat; [|discriminate].
  apply flat_map_nil in Hflat. rewrite Forall_map in Hflat. exact Hflat.
Qed.

Lemma strip_object_accepted (shape : list (string * zschema)) (fields : list (string * jsval))
    (v : jsval) :
  parse (ZObject shape Strip) (JObj fields) = Returns v ->
  Forall (fun kt => zissues (zparse kt.2 (default JUndefined (assoc kt.1 fields))) = []) shape.
Proof.
  unfold parse. simpl. rewrite app_nil_r.
  destruct (flat_map _ _) eqn:Hflat; [|discriminate]. intros _.
  apply flat_map_nil in Hflat. rewrite Forall_map in Hflat. exact Hflat.
Qed.

Lemma accepted_addresses (v : jsval) (addresses : list string) :
  zissues (zparse (ZArray ethAddressString) v) = [] ->
  v = JArr (map JStr addresses) ->
  Forall is_eth_address addresses.
Proof.
  intros Hnone ->. apply zissues_array in Hnone.
  destruct Hnone as (items & Heq & Hall). inversion Heq; subst items.
  rewrite Forall_map in Hall. eapply Forall_impl; [exact Hall|].
  intros s Hs. unfold ethAddressString in Hs. cbn beta in Hs.
  apply zissues_regex_string in Hs. destruct Hs as (s' & Heq' & Hre).
  inversion Heq'; subst s'. apply ethAddressRe_spec. exact Hre.
Qed.



Lemma Forall_both {A} (P Q : A -> Prop) (l : list A) :
  Forall P l -> Forall Q l -> Forall (fun x => P x /\ Q x) l.
Proof.
  intros HP. induction HP as [|x l Hx Hl IH]; intros HQ; [constructor|].
  inversion HQ; subst. constructor; auto.
Qed.

End AbiFacts.



(** ** The policy of [lit-erc20-transfer] *)

Section TransferFacts.
Context `{Host}.

Lemma zparse_string_value (checks : list string_check) (v : jsval) :
  zissues (zparse (ZString checks) v) = [] -> zparse (ZString checks) v = ZOk v.
Proof.
  intros Hnone. apply zissues_string in Hnone. destruct Hnone as (s & -> & Hchecks).
  simpl. rewrite Hchecks. reflexivity.
Qed.

Lemma merge_pairs_string (fields : list (string * jsval)) (k s : string)
    (pairs : list (string * zresult)) :
  merge_pairs fields ((k, ZOk (JStr s)) :: pairs) = (k, JStr s) :: merge_pairs fields pairs.
Proof. reflexivity. Qed.

Lemma merge_pairs_strings (fields : list (string * jsval)) (shape : list (string * zschema)) :
  Forall (fun kt : string * zschema => exists checks, kt.2 = ZString checks) shape ->
  Forall (fun kt : string * zschema =>
            zissues (zparse kt.2 (default JUndefined (assoc kt.1 fields))) = []) shape ->
  merge_pairs fields
    (map (fun kt : string * zschema =>
            (kt.1, zparse kt.2 (default JUndefined (assoc kt.1 fields)))) shape)
  = map (fun kt : string * zschema => (kt.1, lookup_field fields kt.1)) shape.
Proof.
  intros Hstrings Hok. induction shape as [|[k t] shape IH]; [reflexivity|].
  apply Forall_cons_1 in Hstrings. destruct Hstrings as [[checks Ht] Hstrings].
  apply Forall_cons_1 in Hok. destruct Hok as [Hk Hok].
  cbn [fst snd] in Ht, Hk. subst t.
  pose proof (zparse_string_value _ _ Hk) as Hvalue.
  apply zissues_string in Hk. destruct Hk as (s & Hs & _).
  cbn [map fst snd]. rewrite Hvalue. unfold lookup_field at 1. rewrite Hs.
  rewrite merge_pairs_string, (IH Hstrings Hok). reflexivity.
Qed.

(** A strict object schema of string fields returns the fields of its
    shape with the values of the input. *)
Lemma string_object_parsed (shape : list (string * zschema))
    (fields : list (string * jsval)) (parsed : jsval) :
  Forall (fun kt : string * zschema => exists checks, kt.2 = ZString checks) shape ->
  parse (ZObject shape Strict) (JObj fields) = Returns parsed ->
  parsed = JObj (map (fun kt : string * zschema => (kt.1, lookup_field fields kt.1)) shape).
Proof.
  intros Hstrings Hparse.
  assert (Hok : is_ZOk (zparse (ZObject shape Strict) (JObj fields)) = true)
    by (apply parse_returns_iff; eauto).
  apply strict_object_accepts in Hok. destruct Hok as [Hfields Hkeys].
  apply filter_nil_keys in Hkeys.
  unfold parse in Hparse. cbn [zparse] in Hparse. rewrite Hkeys in Hparse.
  rewrite (merge_pairs_strings _ _ Hstrings Hfields) in Hparse.
  destruct (_ ++ _)%list; [|discriminate]. inversion Hparse. reflexivity.
Qed.

(** What [LitErc20TransferSchema.parse] returns: the six fields of the
    input. *)
Lemma LitErc20TransferSchema_parsed (input parsed : jsval) :
  parse LitErc20TransferSchema input = Returns parsed ->
  forall k, In k ["pkpEthAddress"; "tokenAddress"; "recipientAddress";
                  "amount"; "chainId"; "rpcUrl"] ->
            get_prop parsed k = get_prop input k.
Proof.
  intros Hparse k Hk.
  destruct input as [| | | | |items|fields]; try discriminate.
  unfold LitErc20TransferSchema, ethAddressString in Hparse.
  apply string_object_parsed in Hparse; [|repeat constructor; eexists; reflexivity].
  subst parsed. cbn [map fst snd get_prop].
  repeat (destruct Hk as [<- | Hk]; [reflexivity|]). destruct Hk.
Qed.

End TransferFacts.


(** In a world that answers, the transfer is executed with that policy. *)
Example erc20_transfer_run :
  exists sessionSigs ipfsCid,
    calls_to client_executeJs
      (log (@TS.lit_erc20_transfer example_host answering_world JUndefined
              (JObj [("pkpEthAddress", JStr "0x3333333333333333333333333333333333333333");
                     ("tokenAddress", JStr "0x1111111111111111111111111111111111111111");
                     ("recipientAddress", JStr "0x2222222222222222222222222222222222222222");
                     ("amount", JStr "1.5"); ("chainId", JStr "8453");
                     ("rpcUrl", JStr "https://mainnet.base.org")])
              (initial_state ∅)).2)
    = [{| api := client_executeJs;
          args := [JObj [("sessionSigs", sessionSigs);
                         ("ipfsId", ipfsCid);
                         ("jsParams",
                          JObj [("params",
                                 JObj [("pkpEthAddress",
                                        JStr "0x3333333333333333333333333333333333333333");
                                       ("tokenIn",
                                        JStr "0x1111111111111111111111111111111111111111");
                                       ("recipientAddress",
                                        JStr "0x2222222222222222222222222222222222222222");
                                       ("amountIn", JStr "1.5");
                                       ("chainId", JStr "8453");
                                       ("rpcUrl", JStr "https://mainnet.base.org");
                                       ("encodedPolicy",
                                        JStr (hexlify_words
                                                (erc20_policy_words 18 1500000000000000000
                                                   [address_value "0x1111111111111111111111111111111111111111"]
                                                   [address_value "0x2222222222222222222222222222222222222222"])))])])]] |}].
Proof. do 2 eexists. vm_compute. reflexivity. Qed.

(** ** The policy of [lit-uniswap-swap] *)

Lemma digits_value_from_dot (acc : Z) (ds rest : list ascii) :
  digits_value_from 10 acc (ds ++ "."%char :: rest) = None.
Proof.
  revert acc. induction ds as [|c ds IH]; intros acc; simpl; [reflexivity|].
  destruct (digit_value 10 c); [apply IH | reflexivity].
Qed.

Lemma not_letter_prefix (p : ascii) (rest : list ascii) (z : ascii) :
  is_digit p = true \/ p = "."%char -> radix_prefix (z :: p :: rest) = None.
Proof.
  intros Hp. unfold radix_prefix. destruct (negb (z =? "0")%char); [reflexivity|].
  assert (Hcode : 46 <= code p <= 57).
  { destruct Hp as [Hp | ->]; [clear - Hp; char_class | vm_compute; split; discriminate]. }
  rewrite (eqb_by_code p "x") by (change (code "x") with 120; lia).
  rewrite (eqb_by_code p "X") by (change (code "X") with 88; lia).
  rewrite (eqb_by_code p "o") by (change (code "o") with 111; lia).
  rewrite (eqb_by_code p "O") by (change (code "O") with 79; lia).
  rewrite (eqb_by_code p "b") by (change (code "b") with 98; lia).
  rewrite (eqb_by_code p "B") by (change (code "B") with 66; lia).
  reflexivity.
Qed.

(** A decimal string with a fraction is not a [BigNumberish]: [BigInt]
    has no syntax for a dot. *)
Lemma getBigInt_fraction (s : string) (whole fraction : list ascii) :
  all_digits whole -> all_digits fraction ->
  chars s = (whole ++ "."%char :: fraction)%list ->
  getBigInt (JStr s) = Throws (JsError "invalid BigNumberish string").
Proof.
  intros Hwhole Hfraction Hs.
  assert (Hchars : Forall (fun c => is_digit c = true \/ c = "."%char) (chars s)).
  { rewrite Hs. apply Forall_app. split.
    - eapply Forall_impl; [exact Hwhole|]. auto.
    - constructor; [auto|]. eapply Forall_impl; [exact Hfraction|]. auto. }
  assert (Hcode : forall c, is_digit c = true \/ c = "."%char -> 46 <= code c <= 57).
  { intros c [Hc | ->]; [clear - Hc; char_class | vm_compute; split; discriminate]. }
  assert (Hnone : StringToBigInt s = None).
  { unfold StringToBigInt. rewrite trim_keep.
    2:{ eapply Forall_impl; [exact Hchars|]. intros c Hc. specialize (Hcode c Hc).
        clear - Hcode. char_class. }
    destruct (chars s) as [|c rest] eqn:Hcs; [destruct whole; discriminate|].
    inversion Hchars as [|c' rest' Hc Hrest]; subst.
    specialize (Hcode c Hc).
    rewrite (eqb_by_code c "+") by (change (code "+") with 43; lia).
    rewrite (eqb_by_code c "-") by (change (code "-") with 45; lia).
    assert (Hprefix : radix_prefix (c :: rest) = None).
    { destruct rest as [|p rest']; [reflexivity|].
      inversion Hrest; subst. apply not_letter_prefix. assumption. }
    rewrite Hprefix, Hs. apply digits_value_from_dot. }
  unfold getBigInt. rewrite Hnone.
  destruct (chars s) as [|c rest] eqn:Hcs; [reflexivity|].
  inversion Hchars as [|c' rest' Hc Hrest]; subst. specialize (Hcode c Hc).
  rewrite (eqb_by_code c "-") by (change (code "-") with 45; lia). reflexivity.
Qed.

(** [UniswapSwapPolicy.encode] hands [maxAmount] to the [uint256] coder as
    it is, so it throws on every amount that has a fraction. *)
Lemma UniswapSwapPolicy_encode_rejects_fractions `{Host}
    (amount : string) (tokenIn tokenOut : jsval) (whole fraction : list ascii) :
  all_digits whole -> all_digits fraction ->
  chars amount = (whole ++ "."%char :: fraction)%list ->
  exists e, UniswapSwapPolicy_encode (uniswap_policy (JStr amount) tokenIn tokenOut) = Throws e.
Proof.
  intros Hwhole Hfraction Hs. unfold UniswapSwapPolicy_encode.
  destruct (parse uniswapSwapPolicySchema _) as [parsed|e]; [|eauto].
  rewrite returns_bind. unfold uniswap_policy. cbn [get_prop assoc String.eqb Ascii.eqb Bool.eqb default option_rect id].
  rewrite !returns_bind. unfold abi_encode. cbn [length Nat.eqb negb map].
  rewrite abi_encode_value_tuple. cbn [tuple_values]. rewrite returns_bind.
  cbn [length Nat.eqb negb encode_components].
  rewrite abi_encode_value_tuple.
  cbn [tuple_values map fst assoc String.eqb Ascii.eqb Bool.eqb default option_rect id].
  rewrite returns_bind. cbn [length Nat.eqb negb encode_components].
  rewrite abi_encode_value_uint. unfold encode_uint.
  rewrite (getBigInt_fraction amount whole fraction Hwhole Hfraction Hs).
  eexists. reflexivity.
Qed.

(** C2, at the failing input.  The swap request with [amountIn] ["1.5"] is
    accepted by [LitUniswapSwapSchema], yet [UniswapSwapPolicy.encode] throws
    on the policy the handler builds from it, and the handler answers with
    the failure envelope; [ERC20TransferPolicy.encode], which goes through
    [parseUnits], encodes the same amount. *)
Theorem uniswap_swap_decimal_amount_fails :
  @parse example_host LitUniswapSwapSchema decimal_swap_request
  = Returns decimal_swap_request
  /\ @UniswapSwapPolicy_encode example_host
       (uniswap_policy (JStr "1.5")
          (JStr "0x1111111111111111111111111111111111111111")
          (JStr "0x2222222222222222222222222222222222222222"))
     = Throws (JsError "invalid BigNumberish string")
  /\ (@TS.lit_uniswap_swap example_host answering_world JUndefined decimal_swap_request
        (initial_state ∅)).1
     = Returns (failure_envelope "Uniswap swap failed: invalid BigNumberish string")
  /\ (@JS.lit_uniswap_swap example_host answering_world JUndefined decimal_swap_request
        (initial_state ∅)).1
     = Returns (failure_envelope "Uniswap swap failed: invalid BigNumberish string")
  /\ @ERC20TransferPolicy_encode example_host
       (erc20_policy (JStr "1.5")
          (JStr "0x1111111111111111111111111111111111111111")
          (JStr "0x2222222222222222222222222222222222222222"))
     = Returns (hexlify_words
                  (erc20_policy_words 18 1500000000000000000
                     [address_value "0x1111111111111111111111111111111111111111"]
                     [address_value "0x2222222222222222222222222222222222222222"])).
Proof. repeat split; vm_compute; reflexivity. Qed.

(** ** Default filling *)








Section DefaultFacts.
Context `{Host} (W : World).






End DefaultFacts.



(** A supplied path is used when it is not empty. *)
Example supplied_envFilePath_is_used :
  calls_to fs_readFile
    (log (@TS.lit_encrypt_env example_host quiet_world JUndefined
            (JObj [("envFilePath", JStr "prod.env")]) (initial_state ∅)).2)
  = [{| api := fs_readFile; args := [JStr "prod.env"; JStr "utf-8"] |}].
Proof. vm_compute. reflexivity. Qed.

(** ** The swap policy and the signing policy *)

Section PolicyFacts.
Context `{Host}.


Lemma uniswap_tuple_encoding (a : string) (tokens : list string) :
  chars a <> [] -> all_digits (chars a) -> decimal_value (chars a) < 2 ^ 256 ->
  Forall (fun s => is_eth_address s
                   /\ (is_mixed_case s = false \/ has_checksum_case s = true)) tokens ->
  abi_encode
    [TTuple [("maxAmount", TUint 256); ("allowedTokens", TArray TAddress)]]
    [JObj [("maxAmount", JStr a); ("allowedTokens", JArr (map JStr tokens))]]
  = Returns (hexlify_words
               (uniswap_policy_words (decimal_value (chars a))
                  (map address_value tokens))).
Proof.
  intros Hne Hdigits Hbound Htokens.
  unfold abi_encode. cbn [length Nat.eqb negb map].
  rewrite abi_encode_value_tuple. cbn [tuple_values]. rewrite returns_bind.
  cbn [length Nat.eqb negb encode_components].
  rewrite abi_encode_value_tuple.
  cbn [tuple_values map fst assoc String.eqb Ascii.eqb Bool.eqb default option_rect id].
  rewrite returns_bind. cbn [length Nat.eqb negb encode_components].
  rewrite abi_encode_value_uint.
  rewrite (encode_uint_digits 256 a Hne Hdigits Hbound), !returns_bind.
  rewrite (abi_encode_addresses tokens Htokens), !returns_bind.
  change (dynamic (TUint 256)) with false.
  change (dynamic (TArray TAddress)) with true.
  change (dynamic (TTuple _)) with true.
  f_equal. f_equal. unfold uniswap_policy_words, pack, head_words.
  cbn [fold_right fst snd pack_from length app].
  rewrite !length_map, ?app_nil_r. reflexivity.
Qed.

(** The tokens of a swap policy that the schema accepts are well-formed. *)
Lemma accepted_swap_tokens (fields : list (string * jsval)) (parsed : jsval)
    (tokens : list string) :
  parse uniswapSwapPolicySchema (JObj fields) = Returns parsed ->
  assoc "allowedTokens" fields = Some (JArr (map JStr tokens)) ->
  Forall is_eth_address tokens.
Proof.
  intros Hparse Htokens.
  pose proof (strip_object_accepted _ _ _ Hparse) as Hfields.
  unfold uniswapSwapPolicySchema in Hfields.
  do 3 (apply Forall_cons_1 in Hfields; destruct Hfields as [_ Hfields]).
  apply Forall_cons_1 in Hfields. destruct Hfields as [Htok _].
  cbn [fst snd] in Htok. rewrite Htokens in Htok.
  exact (accepted_addresses _ tokens Htok eq_refl).
Qed.

(** X2.  For a policy that the swap policy schema accepts, whose
    [maxAmount] is a non-empty string of decimal digits denoting a number
    below [2^256] and whose tokens pass ethers' checksum test,
    [UniswapSwapPolicy.encode] returns the ABI encoding of
    [(maxAmount, allowedTokens)]: the amount is the integer the digits
    denote, not scaled by any number of decimals. *)
Theorem UniswapSwapPolicy_encode_integer (fields : list (string * jsval)) (parsed : jsval)
    (a : string) (tokens : list string) :
  parse uniswapSwapPolicySchema (JObj fields) = Returns parsed ->
  assoc "maxAmount" fields = Some (JStr a) ->
  chars a <> [] -> all_digits (chars a) -> decimal_value (chars a) < 2 ^ 256 ->
  assoc "allowedTokens" fields = Some (JArr (map JStr tokens)) ->
  Forall (fun s => is_mixed_case s = false \/ has_checksum_case s = true) tokens ->
  UniswapSwapPolicy_encode (JObj fields)
  = Returns (hexlify_words
               (uniswap_policy_words (decimal_value (chars a))
                  (map address_value tokens))).
Proof.
  intros Hparse Ha Hne Hdigits Hbound Htokens Hcase.
  pose proof (accepted_swap_tokens _ _ _ Hparse Htokens) as Hwell.
  pose proof (Forall_both _ _ _ Hwell Hcase) as Haddrs.
  unfold UniswapSwapPolicy_encode. rewrite Hparse, returns_bind.
  cbn [get_prop]. rewrite !returns_bind, Ha, Htokens. cbn [default option_rect id].
  apply uniswap_tuple_encoding; assumption.
Qed.

(** *** [string[]] *)

Lemma mapM_strings (l : list string) :
  mapM (abi_encode_value TString) (map JStr l) = Returns (map string_words l).
Proof.
  induction l as [|s l IH]; [reflexivity|].
  cbn [map mapM]. rewrite IH. reflexivity.
Qed.

Lemma pack_from_dynamic (offset : Z) (l : list string) :
  pack_from offset (map (fun ws => (true, ws)) (map string_words l))
  = (string_offsets offset l, concat (map string_words l)).
Proof.
  revert offset. induction l as [|s l IH]; intros offset; [reflexivity|].
  cbn [map pack_from string_offsets concat]. rewrite IH. reflexivity.
Qed.

Lemma head_words_dynamic (l : list (list Z)) :
  head_words (map (fun ws => (true, ws)) l) = Z.of_nat (length l).
Proof.
  induction l as [|ws l IH]; [reflexivity|].
  unfold head_words in *. cbn [map fold_right fst length]. rewrite IH. lia.
Qed.

Lemma abi_encode_strings (l : list string) :
  abi_encode_value (TArray TString) (JArr (map JStr l))
  = Returns (Z.of_nat (length l)
               :: (string_offsets (32 * Z.of_nat (length l)) l
                     ++ concat (map string_words l))%list).
Proof.
  rewrite abi_encode_value_array, mapM_strings, returns_bind.
  change (dynamic TString) with true. unfold pack.
  rewrite head_words_dynamic, pack_from_dynamic, !length_map. reflexivity.
Qed.

(** The values that [z.array(z.string())] accepts. *)
Lemma accepted_strings (v : jsval) :
  zissues (zparse (ZArray (ZString [])) v) = [] ->
  exists l, v = JArr (map JStr l).
Proof.
  intros Hnone. apply zissues_array in Hnone. destruct Hnone as (items & -> & Hall).
  induction items as [|x items IH].
  - exists []. reflexivity.
  - apply Forall_cons_1 in Hall. destruct Hall as [Hx Hall].
    destruct (IH Hall) as (l & Hl). apply zissues_string in Hx.
    destruct Hx as (s & -> & _). exists (s :: l). inversion Hl. reflexivity.
Qed.

End PolicyFacts.


Lemma UniswapSwapPolicy_encode_integer_witness :
  @UniswapSwapPolicy_encode example_host
    (uniswap_policy_object "1500"
       ["0x1111111111111111111111111111111111111111";
        "0x2222222222222222222222222222222222222222"])
  = Returns (hexlify_words
               (uniswap_policy_words 1500
                  [address_value "0x1111111111111111111111111111111111111111";
                   address_value "0x2222222222222222222222222222222222222222"])).
Proof.
  refine (@UniswapSwapPolicy_encode_integer example_host
            [("type", JStr "UniswapSwap"); ("version", JStr "1.0.0");
             ("maxAmount", JStr "1500");
             ("allowedTokens",
              JArr (map JStr ["0x1111111111111111111111111111111111111111";
                              "0x2222222222222222222222222222222222222222"]))]
            _ "1500"
            ["0x1111111111111111111111111111111111111111";
             "0x2222222222222222222222222222222222222222"]
            _ eq_refl _ _ _ eq_refl _).
  - vm_compute. reflexivity.
  - discriminate.
  - repeat constructor.
  - vm_compute. reflexivity.
  - repeat constructor.
Defined.


Example SignEcdsaPolicy_encode_hello :
  @SignEcdsaPolicy_encode example_host (ecdsa_policy (JStr "hello"))
  = Returns (hexlify_words
               [32; 32; 1; 32; 5;
                0x68656c6c6f000000000000000000000000000000000000000000000000000000]).
Proof. vm_compute. reflexivity. Qed.

(** ** What the PKP actions hand to [client.executeJs] *)

Section RequestFacts.
Context `{Host}.

Lemma LitEcdsaSignSchema_parsed (input parsed : jsval) :
  parse LitEcdsaSignSchema input = Returns parsed ->
  forall k, In k ["pkpEthAddress"; "message"] -> get_prop parsed k = get_prop input k.
Proof.
  intros Hparse k Hk.
  destruct input as [| | | | |items|fields]; try discriminate.
  unfold LitEcdsaSignSchema, ethAddressString in Hparse.
  apply string_object_parsed in Hparse; [|repeat constructor; eexists; reflexivity].
  subst parsed. cbn [map fst snd get_prop].
  repeat (destruct Hk as [<- | Hk]; [reflexivity|]). destruct Hk.
Qed.


(** The items that [z.array(ethereumAddressSchema)] accepts. *)
Lemma accepted_address_items (items : list jsval) :
  zissues (zparse (ZArray ethAddressString) (JArr items)) = [] ->
  Forall (fun x => exists s, x = JStr s /\ is_eth_address s) items.
Proof.
  intros Hnone. apply zissues_array in Hnone.
  destruct Hnone as (items' & Heq & Hall). inversion Heq; subst items'.
  eapply Forall_impl; [exact Hall|]. intros x Hx. unfold ethAddressString in Hx.
  apply zissues_regex_string in Hx. destruct Hx as (s & -> & Hre).
  exists s. split; [reflexivity | apply ethAddressRe_spec; exact Hre].
Qed.


(** What a signing policy that encodes was built from. *)
Lemma SignEcdsaPolicy_encode_message (message : jsval) (encodedPolicy : string) :
  SignEcdsaPolicy_encode (ecdsa_policy message) = Returns encodedPolicy ->
  exists m, message = JStr m
            /\ encodedPolicy = hexlify_words (ecdsa_policy_words [m]).
Proof.
  unfold SignEcdsaPolicy_encode. intros Henc.
  destruct (parse signEcdsaPolicySchema (ecdsa_policy message)) as [parsed|e] eqn:Hparse;
    [|discriminate].
  pose proof (strip_object_accepted _ _ _ Hparse) as Hfields.
  unfold signEcdsaPolicySchema in Hfields.
  do 2 (apply Forall_cons_1 in Hfields; destruct Hfields as [_ Hfields]).
  apply Forall_cons_1 in Hfields. destruct Hfields as [Hprefixes _].
  unfold ecdsa_policy in Hprefixes. cbn [fst snd assoc String.eqb Ascii.eqb Bool.eqb default option_rect id] in Hprefixes.
  apply accepted_strings in Hprefixes.
  destruct Hprefixes as ([|m [|m' l]] & Hl); try discriminate.
  inversion Hl; subst message. exists m. split; [reflexivity|].
  rewrite returns_bind in Henc. unfold ecdsa_policy in Henc.
  cbn [get_prop assoc String.eqb Ascii.eqb Bool.eqb default option_rect id] in Henc.
  rewrite returns_bind in Henc. unfold abi_encode in Henc.
  cbn [length Nat.eqb negb map] in Henc.
  rewrite abi_encode_value_tuple in Henc. cbn [tuple_values] in Henc.
  rewrite returns_bind in Henc. cbn [length Nat.eqb negb encode_components] in Henc.
  rewrite abi_encode_value_tuple in Henc.
  cbn [tuple_values map fst assoc String.eqb Ascii.eqb Bool.eqb default option_rect id]
    in Henc.
  rewrite returns_bind in Henc. cbn [length Nat.eqb negb encode_components] in Henc.
  rewrite (abi_encode_strings [m]) in Henc. rewrite !returns_bind in Henc.
  injection Henc as <-. f_equal.
  change (dynamic (TArray TString)) with true.
  change (dynamic (TTuple _)) with true.
  unfold ecdsa_policy_words, pack, head_words.
  cbn [fold_right fst snd pack_from length app string_offsets concat map].
  unfold string_words. cbn [app]. rewrite ?app_nil_r. reflexivity.
Qed.


(** What a transfer policy that encodes was built from. *)
Lemma ERC20TransferPolicy_encode_request (amount tokenAddress recipientAddress : jsval)
    (encodedPolicy : string) :
  ERC20TransferPolicy_encode (erc20_policy amount tokenAddress recipientAddress)
  = Returns encodedPolicy ->
  exists a token recipient units,
    amount = JStr a /\ tokenAddress = JStr token /\ recipientAddress = JStr recipient
    /\ is_eth_address token /\ is_eth_address recipient
    /\ parseUnits (JStr a) (Some 18) = Returns units.
Proof.
  unfold ERC20TransferPolicy_encode. intros Henc.
  destruct (parse erc20TransferPolicySchema _) as [parsed|e] eqn:Hparse; [|discriminate].
  pose proof (strip_object_accepted _ _ _ Hparse) as Hfields.
  unfold erc20TransferPolicySchema in Hfields.
  do 3 (apply Forall_cons_1 in Hfields; destruct Hfields as [_ Hfields]).
  apply Forall_cons_1 in Hfields. destruct Hfields as [Hamount Hfields].
  apply Forall_cons_1 in Hfields. destruct Hfields as [Htokens Hfields].
  apply Forall_cons_1 in Hfields. destruct Hfields as [Hrecipients _].
  unfold erc20_policy in Hamount, Htokens, Hrecipients.
  cbn [fst snd assoc String.eqb Ascii.eqb Bool.eqb default option_rect id] in Hamount, Htokens, Hrecipients.
  apply zissues_string in Hamount. destruct Hamount as (a & -> & _).
  apply accepted_address_items in Htokens, Hrecipients.
  apply Forall_cons_1 in Htokens. destruct Htokens as [(token & -> & Ht) _].
  apply Forall_cons_1 in Hrecipients. destruct Hrecipients as [(recipient & -> & Hr) _].
  exists a, token, recipient.
  rewrite returns_bind in Henc. unfold erc20_policy in Henc.
  cbn [get_prop assoc String.eqb Ascii.eqb Bool.eqb default option_rect id] in Henc.
  rewrite !returns_bind in Henc.
  change (js_Number (JStr "18")) with (Some 18) in Henc.
  destruct (parseUnits (JStr a) (Some 18)) as [units|e] eqn:Hunits; [|discriminate].
  exists units. auto 10.
Qed.
End RequestFacts.

Ltac each_action :=
  repeat match goal with
         | |- Forall _ (_ :: _) => apply List.Forall_cons; [intros ? |]
         | |- Forall _ [] => apply List.Forall_nil
         end.

Section RequestTheorems.
Context `{Host} (W : World) (config : jsval).

(** X4.  Every [client.executeJs] call of a signing action (in the three
    providers) carries the message of the request, which is a string, the
    [pkpEthAddress] of the request, and the encoding of the policy whose
    only allowed prefix is that message. *)
Theorem ecdsa_sign_policy_is_the_message :
  Forall (fun sign : jsval -> M jsval =>
            forall input,
              calls_only (fun c => api c = client_executeJs -> signs_exactly input c)
                         (sign input))
         (sign_actions W config).
Proof.
  unfold sign_actions. each_action; calls_tac; intros _;
    repeat match goal with
           | Hp : parse LitEcdsaSignSchema _ = Returns _,
             Hg : get_prop _ ?k = Returns _ |- _ =>
               rewrite (LitEcdsaSignSchema_parsed _ _ Hp k) in Hg by (simpl; tauto)
           end;
    lazymatch goal with
    | Henc : SignEcdsaPolicy_encode _ = Returns _ |- _ =>
        apply SignEcdsaPolicy_encode_message in Henc; destruct Henc as (m & -> & ->)
    end;
    unfold signs_exactly; do 4 eexists; repeat split; eauto.
Qed.



(** X6.  Every [client.executeJs] call of a transfer action (in the three
    providers, two of which do not validate their input) carries a token
    and a recipient that are well-formed Ethereum addresses and an amount
    that [parseUnits] accepts: a request with a malformed address or amount
    is never executed. *)
Theorem erc20_transfer_request_is_checked :
  Forall (fun transfer : jsval -> M jsval =>
            forall input,
              calls_only (fun c => api c = client_executeJs -> transfers_checked input c)
                         (transfer input))
         (transfer_actions W config).
Proof.
  unfold transfer_actions. each_action; calls_tac; intros _;
    repeat match goal with
           | Hp : parse LitErc20TransferSchema _ = Returns _,
             Hg : get_prop _ ?k = Returns _ |- _ =>
               rewrite (LitErc20TransferSchema_parsed _ _ Hp k) in Hg by (simpl; tauto)
           end;
    lazymatch goal with
    | Henc : ERC20TransferPolicy_encode _ = Returns _ |- _ =>
        apply ERC20TransferPolicy_encode_request in Henc;
        destruct Henc as (amt & tok & rcp & units & -> & -> & -> & Ht & Hr & Hunits)
    end;
    unfold transfers_checked; exists tok, rcp, amt, units;
    repeat split; eauto.
Qed.
End RequestTheorems.


(** ** The other input schemas *)

Section MoreSchemaFacts.
Context `{Host}.

Lemma has_shape_key_In (k : string) (shape : list (string * zschema)) :
  has_shape_key k shape = true <-> In k (map fst shape).
Proof.
  unfold has_shape_key. rewrite existsb_exists, in_map_iff. split.
  - intros (kt & Hin & Heq). apply String.eqb_eq in Heq. exists kt. auto.
  - intros (kt & Heq & Hin). exists kt. split; [assumption|].
    apply String.eqb_eq. auto.
Qed.

Lemma shape_keys (shape : list (string * zschema)) (keys : list string) :
  Forall (fun k => has_shape_key k shape = true) keys
  <-> forall k, In k keys -> In k (map fst shape).
Proof.
  rewrite List.Forall_forall. apply forall_proper. intros k.
  rewrite has_shape_key_In. reflexivity.
Qed.

(** X7.  [LitUniswapSwapSchema.parse] accepts an input exactly when it is
    an object whose [pkpEthAddress], [tokenIn] and [tokenOut] are strings of
    the form [0x] followed by forty hex digits, whose [amountIn] is a string
    of digits with an optional dot before a non-empty run of final digits,
    whose [chainId] is a non-empty string of digits, whose [rpcUrl] is a
    string that parses as a URL, and which has no key besides these six. *)
Theorem LitUniswapSwapSchema_accepts (input : jsval) :
  (exists v, parse LitUniswapSwapSchema input = Returns v)
  <-> exists fields,
        input = JObj fields
        /\ (exists s, assoc "pkpEthAddress" fields = Some (JStr s) /\ is_eth_address s)
        /\ (exists s, assoc "tokenIn" fields = Some (JStr s) /\ is_eth_address s)
        /\ (exists s, assoc "tokenOut" fields = Some (JStr s) /\ is_eth_address s)
        /\ (exists s, assoc "amountIn" fields = Some (JStr s) /\ is_decimal_number s)
        /\ (exists s, assoc "chainId" fields = Some (JStr s) /\ is_chain_id s)
        /\ (exists s, assoc "rpcUrl" fields = Some (JStr s) /\ URL_canParse s = true)
        /\ (forall k, In k (map fst fields) ->
                      In k ["pkpEthAddress"; "tokenIn"; "tokenOut";
                            "amountIn"; "chainId"; "rpcUrl"]).
Proof.
  rewrite parse_returns_iff.
  destruct input as [| | | | |items|fields];
    try (split; [discriminate | intros (fields' & Heq & _); discriminate]).
  unfold LitUniswapSwapSchema. rewrite strict_object_accepts, shape_keys.
  unfold ethAddressString.
  rewrite !Forall_cons, Forall_nil. cbn [fst snd map].
  rewrite !zissues_regex_string, zissues_url_string.
  setoid_rewrite default_assoc_string.
  setoid_rewrite ethAddressRe_spec. setoid_rewrite decimalRe_spec.
  setoid_rewrite chainIdRe_spec.
  split.
  - intros [(H1 & H2 & H3 & H4 & H5 & H6 & _) Hk]. exists fields. tauto.
  - intros (fields' & Heq & H1 & H2 & H3 & H4 & H5 & H6 & Hk).
    inversion Heq; subst fields'. tauto.
Qed.

(** X8.  [LitEcdsaSignSchema.parse] accepts an input exactly when it is an
    object whose [pkpEthAddress] is a string of the form [0x] followed by
    forty hex digits, whose [message] is a string (any string, the empty one
    too), and which has no other key. *)
Theorem LitEcdsaSignSchema_accepts (input : jsval) :
  (exists v, parse LitEcdsaSignSchema input = Returns v)
  <-> exists fields,
        input = JObj fields
        /\ (exists s, assoc "pkpEthAddress" fields = Some (JStr s) /\ is_eth_address s)
        /\ (exists s, assoc "message" fields = Some (JStr s))
        /\ (forall k, In k (map fst fields) -> In k ["pkpEthAddress"; "message"]).
Proof.
  rewrite parse_returns_iff.
  destruct input as [| | | | |items|fields];
    try (split; [discriminate | intros (fields' & Heq & _); discriminate]).
  unfold LitEcdsaSignSchema. rewrite strict_object_accepts, shape_keys.
  unfold ethAddressString.
  rewrite !Forall_cons, Forall_nil. cbn [fst snd map].
  rewrite zissues_regex_string, zissues_string.
  setoid_rewrite default_assoc_string.
  setoid_rewrite ethAddressRe_spec.
  split.
  - intros [(H1 & (s & Hs & _) & _) Hk]. exists fields. eauto 10.
  - intros (fields' & Heq & H1 & (s & Hs) & Hk).
    inversion Heq; subst fields'. split; [|exact Hk].
    split; [exact H1|]. split; [|exact I]. exists s. split; [exact Hs | reflexivity].
Qed.

(** *** Optional fields and defaults *)

Lemma zissues_optional_string (fields : list (string * jsval)) (k : string) :
  zissues (zparse (ZOptional (ZString [])) (default JUndefined (assoc k fields))) = []
  <-> optional_string (assoc k fields).
Proof.
  unfold optional_string.
  destruct (assoc k fields) as [[]|]; simpl; split; intros Hx; eauto;
    try discriminate; destruct Hx as [Hx | [Hx | [s Hx]]]; discriminate.
Qed.

Lemma zissues_default_string (fields : list (string * jsval)) (k d : string) :
  zissues (zparse (ZDefault (ZOptional (ZString [])) (JStr d))
                  (default JUndefined (assoc k fields))) = []
  <-> optional_string (assoc k fields).
Proof.
  unfold optional_string.
  destruct (assoc k fields) as [[]|]; simpl; split; intros Hx; eauto;
    try discriminate; destruct Hx as [Hx | [Hx | [s Hx]]]; discriminate.
Qed.

Lemma zissues_optional_number (fields : list (string * jsval)) (k : string) :
  zissues (zparse (ZOptional ZNumber) (default JUndefined (assoc k fields))) = []
  <-> optional_number (assoc k fields).
Proof.
  unfold optional_number.
  destruct (assoc k fields) as [[| | |f| | |]|]; simpl;
    try (split; intros Hx; eauto; try discriminate;
         destruct Hx as [Hx | [Hx | (f' & Hx & _)]]; discriminate).
  destruct (PrimFloat.is_nan f) eqn:Hnan; simpl; split; intros Hx; eauto;
    try discriminate.
  destruct Hx as [Hx | [Hx | (f' & Hx & Hn)]]; try discriminate.
  inversion Hx; subst f'. congruence.
Qed.

(** X9.  [HelloLitSchema.parse] accepts an input exactly when it is an
    object whose [magicNumber] is absent, [undefined], or a number other
    than [NaN] (zero included), and which has no other key. *)
Theorem HelloLitSchema_accepts (input : jsval) :
  (exists v, parse HelloLitSchema input = Returns v)
  <-> exists fields,
        input = JObj fields
        /\ optional_number (assoc "magicNumber" fields)
        /\ (forall k, In k (map fst fields) -> k = "magicNumber").
Proof.
  rewrite parse_returns_iff.
  destruct input as [| | | | |items|fields];
    try (split; [discriminate | intros (fields' & Heq & _); discriminate]).
  unfold HelloLitSchema. rewrite strict_object_accepts, shape_keys.
  rewrite !Forall_cons, Forall_nil. cbn [fst snd map].
  rewrite zissues_optional_number.
  split.
  - intros [[H1 _] Hk]. exists fields. split; [reflexivity|]. split; [exact H1|].
    intros k Hin. destruct (Hk k Hin) as [<- | []]. reflexivity.
  - intros (fields' & Heq & H1 & Hk). inversion Heq; subst fields'.
    split; [split; [exact H1 | exact I]|].
    intros k Hin. left. symmetry. exact (Hk k Hin).
Qed.

(** X10.  [EncryptEnvSchema.parse] accepts an input exactly when it is an
    object whose [envFilePath], [outputPath] and [walletAddress] are each
    absent, [undefined] or a string, and which has no other key.  The value
    it returns has the string supplied for [envFilePath] and [outputPath],
    the empty string too, and [".env"] and [".env.encrypted"] where none was
    supplied; [walletAddress] is passed on. *)
Theorem EncryptEnvSchema_defaults (input : jsval) :
  ((exists v, parse EncryptEnvSchema input = Returns v)
   <-> exists fields,
         input = JObj fields
         /\ optional_string (assoc "envFilePath" fields)
         /\ optional_string (assoc "outputPath" fields)
         /\ optional_string (assoc "walletAddress" fields)
         /\ (forall k, In k (map fst fields) ->
                       In k ["envFilePath"; "outputPath"; "walletAddress"]))
  /\ (forall fields parsed,
         input = JObj fields ->
         parse EncryptEnvSchema input = Returns parsed ->
         get_prop parsed "envFilePath"
         = Returns (string_or_default (assoc "envFilePath" fields) ".env")
         /\ get_prop parsed "outputPath"
            = Returns (string_or_default (assoc "outputPath" fields) ".env.encrypted")
         /\ get_prop parsed "walletAddress"
            = Returns (default JUndefined (assoc "walletAddress" fields))).
Proof.
  split.
  - rewrite parse_returns_iff.
    destruct input as [| | | | |items|fields];
      try (split; [discriminate | intros (fields' & Heq & _); discriminate]).
    unfold EncryptEnvSchema. rewrite strict_object_accepts, shape_keys.
    rewrite !Forall_cons, Forall_nil. cbn [fst snd map].
    rewrite !zissues_default_string, zissues_optional_string.
    split.
    + intros [(H1 & H2 & H3 & _) Hk]. exists fields. tauto.
    + intros (fields' & Heq & H1 & H2 & H3 & Hk). inversion Heq; subst fields'. tauto.
  - intros fields parsed -> Hparse.
    assert (Hok : is_ZOk (zparse EncryptEnvSchema (JObj fields)) = true)
      by (apply parse_returns_iff; eauto).
    unfold EncryptEnvSchema in Hok, Hparse.
    apply strict_object_accepts in Hok. destruct Hok as [Hfields Hkeys].
    apply filter_nil_keys in Hkeys.
    unfold parse in Hparse. cbn [zparse] in Hparse. rewrite Hkeys in Hparse.
    rewrite !Forall_cons, Forall_nil in Hfields. cbn [fst snd] in Hfields.
    destruct Hfields as (H1 & H2 & H3 & _).
    unfold merge_pairs, has_key in Hparse. simpl in Hparse.
    destruct (assoc "envFilePath" fields) as [[]|]; try discriminate H1;
      destruct (assoc "outputPath" fields) as [[]|]; try discriminate H2;
      destruct (assoc "walletAddress" fields) as [[]|]; try discriminate H3;
      simpl in Hparse; inversion Hparse; subst parsed; repeat split; reflexivity.
Qed.

(** X11.  [DecryptEnvSchema.parse] accepts an input exactly when it is an
    object whose [encryptedFilePath] and [outputPath] are each absent,
    [undefined] or a string, and which has no other key.  The value it
    returns has the string supplied for each, the empty string too, and
    [".env.encrypted"] and [".env"] where none was supplied. *)
Theorem DecryptEnvSchema_defaults (input : jsval) :
  ((exists v, parse DecryptEnvSchema input = Returns v)
   <-> exists fields,
         input = JObj fields
         /\ optional_string (assoc "encryptedFilePath" fields)
         /\ optional_string (assoc "outputPath" fields)
         /\ (forall k, In k (map fst fields) -> In k ["encryptedFilePath"; "outputPath"]))
  /\ (forall fields parsed,
         input = JObj fields ->
         parse DecryptEnvSchema input = Returns parsed ->
         get_prop parsed "encryptedFilePath"
         = Returns (string_or_default (assoc "encryptedFilePath" fields) ".env.encrypted")
         /\ get_prop parsed "outputPath"
            = Returns (string_or_default (assoc "outputPath" fields) ".env")).
Proof.
  split.
  - rewrite parse_returns_iff.
    destruct input as [| | | | |items|fields];
      try (split; [discriminate | intros (fields' & Heq & _); discriminate]).
    unfold DecryptEnvSchema. rewrite strict_object_accepts, shape_keys.
    rewrite !Forall_cons, Forall_nil. cbn [fst snd map].
    rewrite !zissues_default_string.
    split.
    + intros [(H1 & H2 & _) Hk]. exists fields. tauto.
    + intros (fields' & Heq & H1 & H2 & Hk). inversion Heq; subst fields'. tauto.
  - intros fields parsed -> Hparse.
    assert (Hok : is_ZOk (zparse DecryptEnvSchema (JObj fields)) = true)
      by (apply parse_returns_iff; eauto).
    unfold DecryptEnvSchema in Hok, Hparse.
    apply strict_object_accepts in Hok. destruct Hok as [Hfields Hkeys].
    apply filter_nil_keys in Hkeys.
    unfold parse in Hparse. cbn [zparse] in Hparse. rewrite Hkeys in Hparse.
    rewrite !Forall_cons, Forall_nil in Hfields. cbn [fst snd] in Hfields.
    destruct Hfields as (H1 & H2 & _).
    unfold merge_pairs, has_key in Hparse. simpl in Hparse.
    destruct (assoc "encryptedFilePath" fields) as [[]|]; try discriminate H1;
      destruct (assoc "outputPath" fields) as [[]|]; try discriminate H2;
      simpl in Hparse; inversion Hparse; subst parsed; repeat split; reflexivity.
Qed.
End MoreSchemaFacts.

Lemma EncryptEnvSchema_defaults_witness :
  get_prop (JObj [("envFilePath", JStr EmptyString); ("outputPath", JStr ".env.encrypted")])
           "envFilePath"
  = Returns (string_or_default
               (assoc "envFilePath" [("envFilePath", JStr EmptyString)]) ".env")
  /\ string_or_default (assoc "envFilePath" [("envFilePath", JStr EmptyString)]) ".env"
     = JStr EmptyString.
Proof.
  split; [|reflexivity].
  refine (proj1 (proj2 (@EncryptEnvSchema_defaults example_host
                          (JObj [("envFilePath", JStr EmptyString)]))
                   [("envFilePath", JStr EmptyString)]
                   (JObj [("envFilePath", JStr EmptyString);
                          ("outputPath", JStr ".env.encrypted")])
                   eq_refl _)).
  vm_compute. reflexivity.
Defined.

Lemma DecryptEnvSchema_defaults_witness :
  get_prop (JObj [("encryptedFilePath", JStr ".env.encrypted"); ("outputPath", JStr "out.env")])
           "outputPath"
  = Returns (string_or_default (assoc "outputPath" [("outputPath", JStr "out.env")]) ".env").
Proof.
  refine (proj2 (proj2 (@DecryptEnvSchema_defaults example_host
                          (JObj [("outputPath", JStr "out.env")]))
                   [("outputPath", JStr "out.env")]
                   (JObj [("encryptedFilePath", JStr ".env.encrypted");
                          ("outputPath", JStr "out.env")])
                   eq_refl _)).
  vm_compute. reflexivity.
Defined.

(** ** The handlers and the files *)

Section FrameRules.
Context `{Host} (W : World) (P : string -> Prop).

Lemma writes_only_same {A} (m : M A) :
  (forall st, files (m st).2 = files st) -> writes_only P m.
Proof. intros Hm st p _. rewrite Hm. reflexivity. Qed.

Lemma writes_only_ret {A} (a : A) : writes_only P (mret a : M A).
Proof. apply writes_only_same. reflexivity. Qed.

Lemma writes_only_throw {A} (e : thrown) : writes_only P (throw e : M A).
Proof. apply writes_only_same. reflexivity. Qed.

Lemma writes_only_lift {A} (c : completion A) : writes_only P (lift c).
Proof. apply writes_only_same. reflexivity. Qed.

Lemma writes_only_now : writes_only P (now W).
Proof. apply writes_only_same. reflexivity. Qed.

Lemma writes_only_get_client : writes_only P get_litNodeClient.
Proof. apply writes_only_same. reflexivity. Qed.

Lemma writes_only_set_client c : writes_only P (set_litNodeClient c).
Proof. apply writes_only_same. reflexivity. Qed.

Lemma writes_only_call (a : Api) (xs : list jsval) : writes_only P (call W a xs).
Proof. apply writes_only_same. reflexivity. Qed.

Lemma writes_only_new (config : jsval) : writes_only P (new_LitNodeClient W config).
Proof.
  apply writes_only_same. intros st. unfold new_LitNodeClient.
  destruct (sdk W _ _); reflexivity.
Qed.

Lemma writes_only_readFile (path : jsval) : writes_only P (readFile W path).
Proof.
  apply writes_only_same. intros st. unfold readFile.
  destruct path; try reflexivity.
  destruct (sdk W _ _); [destruct (files st !! s)|]; reflexivity.
Qed.

Lemma writes_only_writeFile (path data : jsval) :
  (forall p, path = JStr p -> P p) -> writes_only P (writeFile W path data).
Proof.
  intros Hpath st p Hp. unfold writeFile.
  destruct path as [| | | |q| |]; try reflexivity.
  destruct data; try reflexivity.
  destruct (sdk W _ _); [|reflexivity].
  cbn [snd files set_file record].
  apply lookup_insert_ne. intros ->. apply Hp, Hpath. reflexivity.
Qed.

Lemma writes_only_bind {A B} (m : M A) (k : A -> M B) :
  writes_only P m -> (forall a, writes_only P (k a)) -> writes_only P (m ≫= k).
Proof.
  intros Hm Hk st p Hp. rewrite bind_run. specialize (Hm st p Hp).
  destruct (m st) as [[a|e] st1]; simpl in Hm; [|exact Hm].
  rewrite (Hk a st1 p Hp). exact Hm.
Qed.

Lemma writes_only_bind_lift {A B} (c : completion A) (k : A -> M B) :
  (forall a, c = Returns a -> writes_only P (k a)) -> writes_only P (lift c ≫= k).
Proof.
  intros Hk st p Hp. rewrite bind_run. unfold lift.
  destruct c as [a|e]; [exact (Hk a eq_refl st p Hp) | reflexivity].
Qed.

Lemma writes_only_try_catch {A} (body : M A) (handler : thrown -> M A) :
  writes_only P body -> (forall e, writes_only P (handler e)) ->
  writes_only P (try_catch body handler).
Proof.
  intros Hb Hh st p Hp. unfold try_catch. specialize (Hb st p Hp).
  destruct (body st) as [[a|e] st1]; simpl in Hb; [exact Hb|].
  rewrite (Hh e st1 p Hp). exact Hb.
Qed.
End FrameRules.

Lemma writes_nothing {A} (m : M A) (st : State) :
  writes_only (fun _ => False) m -> files (m st).2 = files st.
Proof. intros Hm. apply map_eq. intros p. apply Hm. tauto. Qed.

Ltac writes_step :=
  match goal with
  | |- writes_only _ (mret _) => apply writes_only_ret
  | |- writes_only _ (throw _) => apply writes_only_throw
  | |- writes_only _ (lift _ ≫= _) => apply writes_only_bind_lift; intros ? ?
  | |- writes_only _ (lift _) => apply writes_only_lift
  | |- writes_only _ (now _) => apply writes_only_now
  | |- writes_only _ get_litNodeClient => apply writes_only_get_client
  | |- writes_only _ (set_litNodeClient _) => apply writes_only_set_client
  | |- writes_only _ (call _ _ _) => apply writes_only_call
  | |- writes_only _ (new_LitNodeClient _ _) => apply writes_only_new
  | |- writes_only _ (readFile _ _) => apply writes_only_readFile
  | |- writes_only _ (writeFile _ _ _) => apply writes_only_writeFile; intros ? ?
  | |- writes_only _ (_ ≫= _) => apply writes_only_bind; [| intros ?]
  | |- writes_only _ (try_catch _ _) => apply writes_only_try_catch; [| intros ?]
  | |- writes_only _ (match ?x with _ => _ end) => destruct x
  end.

Ltac writes_tac := unfold_handlers; unfold_provider; repeat writes_step.

Section FrameTheorems.
Context `{Host} (W : World) (config : jsval).

(** X12.  [lit-hello] and the three PKP actions, in the three providers,
    never touch the file system: on every input, from every state and
    whatever the SDK answers, they leave every file as it is and call
    neither [fs.readFile] nor [fs.writeFile]. *)
Theorem pkp_actions_leave_files :
  Forall (fun action : jsval -> M jsval =>
            forall input,
              (forall st, files (action input st).2 = files st)
              /\ calls_only (fun c => api c <> fs_readFile /\ api c <> fs_writeFile)
                            (action input))
         (file_free_actions W config).
Proof.
  unfold file_free_actions. each_action; (split; [intros st; apply writes_nothing|]).
  all: try (writes_tac; fail).
  all: calls_tac; split; discriminate.
Qed.


(** X14.  The handlers of the JavaScript twin validate before anything
    else: when the schema rejects the input, the handler returns the failure
    envelope with the issues and the state is left as it was (no call is
    made, no client is constructed, no file is read or written). *)
Theorem JS_handlers_validate_first (input : jsval) (e : thrown) (st : State) :
  (parse EncryptEnvSchema (js_or input (JObj [])) = Throws e ->
   JS.lit_encrypt_env W config input st
   = (Returns (failure_envelope ("Encryption failed: " +:+ error_message e)), st))
  /\ (parse DecryptEnvSchema (js_or input (JObj [])) = Throws e ->
      JS.lit_decrypt_env W config input st
      = (Returns (failure_envelope
                    ("Decryption failed: " +:+ error_message e +:+ ". "
                       +:+ "Make sure you have permission to decrypt this file.")), st))
  /\ (parse LitErc20TransferSchema input = Throws e ->
      JS.lit_erc20_transfer W config input st
      = (Returns (failure_envelope ("ERC20 transfer failed: " +:+ error_message e)), st))
  /\ (parse LitEcdsaSignSchema input = Throws e ->
      JS.lit_ecdsa_sign W config input st
      = (Returns (failure_envelope ("ECDSA sign failed: " +:+ error_message e)), st))
  /\ (parse LitUniswapSwapSchema input = Throws e ->
      JS.lit_uniswap_swap W config input st
      = (Returns (failure_envelope ("Uniswap swap failed: " +:+ error_message e)), st)).
Proof.
  unfold_handlers. unfold_provider. unfold try_catch.
  repeat split; intros Hparse; rewrite (bind_lift_throws _ _ _ _ Hparse); reflexivity.
Qed.
End FrameTheorems.


Lemma JS_handlers_validate_first_witness :
  @parse example_host LitErc20TransferSchema not_an_object
  = Throws (JsError "Expected object")
  /\ @JS.lit_erc20_transfer example_host answering_world JUndefined not_an_object
       (initial_state ∅)
     = (Returns (failure_envelope "ERC20 transfer failed: Expected object"),
        initial_state ∅).
Proof.
  split; [reflexivity|].
  exact (proj1 (proj2 (proj2 (@JS_handlers_validate_first example_host answering_world
                                JUndefined not_an_object (JsError "Expected object")
                                (initial_state ∅))))
           eq_refl).
Defined.

(** The TypeScript handler, which does not parse its input, goes as far
    as constructing the client and asking for session signatures on the
    same input. *)
Example TS_handler_does_not_validate :
  map api (log (@TS.lit_erc20_transfer example_host answering_world JUndefined
                  not_an_object (initial_state ∅)).2)
  = [LitNodeClient_new; client_connect; wallet_getAddress; wallet_getNetwork;
     client_authNeeded; client_getLatestBlockhash; lit_createSiweMessage;
     wallet_getWalletClient; walletClient_getAddresses; walletClient_signMessage;
     client_getSessionSigs].
Proof. vm_compute. reflexivity. Qed.

(** ** Running a computation call by call *)

Section WpRules.
Context `{Host} (W : World).

Lemma wp_run {A} (m : M A) (Q : A -> State -> Prop) (E : thrown -> State -> Prop)
    (st st' : State) (a : A) :
  wp m Q E st -> m st = (Returns a, st') -> Q a st'.
Proof. unfold wp. intros Hwp Hrun. rewrite Hrun in Hwp. exact Hwp. Qed.

Lemma wp_ret {A} (a : A) Q E st : Q a st -> wp (mret a : M A) Q E st.
Proof. auto. Qed.

Lemma wp_throw {A} (e : thrown) (Q : A -> State -> Prop) E st :
  E e st -> wp (throw e : M A) Q E st.
Proof. auto. Qed.

Lemma wp_bind {A B} (m : M A) (k : A -> M B) Q E st :
  wp m (fun a st' => wp (k a) Q E st') E st -> wp (m ≫= k) Q E st.
Proof.
  unfold wp. rewrite bind_run. destruct (m st) as [[a|e] st1]; auto.
Qed.

Lemma wp_try_catch {A} (body : M A) (handler : thrown -> M A) Q E st :
  wp body Q (fun e st' => wp (handler e) Q E st') st -> wp (try_catch body handler) Q E st.
Proof.
  unfold wp, try_catch. destruct (body st) as [[a|e] st1]; auto.
Qed.

Lemma wp_lift {A} (c : completion A) (Q : A -> State -> Prop) E st :
  (forall a, c = Returns a -> Q a st) -> (forall e, c = Throws e -> E e st) ->
  wp (lift c) Q E st.
Proof. unfold wp, lift. destruct c; auto. Qed.

Lemma wp_now Q E st : Q (clock W (log st)) st -> wp (now W) Q E st.
Proof. auto. Qed.

Lemma wp_get_client Q E st : Q (litNodeClient st) st -> wp get_litNodeClient Q E st.
Proof. auto. Qed.

Lemma wp_set_client c Q E st :
  Q tt {| litNodeClient := Some c; files := files st; log := log st |} ->
  wp (set_litNodeClient c) Q E st.
Proof. auto. Qed.

Lemma wp_call (a : Api) (xs : list jsval) Q E st :
  (forall v, sdk W (log st) {| api := a; args := xs |} = Returns v ->
             Q v (record {| api := a; args := xs |} st)) ->
  (forall e, sdk W (log st) {| api := a; args := xs |} = Throws e ->
             E e (record {| api := a; args := xs |} st)) ->
  wp (call W a xs) Q E st.
Proof. unfold wp, call. destruct (sdk W _ _); auto. Qed.

Lemma wp_new (config : jsval) Q E st :
  (forall v, sdk W (log st) {| api := LitNodeClient_new; args := [config] |} = Returns v ->
             Q {| client_serial := length (List.filter is_new (log st));
                  client_config := config |}
               (record {| api := LitNodeClient_new; args := [config] |} st)) ->
  (forall e, sdk W (log st) {| api := LitNodeClient_new; args := [config] |} = Throws e ->
             E e (record {| api := LitNodeClient_new; args := [config] |} st)) ->
  wp (new_LitNodeClient W config) Q E st.
Proof.
  intros HQ HE. unfold wp, new_LitNodeClient.
  destruct (sdk W _ _) eqn:Hsdk; [eapply HQ | eapply HE]; eauto.
Qed.

Lemma wp_readFile (path : jsval) Q E st :
  (forall p content v,
      path = JStr p -> files st !! p = Some content ->
      sdk W (log st) {| api := fs_readFile; args := [path; JStr "utf-8"] |} = Returns v ->
      Q (JStr content) (record {| api := fs_readFile; args := [path; JStr "utf-8"] |} st)) ->
  (forall e, E e (record {| api := fs_readFile; args := [path; JStr "utf-8"] |} st)) ->
  wp (readFile W path) Q E st.
Proof.
  intros HQ HE. unfold wp, readFile.
  destruct path; try apply HE.
  destruct (sdk W _ _) eqn:Hsdk; [|apply HE].
  destruct (files st !! s) eqn:Hfile; [|apply HE].
  eapply HQ; eauto.
Qed.

Lemma wp_writeFile (path data : jsval) Q E st :
  (forall p content v,
      path = JStr p -> data = JStr content ->
      sdk W (log st) {| api := fs_writeFile; args := [path; data] |} = Returns v ->
      Q tt (set_file p content (record {| api := fs_writeFile; args := [path; data] |} st))) ->
  (forall e, E e (record {| api := fs_writeFile; args := [path; data] |} st)) ->
  wp (writeFile W path data) Q E st.
Proof.
  intros HQ HE. unfold wp, writeFile.
  destruct path; try apply HE.
  destruct data; try apply HE.
  destruct (sdk W _ _) eqn:Hsdk; [|apply HE].
  eapply HQ; eauto.
Qed.

Lemma log_start (history : list Call) : history = (history ++ [])%list.
Proof. symmetry. apply app_nil_r. Qed.

Lemma log_snoc (l history new : list Call) (c : Call) :
  l = (history ++ new)%list -> (l ++ [c])%list = (history ++ (new ++ [c]))%list.
Proof. intros ->. symmetry. apply app_assoc. Qed.

Lemma answered_here (history rest : list Call) (c : Call) (v : jsval) :
  sdk W history c = Returns v -> answered W history (c :: rest) c v.
Proof. intros Hc. left. auto. Qed.

Lemma answered_later (history rest : list Call) (c d : Call) (v : jsval) :
  answered W (history ++ [d])%list rest c v -> answered W history (d :: rest) c v.
Proof. intros Hc. right. exact Hc. Qed.
End WpRules.

Ltac state_simpl :=
  cbv beta; cbn [litNodeClient files log record set_file] in *.

(** One step of the run; each call splits on its outcome. *)
Ltac wp_step :=
  lazymatch goal with
  | |- wp (mret _) _ _ _ => apply wp_ret
  | |- wp (throw _) _ _ _ => apply wp_throw
  | |- wp (lift _) _ _ _ => apply wp_lift; [intros ? ? | intros ? ?]
  | |- wp (now _) _ _ _ => apply wp_now
  | |- wp get_litNodeClient _ _ _ => apply wp_get_client
  | |- wp (set_litNodeClient _) _ _ _ => apply wp_set_client
  | |- wp (call _ _ _) _ _ _ => apply wp_call; [intros ? ? | intros ? ?]
  | |- wp (new_LitNodeClient _ _) _ _ _ => apply wp_new; [intros ? ? | intros ? ?]
  | |- wp (readFile _ _) _ _ _ => apply wp_readFile; [intros ? ? ? ? ? ? | intros ?]
  | |- wp (writeFile _ _ _) _ _ _ => apply wp_writeFile; [intros ? ? ? ? ? ? | intros ?]
  | |- wp (_ ≫= _) _ _ _ => apply wp_bind
  | |- wp (try_catch _ _) _ _ _ => apply wp_try_catch
  | |- wp (match litNodeClient ?st with _ => _ end) _ _ _ =>
      first [ match goal with Hc : litNodeClient st = _ |- _ => rewrite Hc end
            | let Hc := fresh "Hclient" in destruct (litNodeClient st) eqn:Hc ]
  | |- wp (if ?b then _ else _) _ _ _ =>
      let Hb := fresh "Hif" in destruct b eqn:Hb
  | |- wp (match ?x with _ => _ end) _ _ _ => destruct x
  end; state_simpl.

Ltac wp_go := unfold_handlers; unfold_provider; repeat wp_step.


(** Finding the call in the run. *)
Ltac find_answer :=
  lazymatch goal with
  | |- answered _ _ (_ :: _) _ _ =>
      first [ apply answered_here; eassumption
            | apply answered_later; find_answer ]
  end.

(** The log at the end of a run is the log at its start and the calls of
    the run. *)
Ltac log_eq := repeat apply log_snoc; apply log_start.

(** ** What a successful run did *)

Section RunTheorems.
Context `{Host} (W : World) (config : jsval).












Ltac executed_leaf :=
  first
    [ left; eexists; reflexivity
    | right;
      match goal with
      | Hs : stringify_response _ = Returns _ |- _ =>
          destruct (stringify_response_string _ _ Hs) as [? ->]
      end;
      eexists; split;
      [ first [left; reflexivity | right; reflexivity]
      | unfold executed; state_simpl; eexists _, _, _; split_and!;
        [log_eq | cbn [app]; find_answer | eassumption] ] ].

Lemma actions_execute_wp (input : jsval) (st : State) :
  Forall (fun action : jsval -> M jsval =>
            wp (action input)
               (fun v st' =>
                  is_failure_envelope v
                  \/ exists result,
                       (v = success_envelope (Some result) \/ v = JStr result)
                       /\ executed W st st' result)
               (fun _ _ => True) st)
         (file_free_actions W config).
Proof.
  unfold file_free_actions.
  repeat match goal with
         | |- Forall _ (_ :: _) => apply List.Forall_cons
         | |- Forall _ [] => apply List.Forall_nil
         end; wp_go; try exact I; executed_leaf.
Qed.



(** X17.  Whatever [lit-hello] or a PKP action returns, in any provider,
    is either a failure envelope or the outcome of one
    [client.executeJs] call of that run: the JSON of the [response] of its
    answer, or of the whole answer when the [response] is falsy; in a
    success envelope for the function-style providers, as it is for the
    class. *)
Theorem actions_return_the_answer :
  Forall (fun action : jsval -> M jsval =>
            forall input v st st',
              action input st = (Returns v, st') ->
              is_failure_envelope v
              \/ exists result,
                   (v = success_envelope (Some result) \/ v = JStr result)
                   /\ executed W st st' result)
         (file_free_actions W config).
Proof.
  apply List.Forall_forall. intros action Hin input v st st' Hrun.
  pose proof (actions_execute_wp input st) as Hall.
  rewrite List.Forall_forall in Hall.
  exact (wp_run _ _ _ _ _ _ (Hall action Hin) Hrun).
Qed.
End RunTheorems.



Lemma actions_return_the_answer_witness :
  is_failure_envelope
    (returned (@TS.lit_hello example_host answering_world JUndefined (JObj [])
                 (initial_state ∅)))
  \/ exists result,
       (returned (@TS.lit_hello example_host answering_world JUndefined (JObj [])
                    (initial_state ∅))
        = success_envelope (Some result)
        \/ returned (@TS.lit_hello example_host answering_world JUndefined (JObj [])
                       (initial_state ∅))
           = JStr result)
       /\ @executed example_host answering_world (initial_state ∅)
            (@TS.lit_hello example_host answering_world JUndefined (JObj [])
               (initial_state ∅)).2
            result.
Proof.
  pose proof (@actions_return_the_answer example_host answering_world JUndefined) as Hw.
  apply Forall_inv in Hw.
  refine (Hw (JObj [])
            (returned (@TS.lit_hello example_host answering_world JUndefined (JObj [])
                         (initial_state ∅)))
            (initial_state ∅)
            (@TS.lit_hello example_host answering_world JUndefined (JObj [])
               (initial_state ∅)).2 _).
  vm_compute. reflexivity.
Defined.


(** ** The session request *)

Section SessionFacts.
Context `{Host} (W : World).




End SessionFacts.

(** ** A client that cannot be initialized *)

Section ClientFailures.
Context `{Host} (W : World).

(** X19.  When the constructor of the node client throws, [getLitClient]
    stores no handle, so that a later call constructs again; the
    TypeScript provider passes the exception on as it is, the JavaScript
    twin logs it with [console.error] and throws
    [Error("Lit Protocol connection failed: " + message)] in its place.  When
    the constructor returns and [connect] throws, the exception leaves in
    the same two ways, but the handle stays stored: every later
    [getLitClient] returns it without connecting again. *)
Theorem getLitClient_failures (fields : list (string * jsval)) (st : State) (e : thrown) :
  litNodeClient st = None ->
  let construct := {| api := LitNodeClient_new; args := [client_config_of (JObj fields)] |} in
  let connect := {| api := client_connect; args := [] |} in
  let c := {| client_serial := length (List.filter is_new (log st));
              client_config := client_config_of (JObj fields) |} in
  (sdk W (log st) construct = Throws e ->
   TS.getLitClient W (JObj fields) st = (Throws e, record construct st)
   /\ litNodeClient (JS.getLitClient W (JObj fields) st).2 = None
   /\ (forall message u,
          e = JsError message ->
          sdk W (log st ++ [construct])%list (console_error_call e) = Returns u ->
          JS.getLitClient W (JObj fields) st
          = (Throws (JsError ("Lit Protocol connection failed: " +:+ message)),
             record (console_error_call e) (record construct st))))
  /\ (forall v,
         sdk W (log st) construct = Returns v ->
         sdk W (log st ++ [construct])%list connect = Throws e ->
         let st1 := {| litNodeClient := Some c; files := files st;
                       log := ((log st ++ [construct]) ++ [connect])%list |} in
         TS.getLitClient W (JObj fields) st = (Throws e, st1)
         /\ (forall later, TS.getLitClient W later st1 = (Returns c, st1))
         /\ litNodeClient (JS.getLitClient W (JObj fields) st).2 = Some c
         /\ (forall message u,
                e = JsError message ->
                sdk W ((log st ++ [construct]) ++ [connect])%list (console_error_call e)
                = Returns u ->
                JS.getLitClient W (JObj fields) st
                = (Throws (JsError ("Lit Protocol connection failed: " +:+ message)),
                   record (console_error_call e) st1))).
Proof.
  intros Hnone construct connect c. subst construct connect c.
  destruct st as [cl fs lg]. simpl in Hnone. subst cl.
  split.
  - intros Hnew. simpl in Hnew.
    unfold TS.getLitClient, JS.getLitClient. run_M. simpl. rewrite Hnew. simpl.
    split; [reflexivity|]. split.
    + destruct (sdk W _ {| api := console_error; args := _ |}); simpl; [|reflexivity].
      destruct (error_message_unchecked e); reflexivity.
    + intros message u -> Hconsole. unfold console_error_call in Hconsole.
      simpl in Hconsole. simpl. rewrite Hconsole. reflexivity.
  - intros v Hnew Hconnect. simpl in Hnew, Hconnect.
    unfold TS.getLitClient, JS.getLitClient. run_M. simpl.
    rewrite Hnew. simpl. rewrite Hconnect. simpl.
    split; [reflexivity|]. split; [reflexivity|]. split.
    + destruct (sdk W _ {| api := console_error; args := _ |}); simpl; [|reflexivity].
      destruct (error_message_unchecked e); reflexivity.
    + intros message u -> Hconsole. unfold console_error_call in Hconsole.
      simpl in Hconsole. simpl. rewrite Hconsole. reflexivity.
Qed.
End ClientFailures.

Lemma getLitClient_failures_witness :
  litNodeClient (initial_state ∅) = None
  /\ sdk broken_world (log (initial_state ∅))
         {| api := LitNodeClient_new; args := [client_config_of (JObj [])] |}
     = Throws (JsError "unknown network")
  /\ @JS.getLitClient example_host broken_world (JObj []) (initial_state ∅)
     = (Throws (JsError "Lit Protocol connection failed: unknown network"),
        record (console_error_call (JsError "unknown network"))
          (record {| api := LitNodeClient_new; args := [client_config_of (JObj [])] |}
             (initial_state ∅))).
Proof.
  split; [reflexivity|]. split; [reflexivity|].
  exact (proj2 (proj2 (proj1 (@getLitClient_failures example_host broken_world []
                                (initial_state ∅) (JsError "unknown network") eq_refl)
                         eq_refl))
           "unknown network" JUndefined eq_refl eq_refl).
Defined.

(** Through a handler of the JavaScript twin the two messages compose. *)
Example JS_hello_offline :
  (@JS.lit_hello example_host offline_world JUndefined (JObj []) (initial_state ∅)).1
  = Returns (failure_envelope
               "Lit Protocol hello failed: Lit Protocol connection failed: network down").
Proof. vm_compute. reflexivity. Qed.

(** ** One client for one invocation *)

Lemma calls_to_apis (a : Api) (new : list Call) :
  length (calls_to a new)
  = length (List.filter (fun b => bool_decide (b = a)) (map api new)).
Proof.
  unfold calls_to. induction new as [|c new IH]; [reflexivity|].
  cbn [map List.filter]. destruct (bool_decide (api c = a)); cbn [length]; congruence.
Qed.

Section OneClient.
Context `{Host} (W : World) (config : jsval).

Ltac once_leaf :=
  eexists; split;
  [ log_eq
  | rewrite !calls_to_apis; cbn [app map api]; vm_compute; lia ].

Lemma actions_construct_wp (input : jsval) (st : State) :
  Forall (fun action : jsval -> M jsval =>
            wp (action input)
               (fun _ st' =>
                  exists new,
                    log st' = (log st ++ new)%list
                    /\ (length (calls_to client_connect new)
                        <= length (calls_to LitNodeClient_new new) <= 1)%nat)
               (fun _ st' =>
                  exists new,
                    log st' = (log st ++ new)%list
                    /\ (length (calls_to client_connect new)
                        <= length (calls_to LitNodeClient_new new) <= 1)%nat)
               st)
         (all_actions W config).
Proof.
  unfold all_actions, function_style_handlers, class_actions. cbn [map snd app].
  repeat match goal with
         | |- Forall _ (_ :: _) => apply List.Forall_cons
         | |- Forall _ [] => apply List.Forall_nil
         end; wp_go; once_leaf.
Qed.

(** X20.  One invocation of any action of any provider, on every input,
    from every state (a client stored or not) and whatever the SDK answers,
    constructs the node client at most once and connects at most as often
    as it constructs. *)
Theorem actions_construct_at_most_once (input : jsval) (st : State) :
  Forall (fun action : jsval -> M jsval =>
            exists new,
              log (action input st).2 = (log st ++ new)%list
              /\ (length (calls_to client_connect new)
                  <= length (calls_to LitNodeClient_new new) <= 1)%nat)
         (all_actions W config).
Proof.
  eapply Forall_impl; [apply (actions_construct_wp input st)|].
  intros action Hwp. unfold wp in Hwp.
  destruct (action input st) as [[v|e] st']; exact Hwp.
Qed.
End OneClient.

(** ** example-custom-provider.ts *)

Section ExampleFacts.
Import Example.
Context `{Host} `{Viem} (W : ViemWorld).

Lemma units_of_ascii (c : ascii) : code c < 128 -> units_of_byte c = 1%nat.
Proof.
  intros Hc. unfold units_of_byte, between.
  destruct (Z.leb_spec 128 (code c)); [lia|]. simpl.
  destruct (Z.leb_spec 240 (code c)); [lia|]. reflexivity.
Qed.

Lemma utf16_length_ascii (l : list ascii) :
  Forall (fun c => code c < 128) l ->
  fold_right (fun c n => (units_of_byte c + n)%nat) 0%nat l = length l.
Proof.
  induction 1 as [|c l Hc _ IH]; [reflexivity|].
  cbn [fold_right length]. rewrite IH, (units_of_ascii c Hc). reflexivity.
Qed.

Lemma hex_is_ascii (c : ascii) : is_hex c = true -> code c < 128.
Proof. intros Hc. char_class. Qed.

(** Every address that the Lit schemas accept passes the check of
    [get-token-balance]. *)
Lemma eth_address_passes (s : string) : is_eth_address s -> passes_check s.
Proof.
  intros (body & Hs & Hlen & Hall). unfold passes_check, utf16_length. rewrite Hs.
  split.
  - destruct s as [|c0 [|c1 s']]; try discriminate.
    unfold chars in Hs. cbn [list_ascii_of_string] in Hs. inversion Hs; subst.
    simpl. destruct s'; reflexivity.
  - rewrite utf16_length_ascii.
    + cbn [length]. rewrite Hlen. reflexivity.
    + constructor; [vm_compute; reflexivity|]. constructor; [vm_compute; reflexivity|].
      eapply Forall_impl; [exact Hall|]. exact hex_is_ascii.
Qed.

Lemma invalid_address_string (name s : string) :
  invalid_address name (JStr s)
  = Returns (negb (String.prefix "0x" s) || negb (utf16_length s =? 42)%nat).
Proof.
  unfold invalid_address, startsWith. rewrite returns_bind.
  destruct (String.prefix "0x" s); reflexivity.
Qed.

Lemma invalid_address_passes (name s : string) :
  passes_check s -> invalid_address name (JStr s) = Returns false.
Proof.
  intros [Hprefix Hlen]. rewrite invalid_address_string, Hprefix, Hlen. reflexivity.
Qed.

Lemma invalid_address_fails (name s : string) :
  ~ passes_check s -> invalid_address name (JStr s) = Returns true.
Proof.
  intros Hno. rewrite invalid_address_string. unfold passes_check in Hno.
  destruct (String.prefix "0x" s); [|reflexivity].
  destruct (Nat.eqb_spec (utf16_length s) 42); [|reflexivity].
  exfalso. apply Hno. auto.
Qed.

(** X21.  [get-token-balance] checks the two addresses before anything
    else: a [tokenAddress] string that does not start with [0x] or whose
    length is not 42 is answered with the failure envelope
    ["Invalid token address: …"], and an [address] string that fails the same
    check with ["Invalid address: …"], in both cases without any call to the
    wallet provider.  Every well-formed Ethereum address passes the check. *)
Theorem get_token_balance_validates (input tokenAddress address : jsval)
    (log : list ViemCall) :
  destructure input "tokenAddress" = Returns tokenAddress ->
  destructure input "address" = Returns address ->
  (forall t, tokenAddress = JStr t -> ~ passes_check t ->
             get_token_balance W input log
             = (Returns (failure_envelope
                           ("Invalid token address: " +:+ t
                              +:+ ". Must be a valid Ethereum address.")), log))
  /\ (forall t a, tokenAddress = JStr t -> passes_check t ->
                  address = JStr a -> ~ passes_check a ->
                  get_token_balance W input log
                  = (Returns (failure_envelope
                                ("Invalid address: " +:+ a
                                   +:+ ". Must be a valid Ethereum address.")), log))
  /\ (forall s, is_eth_address s -> passes_check s).
Proof.
  intros Htoken Haddress. unfold get_token_balance, bind, pure, attempt.
  rewrite Htoken, Haddress. unfold get_token_balance_try, bind, pure.
  split; [|split].
  - intros t -> Hno. rewrite (invalid_address_fails _ _ Hno). reflexivity.
  - intros t a -> Hyes -> Hno.
    rewrite (invalid_address_passes _ _ Hyes), (invalid_address_fails _ _ Hno).
    reflexivity.
  - exact eth_address_passes.
Qed.

(** X22.  With two addresses that pass the check and a public client,
    [get-token-balance] reads [balanceOf(address)] on the token: when that
    read throws, the answer is the failure envelope with its message and
    nothing else is read; when it returns, [decimals()] and [symbol()] are
    both read, in this order and each whatever the other did, a read that
    throws is replaced by [18] and by ["TOKEN"], and the success envelope
    shows the adjusted balance, the symbol, the raw balance and the
    address. *)
Theorem get_token_balance_reads (input : jsval) (t a : string) (log : list ViemCall)
    (client : answer) :
  destructure input "tokenAddress" = Returns (JStr t) ->
  destructure input "address" = Returns (JStr a) ->
  passes_check t -> passes_check a ->
  W log getPublicClient_call = Returns client ->
  let log1 := (log ++ [getPublicClient_call])%list in
  let log2 := (log1 ++ [balanceOf_call (JStr t) (JStr a)])%list in
  let log3 := (log2 ++ [read_call (JStr t) "decimals"])%list in
  (forall e,
      W log1 (balanceOf_call (JStr t) (JStr a)) = Throws e ->
      get_token_balance W input log
      = (Returns (failure_envelope
                    ("Failed to get token balance: " +:+ error_message e +:+ ". "
                       +:+ "Make sure the token address is valid and the contract supports "
                       +:+ "the ERC-20 standard.")), log2))
  /\ (forall balance,
         W log1 (balanceOf_call (JStr t) (JStr a)) = Returns balance ->
         let decimals := answer_or (W log2 (read_call (JStr t) "decimals"))
                                   (AVal (JNum 18)) in
         let symbol := answer_or (W log3 (read_call (JStr t) "symbol"))
                                 (AVal (JStr "TOKEN")) in
         (get_token_balance W input log).2 = (log3 ++ [read_call (JStr t) "symbol"])%list
         /\ (forall formatted adjusted raw,
                formatEther balance = Returns formatted ->
                adjust formatted decimals = Returns adjusted ->
                toString_method balance = Returns raw ->
                (get_token_balance W input log).1
                = Returns (success_envelope
                             (Some ("Token Balance: " +:+ adjusted +:+ " "
                                      +:+ answer_toString symbol
                                      +:+ " (" +:+ raw +:+ " raw units) for address "
                                      +:+ a))))).
Proof.
  intros Htoken Haddress Ht Ha Hclient log1 log2 log3.
  unfold get_token_balance, bind, pure, attempt. rewrite Htoken, Haddress.
  unfold get_token_balance_try, bind, pure, attempt, viem_call, ret.
  rewrite (invalid_address_passes _ _ Ht), (invalid_address_passes _ _ Ha).
  fold getPublicClient_call. rewrite Hclient.
  fold (balanceOf_call (JStr t) (JStr a)). fold log1.
  split.
  - intros e He. rewrite He. reflexivity.
  - intros balance Hbalance. rewrite Hbalance.
    fold log2. fold (read_call (JStr t) "decimals"). fold (read_call (JStr t) "symbol").
    destruct (W log2 (read_call (JStr t) "decimals")) as [d|ed];
      fold log3;
      destruct (W log3 (read_call (JStr t) "symbol")) as [s|es];
      cbn [answer_or];
      (split;
       [ destruct (formatEther balance) as [f|]; [|reflexivity];
         destruct (adjust f _) as [adj|]; [|reflexivity];
         destruct (toString_method balance); reflexivity
       | intros formatted adjusted raw Hf Hadj Hraw;
         rewrite Hf, Hadj, Hraw; reflexivity ]).
Qed.

Lemma get_token_balance_try_envelope (tokenAddress address : jsval) :
  forall log v log',
    get_token_balance_try W tokenAddress address log = (Returns v, log') -> is_envelope v.
Proof.
  intros log v log'. unfold get_token_balance_try, bind, pure, attempt, viem_call, ret.
  repeat match goal with
         | |- context [match ?x with _ => _ end] =>
             lazymatch x with
             | context [match _ with _ => _ end] => fail
             | _ => destruct x
             end
         end;
    intros Heq; inversion Heq; subst;
    first [apply failure_is_envelope | apply success_is_envelope].
Qed.

(** X23.  On an input other than [undefined] and [null],
    [get-token-balance] never throws and returns the uniform envelope,
    whatever the wallet provider and the chain answer.  On [undefined] and on
    [null] it throws: the input is destructured before the [try] block, and
    no call has been made.  [get-eth-price-estimate] returns its success
    envelope on every input and makes no call. *)
Theorem example_handlers_envelope (input : jsval) (log : list ViemCall) :
  (input <> JUndefined -> input <> JNull ->
   exists v log', get_token_balance W input log = (Returns v, log') /\ is_envelope v)
  /\ (input = JUndefined \/ input = JNull ->
      exists e, get_token_balance W input log = (Throws e, log))
  /\ (exists result,
         get_eth_price_estimate input log
         = (Returns (success_envelope (Some result)), log)).
Proof.
  split; [|split].
  - intros Hu Hn. unfold get_token_balance, bind, pure, attempt, ret.
    assert (Hd : forall k, exists x, destructure input k = Returns x).
    { intros k. destruct input; try congruence; eexists; reflexivity. }
    destruct (Hd "tokenAddress") as [tokenAddress ->].
    destruct (Hd "address") as [address ->].
    destruct (get_token_balance_try W tokenAddress address log) as [[v|e] log'] eqn:Hrun.
    + exists v, log'. split; [reflexivity|].
      exact (get_token_balance_try_envelope _ _ _ _ _ Hrun).
    + eexists _, log'. split; [reflexivity | apply failure_is_envelope].
  - intros [-> | ->]; eexists; reflexivity.
  - eexists. reflexivity.
Qed.
End ExampleFacts.

Lemma get_token_balance_validates_witness :
  Example.destructure (JObj [("tokenAddress", JStr "USDC"); ("address", JStr "me")])
                      "tokenAddress"
  = Returns (JStr "USDC")
  /\ ~ Example.passes_check "USDC"
  /\ @Example.get_token_balance example_host Example.example_viem
       Example.bare_token_world
       (JObj [("tokenAddress", JStr "USDC"); ("address", JStr "me")]) []
     = (Returns (failure_envelope
                   "Invalid token address: USDC. Must be a valid Ethereum address."), []).
Proof.
  assert (Hno : ~ Example.passes_check "USDC") by (intros [Hp _]; discriminate).
  split; [reflexivity|]. split; [exact Hno|].
  exact (proj1 (@get_token_balance_validates example_host Example.example_viem
                  Example.bare_token_world
                  (JObj [("tokenAddress", JStr "USDC"); ("address", JStr "me")])
                  (JStr "USDC") (JStr "me") [] eq_refl eq_refl)
           "USDC" eq_refl Hno).
Defined.

Lemma get_token_balance_reads_witness :
  (@Example.get_token_balance example_host Example.example_viem Example.bare_token_world
     Example.token_request []).1
  = Returns (success_envelope
               (Some ("Token Balance: " +:+ "7" +:+ " "
                        +:+ "TOKEN"
                        +:+ " (" +:+ "7" +:+ " raw units) for address "
                        +:+ "0x2222222222222222222222222222222222222222"))).
Proof.
  refine (proj2 (proj2 (@get_token_balance_reads example_host Example.example_viem
                          Example.bare_token_world Example.token_request
                          "0x1111111111111111111111111111111111111111"
                          "0x2222222222222222222222222222222222222222" []
                          (Example.AVal (JObj [])) eq_refl eq_refl _ _ eq_refl)
                   (Example.ABig 7) eq_refl)
            "7" "7" "7" _ _ _);
    try (vm_compute; reflexivity).
  - split; vm_compute; reflexivity.
  - split; vm_compute; reflexivity.
Defined.

Lemma example_handlers_envelope_witness :
  JObj [] <> JUndefined /\ JObj [] <> JNull
  /\ exists v log',
       @Example.get_token_balance example_host Example.example_viem
         Example.bare_token_world (JObj []) []
       = (Returns v, log')
       /\ is_envelope v.
Proof.
  assert (Hu : JObj [] <> JUndefined) by discriminate.
  assert (Hn : JObj [] <> JNull) by discriminate.
  split; [exact Hu|]. split; [exact Hn|].
  exact (proj1 (@example_handlers_envelope example_host Example.example_viem
                  Example.bare_token_world (JObj []) []) Hu Hn).
Defined.

(** ** The Lit Action that is executed *)

Section CidFacts.
Context `{Host} (W : World) (config : jsval).


End CidFacts.


(** ** A source file that cannot be used *)

Section MissingFile.
Context `{Host} (W : World) (config input : jsval).

(** X25.  When the source file does not exist, [lit-encrypt-env] and
    [lit-decrypt-env] stop at the [fs.readFile] that fails: the
    function-style handlers return the failure envelope with the [ENOENT]
    message of the file system (not the "is empty or missing" message, which
    is for an empty file), the class actions throw it, and nothing else has
    been called: no client, no wallet, no write.  [lit-decrypt-env] stops in
    the same way, with the message of [JSON.parse], when the file is not a
    JSON document. *)
Theorem env_actions_unusable_source (st : State) (path : string) (u : jsval) :
  sdk W (log st) {| api := fs_readFile; args := [JStr path; JStr "utf-8"] |} = Returns u ->
  let st1 := record {| api := fs_readFile; args := [JStr path; JStr "utf-8"] |} st in
  let enoent := "ENOENT: no such file or directory, open '" +:+ path +:+ "'" in
  (files st !! path = None ->
   (forall envFilePath,
       get_prop input "envFilePath" = Returns envFilePath ->
       js_or envFilePath (JStr ".env") = JStr path ->
       TS.lit_encrypt_env W config input st
       = (Returns (failure_envelope ("Encryption failed: " +:+ enoent)), st1))
   /\ (forall encryptedFilePath,
          get_prop input "encryptedFilePath" = Returns encryptedFilePath ->
          js_or encryptedFilePath (JStr ".env.encrypted") = JStr path ->
          TS.lit_decrypt_env W config input st
          = (Returns (failure_envelope
                        ("Decryption failed: " +:+ enoent +:+ ". "
                           +:+ "Make sure you have permission to decrypt this file.")),
             st1))
   /\ (get_prop input "envFilePath" = Returns (JStr path) ->
       Cls.encryptEnv W config input st = (Throws (JsError enoent), st1))
   /\ (get_prop input "encryptedFilePath" = Returns (JStr path) ->
       Cls.decryptEnv W config input st = (Throws (JsError enoent), st1)))
  /\ (forall content e encryptedFilePath,
         files st !! path = Some content ->
         JSON_parse content = Throws e ->
         get_prop input "encryptedFilePath" = Returns encryptedFilePath ->
         js_or encryptedFilePath (JStr ".env.encrypted") = JStr path ->
         TS.lit_decrypt_env W config input st
         = (Returns (failure_envelope
                       ("Decryption failed: " +:+ error_message e +:+ ". "
                          +:+ "Make sure you have permission to decrypt this file.")),
            st1)).
Proof.
  intros Hread st1 enoent. subst st1 enoent. split; [intros Hfile; split_and!|].
  - intros envFilePath Hget Hpath.
    unfold TS.lit_encrypt_env, TS.lit_encrypt_env_try, try_catch.
    rewrite (bind_lift_returns _ _ _ _ Hget). rewrite Hpath.
    rewrite bind_run. unfold readFile at 1. rewrite Hread, Hfile. reflexivity.
  - intros encryptedFilePath Hget Hpath.
    unfold TS.lit_decrypt_env, TS.lit_decrypt_env_try, try_catch.
    rewrite (bind_lift_returns _ _ _ _ Hget). rewrite Hpath.
    rewrite bind_run. unfold readFile at 1. rewrite Hread, Hfile. reflexivity.
  - intros Hget. unfold Cls.encryptEnv.
    rewrite (bind_lift_returns _ _ _ _ Hget).
    rewrite bind_run. unfold readFile at 1. rewrite Hread, Hfile. reflexivity.
  - intros Hget. unfold Cls.decryptEnv.
    rewrite (bind_lift_returns _ _ _ _ Hget).
    rewrite bind_run. unfold readFile at 1. rewrite Hread, Hfile. reflexivity.
  - intros content e encryptedFilePath Hfile Hjson Hget Hpath.
    unfold TS.lit_decrypt_env, TS.lit_decrypt_env_try, try_catch.
    rewrite (bind_lift_returns _ _ _ _ Hget). rewrite Hpath.
    rewrite bind_run. unfold readFile at 1. rewrite Hread, Hfile.
    rewrite (bind_lift_throws _ _ _ _ Hjson). reflexivity.
Qed.
End MissingFile.

Lemma env_actions_unusable_source_witness :
  sdk quiet_world (log (initial_state ∅))
      {| api := fs_readFile; args := [JStr ".env"; JStr "utf-8"] |}
  = Returns JUndefined
  /\ files (initial_state ∅) !! ".env" = None
  /\ @TS.lit_encrypt_env example_host quiet_world JUndefined (JObj []) (initial_state ∅)
     = (Returns (failure_envelope
                   "Encryption failed: ENOENT: no such file or directory, open '.env'"),
        record {| api := fs_readFile; args := [JStr ".env"; JStr "utf-8"] |}
               (initial_state ∅)).
Proof.
  split; [reflexivity|]. split; [reflexivity|].
  exact (proj1 (proj1 (@env_actions_unusable_source example_host quiet_world JUndefined
                         (JObj []) (initial_state ∅) ".env" JUndefined eq_refl)
                  eq_refl)
           JUndefined eq_refl eq_refl).
Defined.
